(** * Verification of [biomedical_qa/tfutil.py]

    The module is a set of helpers assembled from TensorFlow primitives.
    Tensors are embedded as a shape together with a row-major buffer, the
    primitives as functions that compute the output shape and every output
    cell (or fail, as the runtime does), and the helpers of [tfutil.py] as the
    same compositions of primitives as in the Python source. *)

From Stdlib Require Import List ZArith Lia Bool Arith Reals Lra Sorted.
Import ListNotations.

(** ** Failure *)

(** [InvalidArgument]: an operation of the runtime rejects its input.
    [AssertionFailed]: a [tf.assert_*] operation is violated.
    [PyError]: the Python glue itself raises (tuple unpacking, list index). *)
Inductive error : Type := InvalidArgument | AssertionFailed | PyError.

Inductive result (A : Type) : Type :=
| Ok (a : A)
| Err (e : error).

Arguments Ok {A} a.
Arguments Err {A} e.

Definition bind {A B : Type} (c : result A) (k : A -> result B) : result B :=
  match c with
  | Ok a => k a
  | Err e => Err e
  end.

Notation "x <- c ;; k" := (bind c (fun x => k))
  (at level 61, c at next level, right associativity).

Fixpoint mapM {A B : Type} (f : A -> result B) (l : list A) : result (list B) :=
  match l with
  | [] => Ok []
  | x :: r => y <- f x ;; ys <- mapM f r ;; Ok (y :: ys)
  end.

Definition guard (b : bool) (e : error) : result unit :=
  if b then Ok tt else Err e.

Definition of_option {A : Type} (o : option A) (e : error) : result A :=
  match o with
  | Some a => Ok a
  | None => Err e
  end.

(** ** Fixed-width integers *)

Definition wrap (bits : Z) (z : Z) : Z :=
  ((z + 2 ^ (bits - 1)) mod 2 ^ bits - 2 ^ (bits - 1))%Z.

Definition wrap32 : Z -> Z := wrap 32.
Definition wrap64 : Z -> Z := wrap 64.

Definition int32_min : Z := (- 2 ^ 31)%Z.
Definition int32_max : Z := (2 ^ 31 - 1)%Z.
Definition int64_min : Z := (- 2 ^ 63)%Z.
Definition int64_max : Z := (2 ^ 63 - 1)%Z.

Definition in_int32 (z : Z) : Prop := (int32_min <= z <= int32_max)%Z.
Definition in_int64 (z : Z) : Prop := (int64_min <= z <= int64_max)%Z.

(** ** Tensors *)

Record Tensor (A : Type) : Type := mkT { shape : list nat; data : list A }.

Arguments mkT {A} shape data.
Arguments shape {A} t.
Arguments data {A} t.

Definition numel (sh : list nat) : nat := fold_right Nat.mul 1 sh.

Definition rank {A : Type} (t : Tensor A) : nat := length (shape t).

(** A tensor's buffer holds exactly the cells of its shape. *)
Definition wf {A : Type} (t : Tensor A) : Prop :=
  length (data t) = numel (shape t).

(** The dimensions fit the int32 vector that [tf.shape] returns. *)
Definition shape32 {A : Type} (t : Tensor A) : Prop :=
  Forall (fun d => (Z.of_nat d <= int32_max)%Z) (shape t).

Definition scalar {A : Type} (a : A) : Tensor A := mkT [] [a].
Definition vector {A : Type} (l : list A) : Tensor A := mkT [length l] l.

(** All multi-indices of a shape, in row-major order. *)
Fixpoint indices (sh : list nat) : list (list nat) :=
  match sh with
  | [] => [[]]
  | d :: sh' => flat_map (fun i => map (cons i) (indices sh')) (seq 0 d)
  end.

(** Row-major offset of a multi-index; [None] when it is not an index of the
    shape. *)
Fixpoint ravel (sh idx : list nat) : option nat :=
  match sh, idx with
  | [], [] => Some 0
  | d :: sh', i :: idx' =>
      if i <? d then option_map (fun o => i * numel sh' + o) (ravel sh' idx')
      else None
  | _, _ => None
  end.

Definition tget {A : Type} (t : Tensor A) (idx : list nat) : option A :=
  match ravel (shape t) idx with
  | Some o => nth_error (data t) o
  | None => None
  end.

Definition tread {A : Type} (t : Tensor A) (idx : list nat) : result A :=
  of_option (tget t idx) InvalidArgument.

(** The tensor of shape [sh] whose cell [I] is [f I]. *)
Definition tbuild {A : Type} (sh : list nat) (f : list nat -> result A)
  : result (Tensor A) :=
  cells <- mapM f (indices sh) ;; Ok (mkT sh cells).

Definition tmap {A B : Type} (f : A -> B) (t : Tensor A) : Tensor B :=
  mkT (shape t) (map f (data t)).

(** ** Element types

    The operations of [tfutil] that compare cells work for every numeric
    dtype; [Num] is what they need of it.  [lowest] is the value of a maximum
    over no cell (the least value of the dtype), [zero] the value the segment
    reductions give to an id that labels no row. *)
Class Num (A : Type) : Type := {
  zero : A;
  lowest : A;
  leb : A -> A -> bool;
  eqb : A -> A -> bool
}.

Class NumLaws (A : Type) `{Num A} : Prop := {
  leb_total : forall x y : A, leb x y = true \/ leb y x = true;
  leb_trans : forall x y z : A, leb x y = true -> leb y z = true -> leb x z = true;
  leb_antisym : forall x y : A, leb x y = true -> leb y x = true -> x = y;
  eqb_eq : forall x y : A, eqb x y = true <-> x = y
}.

Definition max_of {A : Type} `{Num A} (x y : A) : A := if leb x y then y else x.

Definition max_list {A : Type} `{Num A} (l : list A) : A :=
  match l with
  | [] => lowest
  | x :: r => fold_left max_of r x
  end.

#[export] Instance Num_Z : Num Z :=
  {| zero := 0%Z; lowest := int64_min; leb := Z.leb; eqb := Z.eqb |}.

(** The reals idealise the floating-point dtypes.  They have no least element:
    [lowest] is 0 here, and only a maximum over an empty row yields it, in a
    matrix that has no cell to compare it with. *)
#[export] Instance Num_R : Num R :=
  {| zero := 0%R;
     lowest := 0%R;
     leb := fun x y => if Rle_dec x y then true else false;
     eqb := fun x y => if Req_dec_T x y then true else false |}.

Definition sum_Z (l : list Z) : Z := fold_right Z.add 0%Z l.
Definition sum_R (l : list R) : R := fold_right Rplus 0%R l.

(** ** The primitives of the runtime used by [tfutil] *)

Module TF.

(** [tf.shape]: the dimensions as an int32 vector. *)
Definition shape_ {A : Type} (t : Tensor A) : result (Tensor Z) :=
  _ <- guard (forallb (fun d => (Z.of_nat d <=? int32_max)%Z) (shape t))
             InvalidArgument ;;
  Ok (vector (map Z.of_nat (shape t))).

(** [tf.unpack] of a vector: its entries, as 0-dim tensors (written as their
    values). *)
Definition unpack {A : Type} (t : Tensor A) : result (list A) :=
  match shape t with
  | [_] => Ok (data t)
  | _ => Err InvalidArgument
  end.

(** Broadcasting of two shapes, aligned at their last dimension. *)
Fixpoint bshape_rev (a b : list nat) : option (list nat) :=
  match a, b with
  | [], _ => Some b
  | _, [] => Some a
  | x :: a', y :: b' =>
      match bshape_rev a' b' with
      | Some r =>
          if x =? y then Some (x :: r)
          else if x =? 1 then Some (y :: r)
          else if y =? 1 then Some (x :: r)
          else None
      | None => None
      end
  end.

Definition broadcast_shape (a b : list nat) : option (list nat) :=
  option_map (@rev nat) (bshape_rev (rev a) (rev b)).

(** The cell of an operand of shape [sh] that output cell [I] reads. *)
Definition bindex (sh I : list nat) : list nat :=
  map (fun di => if fst di =? 1 then 0 else snd di)
      (combine sh (skipn (length I - length sh) I)).

(** A cell-wise binary operation, with broadcasting. *)
Definition binop {A B C : Type} (f : A -> B -> C) (a : Tensor A) (b : Tensor B)
  : result (Tensor C) :=
  match broadcast_shape (shape a) (shape b) with
  | Some sh =>
      tbuild sh (fun I =>
        x <- tread a (bindex (shape a) I) ;;
        y <- tread b (bindex (shape b) I) ;;
        Ok (f x y))
  | None => Err InvalidArgument
  end.

(** [tf.range(start, limit)] on int32. *)
Definition range (start limit : Z) : result (Tensor Z) :=
  _ <- guard ((int32_min <=? start)%Z && (start <=? limit)%Z
              && (limit <=? int32_max)%Z) InvalidArgument ;;
  Ok (vector (map (fun i => (start + Z.of_nat i)%Z)
                  (seq 0 (Z.to_nat (limit - start))))).

(** [tf.reshape]: at most one requested dimension is [-1].  It is inferred
    from the dimensions of the input: their product over the product of the
    positive requested dimensions.  When the requested shape has an empty
    dimension, the empty dimensions of the input take no part in the product
    and the division need not be exact.  The result must have as many cells
    as the input. *)
Definition reshape {A : Type} (t : Tensor A) (sh : list Z) : result (Tensor A) :=
  _ <- guard (forallb (fun d => (-1 <=? d)%Z) sh) InvalidArgument ;;
  let product := numel (map Z.to_nat (filter (fun d => (0 <? d)%Z) sh)) in
  let has_zero_dim := existsb (Z.eqb 0) sh in
  missing <-
    match count_occ Z.eq_dec sh (-1)%Z with
    | 0 => Ok 0
    | 1 =>
        let input_num_elements :=
          numel (filter (fun d => (0 <? d) || negb has_zero_dim) (shape t)) in
        let input_has_zero_dim :=
          existsb (fun d => (d =? 0) && has_zero_dim) (shape t) in
        let missing := input_num_elements / product in
        _ <- guard (input_has_zero_dim
                    || (product * missing =? input_num_elements))
                   InvalidArgument ;;
        Ok missing
    | _ => Err InvalidArgument
    end ;;
  let sh' := map (fun d => if (d =? -1)%Z then missing else Z.to_nat d) sh in
  _ <- guard (numel sh' =? length (data t)) InvalidArgument ;;
  Ok (mkT sh' (data t)).

(** [tf.gather]: slices of [params] along its first dimension; the result has
    shape [indices.shape + params.shape[1:]]. *)
Definition gather {A : Type} (params : Tensor A) (idx : Tensor Z)
  : result (Tensor A) :=
  match shape params with
  | [] => Err InvalidArgument
  | _ :: rest =>
      let r := length (shape idx) in
      tbuild (shape idx ++ rest) (fun I =>
        i <- tread idx (firstn r I) ;;
        _ <- guard (0 <=? i)%Z InvalidArgument ;;
        tread params (Z.to_nat i :: skipn r I))
  end.

(** [tf.gather_nd]: the last dimension of [indices] holds coordinates into the
    leading dimensions of [params]. *)
Definition gather_nd {A : Type} (params : Tensor A) (idx : Tensor Z)
  : result (Tensor A) :=
  match rev (shape idx) with
  | [] => Err InvalidArgument
  | k :: outer_rev =>
      let outer := rev outer_rev in
      let o := length outer in
      _ <- guard (k <=? length (shape params)) InvalidArgument ;;
      tbuild (outer ++ skipn k (shape params)) (fun I =>
        coord <- mapM (fun c => tread idx (firstn o I ++ [c])) (seq 0 k) ;;
        _ <- guard (forallb (fun c => (0 <=? c)%Z) coord) InvalidArgument ;;
        tread params (map Z.to_nat coord ++ skipn o I))
  end.

(** Position of [e] in [p] (its length when absent). *)
Fixpoint index_of (e : nat) (p : list nat) : nat :=
  match p with
  | [] => 0
  | x :: p' => if x =? e then 0 else S (index_of e p')
  end.

Definition is_perm (perm : list Z) (r : nat) : bool :=
  (length perm =? r)
  && forallb (fun e => existsb (Z.eqb (Z.of_nat e)) perm) (seq 0 r).

(** [tf.transpose(t, perm)]: dimension [d] of the result is dimension
    [perm[d]] of [t]. *)
Definition transpose {A : Type} (t : Tensor A) (perm : list Z)
  : result (Tensor A) :=
  let r := length (shape t) in
  _ <- guard (is_perm perm r) InvalidArgument ;;
  let p := map Z.to_nat perm in
  tbuild (map (fun e => nth e (shape t) 0) p)
         (fun I => tread t (map (fun e => nth (index_of e p) I 0) (seq 0 r))).

(** [tf.transpose(t)]: the dimensions reversed. *)
Definition transpose_default {A : Type} (t : Tensor A) : result (Tensor A) :=
  transpose t (map Z.of_nat (rev (seq 0 (length (shape t))))).

(** One dimension of [tf.slice]: a size of [-1] takes the rest. *)
Definition slice_dim (d : nat) (b s : Z) : result nat :=
  _ <- guard (0 <=? b)%Z InvalidArgument ;;
  if (s =? -1)%Z then
    _ <- guard (b <=? Z.of_nat d)%Z InvalidArgument ;;
    Ok (d - Z.to_nat b)
  else
    _ <- guard ((0 <=? s)%Z && (b + s <=? Z.of_nat d)%Z) InvalidArgument ;;
    Ok (Z.to_nat s).

Fixpoint slice_shape (sh : list nat) (bs ss : list Z) : result (list nat) :=
  match sh, bs, ss with
  | [], [], [] => Ok []
  | d :: sh', b :: bs', s :: ss' =>
      x <- slice_dim d b s ;; r <- slice_shape sh' bs' ss' ;; Ok (x :: r)
  | _, _, _ => Err InvalidArgument
  end.

(** [tf.slice(t, begin, size)]. *)
Definition slice {A : Type} (t : Tensor A) (begin size : Tensor Z)
  : result (Tensor A) :=
  bs <- unpack begin ;;
  ss <- unpack size ;;
  sh <- slice_shape (shape t) bs ss ;;
  tbuild sh (fun I =>
    tread t (map (fun bi => Z.to_nat (fst bi) + snd bi) (combine bs I))).

(** [tf.squeeze(t)]: every dimension of size 1 is removed. *)
Definition squeeze_all {A : Type} (t : Tensor A) : Tensor A :=
  mkT (filter (fun d => negb (d =? 1)) (shape t)) (data t).

(** [tf.squeeze(t, axes)]: the listed dimensions, which must have size 1, are
    removed. *)
Definition squeeze {A : Type} (t : Tensor A) (axes : list nat)
  : result (Tensor A) :=
  _ <- guard (forallb (fun a => match nth_error (shape t) a with
                                | Some d => d =? 1
                                | None => false
                                end) axes) InvalidArgument ;;
  Ok (mkT (map snd (filter (fun p => negb (existsb (Nat.eqb (fst p)) axes))
                           (combine (seq 0 (length (shape t))) (shape t))))
          (data t)).

(** [tf.expand_dims(t, axis)]. *)
Definition expand_dims {A : Type} (t : Tensor A) (axis : nat)
  : result (Tensor A) :=
  _ <- guard (axis <=? length (shape t)) InvalidArgument ;;
  Ok (mkT (firstn axis (shape t) ++ 1 :: skipn axis (shape t)) (data t)).

(** [tf.tile(t, multiples)]. *)
Definition tile {A : Type} (t : Tensor A) (multiples : list Z)
  : result (Tensor A) :=
  _ <- guard ((length multiples =? length (shape t))
              && forallb (fun m => (0 <=? m)%Z) multiples) InvalidArgument ;;
  tbuild (map (fun dm => fst dm * Z.to_nat (snd dm))
              (combine (shape t) multiples))
         (fun I => tread t (map (fun di => snd di mod fst di)
                                (combine (shape t) I))).

(** [tf.pack]: tensors of one shape stacked along a new first dimension. *)
Definition pack {A : Type} (ts : list (Tensor A)) : result (Tensor A) :=
  match ts with
  | [] => Err InvalidArgument
  | t :: r =>
      _ <- guard (forallb (fun u => if list_eq_dec Nat.eq_dec (shape u) (shape t)
                                    then true else false) r) InvalidArgument ;;
      Ok (mkT (length ts :: shape t) (flat_map (@data A) ts))
  end.

(** [tf.where(t)]: the coordinates of the true cells, one row each, in
    row-major order. *)
Definition where_ (t : Tensor bool) : Tensor Z :=
  let sel := map fst (filter snd (combine (indices (shape t)) (data t))) in
  mkT [length sel; length (shape t)] (map Z.of_nat (concat sel)).

(** Reduction along one dimension: [f] is applied to the cells met along
    [axis]. *)
Definition lane_index (keep_dims : bool) (axis j : nat) (I : list nat) : list nat :=
  firstn axis I ++ j :: skipn (if keep_dims then S axis else axis) I.

Definition reduce_axis {A B : Type} (f : list A -> result B) (t : Tensor A)
  (axis : nat) (keep_dims : bool) : result (Tensor B) :=
  let sh := shape t in
  _ <- guard (axis <? length sh) InvalidArgument ;;
  tbuild (firstn axis sh ++ (if keep_dims then [1] else []) ++ skipn (S axis) sh)
         (fun I =>
            l <- mapM (fun j => tread t (lane_index keep_dims axis j I))
                      (seq 0 (nth axis sh 0)) ;;
            f l).

(** Reduction over all dimensions; the 0-dim result is written as its
    value. *)
Definition reduce_all {A B : Type} (f : list A -> B) (t : Tensor A) : B :=
  f (data t).

(** First position of the greatest cell. *)
Fixpoint argmax_from {A : Type} `{Num A} (best : A) (besti i : nat) (l : list A)
  : nat :=
  match l with
  | [] => besti
  | x :: r =>
      if leb x best then argmax_from best besti (S i) r
      else argmax_from x i (S i) r
  end.

Definition argmax_list {A : Type} `{Num A} (l : list A) : result Z :=
  match l with
  | [] => Err InvalidArgument
  | x :: r => Ok (Z.of_nat (argmax_from x 0 1 r))
  end.

(** [tf.argmax(t, axis)], an int64 tensor. *)
Definition argmax {A : Type} `{Num A} (t : Tensor A) (axis : nat)
  : result (Tensor Z) :=
  reduce_axis argmax_list t axis false.

(** Segment ids must be non-negative and sorted: the segment reductions scan
    the rows once and reject an id that is smaller than the one before. *)
Fixpoint sorted_ids (ids : list Z) : bool :=
  match ids with
  | [] => true
  | x :: r =>
      match r with
      | [] => true
      | y :: _ => (x <=? y)%Z && sorted_ids r
      end
  end.

Definition segment_ids_ok (ids : list Z) : bool :=
  forallb (fun g => (0 <=? g)%Z) ids && sorted_ids ids.

(** The number of segments: the last id plus one. *)
Definition num_segments (ids : list Z) : nat :=
  match rev ids with
  | [] => 0
  | g :: _ => S (Z.to_nat g)
  end.

(** The rows labelled [g]. *)
Definition segment_rows (ids : list Z) (g : nat) : list nat :=
  map fst (filter (fun p => (snd p =? Z.of_nat g)%Z)
                  (combine (seq 0 (length ids)) ids)).

(** [tf.segment_*(data, segment_ids)]: the result has one row per id up to
    the last one; row [g] reduces the rows of [data] labelled [g], and [f] of
    no row is the value of an id that labels none. *)
Definition segment_reduce {A : Type} (f : list A -> A) (dat : Tensor A)
  (ids : Tensor Z) : result (Tensor A) :=
  match shape dat, shape ids with
  | n :: rest, [n'] =>
      _ <- guard ((n =? n') && (length (data ids) =? n')) InvalidArgument ;;
      _ <- guard (segment_ids_ok (data ids)) InvalidArgument ;;
      tbuild (num_segments (data ids) :: rest) (fun I =>
        match I with
        | g :: J =>
            vals <- mapM (fun j => tread dat (j :: J))
                         (segment_rows (data ids) g) ;;
            Ok (f vals)
        | [] => Err InvalidArgument
        end)
  | _, _ => Err InvalidArgument
  end.

Definition segment_max {A : Type} `{Num A} : Tensor A -> Tensor Z -> result (Tensor A) :=
  segment_reduce (fun l => match l with [] => zero | _ => max_list l end).

Definition segment_sum : Tensor R -> Tensor Z -> result (Tensor R) :=
  segment_reduce sum_R.

Definition reduce_max {A : Type} `{Num A} (t : Tensor A) (axis : nat)
  : result (Tensor A) :=
  reduce_axis (fun l => Ok (max_list l)) t axis false.

Definition reduce_sum (t : Tensor R) (axis : nat) (keep_dims : bool)
  : result (Tensor R) :=
  reduce_axis (fun l => Ok (sum_R l)) t axis keep_dims.

Definition reduce_any (t : Tensor bool) (axis : nat) : result (Tensor bool) :=
  reduce_axis (fun l => Ok (existsb (fun b => b) l)) t axis false.

(** [tf.assert_equal(x, y)]. *)
Definition assert_equal (x y : Tensor Z) : result unit :=
  e <- binop Z.eqb x y ;;
  guard (forallb (fun b => b) (data e)) AssertionFailed.

End TF.

(** ** The functions of [tfutil.py] *)

Definition mul32 (x y : Z) : Z := wrap32 (x * y).
Definition add32 (x y : Z) : Z := wrap32 (x + y).
Definition sub32 (x y : Z) : Z := wrap32 (x - y).
Definition add64 (x y : Z) : Z := wrap64 (x + y).

(** [tf.cast] of a boolean to a number. *)
Definition bool_to_Z (b : bool) : Z := if b then 1%Z else 0%Z.
Definition bool_to_R (b : bool) : R := if b then 1%R else 0%R.

(** [tf.rsqrt]. *)
Definition rsqrt (x : R) : R := (/ sqrt x)%R.

Definition get_by_index {A : Type} (tensor : Tensor A) (index : Tensor Z)
  : result (Tensor A) :=
  sh <- TF.shape_ tensor ;;
  dims <- TF.unpack sh ;;
  match dims with
  | [dim1; dim2; dim3] =>
      rng <- TF.range 0 dim1 ;;
      scaled <- TF.binop mul32 rng (scalar dim2) ;;
      index0 <- TF.binop sub32 index (scalar 1%Z) ;;
      flat_index <- TF.binop add32 scaled index0 ;;
      flat <- TF.reshape tensor [(-1)%Z; dim3] ;;
      TF.gather flat flat_index
  | _ => Err PyError
  end.

Definition get_last {A : Type} (tensor : Tensor A) : result (Tensor A) :=
  shape <- TF.shape_ tensor ;;
  s1 <- TF.binop mul32 shape (vector [1; 0; 1]%Z) ;;
  slice_size <- TF.binop add32 s1 (vector [0; 1; 0]%Z) ;;
  b1 <- TF.binop mul32 shape (vector [0; 1; 0]%Z) ;;
  slice_begin <- TF.binop add32 b1 (vector [0; -1; 0]%Z) ;;
  sl <- TF.slice tensor slice_begin slice_size ;;
  TF.squeeze sl [1].

(** [batch_size] and [max_length] are [None] when the caller leaves them out;
    [lengths] is an int64 vector. *)
Definition mask_for_lengths (lengths : Tensor Z) (batch_size max_length : option Z)
  (mask_right : bool) (value : R) : result (Tensor R) :=
  max_length <- match max_length with
                | Some m => Ok m
                | None => Ok (wrap32 (TF.reduce_all max_list lengths))
                end ;;
  batch_size <- match batch_size with
                | Some b => Ok b
                | None =>
                    sh <- TF.shape_ lengths ;;
                    of_option (nth_error (data sh) 0) InvalidArgument
                end ;;
  rng <- TF.range 0 max_length ;;
  tiled <- TF.tile rng [batch_size] ;;
  mask <- TF.reshape tiled [batch_size; (-1)%Z] ;;
  len1 <- TF.expand_dims lengths 1 ;;
  mask <- (if mask_right
           then TF.binop Z.geb (tmap wrap64 mask) len1
           else TF.binop Z.ltb (tmap wrap64 mask) len1) ;;
  TF.binop Rmult (tmap bool_to_R mask) (scalar value).

(** Python's [l[i] = v], with its negative indices and its [IndexError]. *)
Definition py_setitem {A : Type} (l : list A) (i : Z) (v : A) : result (list A) :=
  let n := Z.of_nat (length l) in
  let put k := firstn k l ++ v :: skipn (S k) l in
  if ((0 <=? i) && (i <? n))%Z then Ok (put (Z.to_nat i))
  else if ((- n <=? i) && (i <? 0))%Z then Ok (put (Z.to_nat (i + n)))
  else Err PyError.

Definition gather_in_dim {A : Type} (params : Tensor A) (indices : Tensor Z)
  (dim : Z) : result (Tensor A) :=
  if (dim =? 0)%Z then TF.gather params indices
  else
    let dims := map Z.of_nat (seq 0 (length (shape params))) in
    to_dims <- py_setitem dims 0 dim ;;
    to_dims <- py_setitem to_dims dim 0%Z ;;
    transposed <- TF.transpose params to_dims ;;
    gathered <- TF.gather transposed indices ;;
    TF.transpose gathered to_dims.

Definition unit_length (tensor : Tensor R) : result (Tensor R) :=
  sq <- TF.binop Rmult tensor tensor ;;
  l2norm_sq <- TF.reduce_sum sq 1 true ;;
  let l2norm := tmap rsqrt l2norm_sq in
  TF.binop Rmult tensor l2norm.

Definition segment_softmax (scores : Tensor R) (partition : Tensor Z)
  : result (Tensor R) :=
  rowmax <- TF.reduce_max scores 1 ;;
  max_per_partition <- TF.segment_max rowmax partition ;;
  g <- TF.gather max_per_partition partition ;;
  g1 <- TF.expand_dims g 1 ;;
  scores <- TF.binop Rminus scores g1 ;;
  let scores_exp := tmap exp scores in
  rowsum <- TF.reduce_sum scores_exp 1 false ;;
  scores_exp_sum_per_partition <- TF.segment_sum rowsum partition ;;
  s <- TF.gather scores_exp_sum_per_partition partition ;;
  s1 <- TF.expand_dims s 1 ;;
  TF.binop Rdiv scores_exp s1.

(** [partition] is an int64 vector, as the assertion compares
    [num_partitions] with an int64 count. *)
Definition segment_argmax {A : Type} `{Num A} (input : Tensor A)
  (partition : Tensor Z) : result (Tensor Z * Tensor Z) :=
  num_partitions <- TF.binop add64 (scalar (TF.reduce_all max_list partition))
                                   (scalar 1%Z) ;;
  rowmax <- TF.reduce_max input 1 ;;
  max_per_partition <- TF.segment_max rowmax partition ;;
  g <- TF.gather max_per_partition partition ;;
  g1 <- TF.expand_dims g 1 ;;
  is_max <- TF.binop eqb input g1 ;;
  let is_max_count := scalar (TF.reduce_all sum_Z (tmap bool_to_Z is_max)) in
  _ <- TF.assert_equal num_partitions is_max_count ;;
  row_selected <- TF.reduce_any is_max 1 ;;
  let row_indices := TF.squeeze_all (TF.where_ row_selected) in
  selected_rows_is_max <- TF.gather is_max row_indices ;;
  col_indices <- TF.argmax (tmap bool_to_Z selected_rows_is_max) 1 ;;
  Ok (row_indices, col_indices).

(** The coordinates [(i, indices[i])], as a [rows x 2] tensor; [indices] is
    an int64 vector, packed with the row index cast to int64. *)
Definition gather_rowwise_indices_1d (indices : Tensor Z) : result (Tensor Z) :=
  sh <- TF.shape_ indices ;;
  rows <- of_option (nth_error (data sh) 0) InvalidArgument ;;
  rng <- TF.range 0 rows ;;
  let row_index := tmap wrap64 rng in
  packed <- TF.pack [row_index; indices] ;;
  TF.transpose_default packed.

Definition gather_rowwise_1d {A : Type} (input : Tensor A) (indices : Tensor Z)
  : result (Tensor A) :=
  _indices <- gather_rowwise_indices_1d indices ;;
  TF.gather_nd input (tmap wrap32 _indices).

(** The coordinates [(i, indices[i, k])], as an [rows x cols x 2] tensor;
    [indices] is an int32 matrix, packed with the int32 row index. *)
Definition gather_rowwise_indices_2d (indices : Tensor Z) : result (Tensor Z) :=
  sh <- TF.shape_ indices ;;
  rows <- of_option (nth_error (data sh) 0) InvalidArgument ;;
  cols <- of_option (nth_error (data sh) 1) InvalidArgument ;;
  rng <- TF.range 0 rows ;;
  row_index <- TF.expand_dims rng 1 ;;
  row_index_tiled <- TF.tile row_index [1%Z; cols] ;;
  _indices <- TF.pack [row_index_tiled; indices] ;;
  TF.transpose _indices [1; 2; 0]%Z.

Definition gather_rowwise_2d {A : Type} (input : Tensor A) (indices : Tensor Z)
  : result (Tensor A) :=
  _indices <- gather_rowwise_indices_2d indices ;;
  TF.gather_nd input _indices.

(** ** What the helpers are expected to return *)

(** [get_by_index] returns a [d1 x d3] tensor whose row [i] is
    [tensor[i, index[i] - 1]]. *)
Definition get_by_index_post {A : Type} (tensor : Tensor A) (index : Tensor Z)
  (d1 d3 : nat) : Prop :=
  exists r, get_by_index tensor index = Ok r /\ shape r = [d1; d3] /\ wf r /\
    forall i k, i < d1 -> k < d3 ->
      exists v x, tget index [i] = Some v
        /\ tget tensor [i; Z.to_nat (v - 1); k] = Some x
        /\ tget r [i; k] = Some x.


(** A position [j] of a row of true length [len] is active when it lies in
    the padding ([mask_right]) or in the valid region (otherwise). *)
Definition active (mask_right : bool) (j : nat) (len : Z) : bool :=
  if mask_right then (Z.of_nat j >=? len)%Z else (Z.of_nat j <? len)%Z.

(** [mask_for_lengths] returns an [n x L] tensor holding [value] at the active
    positions and 0 elsewhere. *)
Definition mask_for_lengths_post (lengths : Tensor Z) (batch_size max_length : option Z)
  (mask_right : bool) (value : R) (n L : nat) : Prop :=
  exists r, mask_for_lengths lengths batch_size max_length mask_right value = Ok r
    /\ shape r = [n; L] /\ wf r /\
    forall b j, b < n -> j < L ->
      exists len, tget lengths [b] = Some len
        /\ tget r [b; j] = Some (if active mask_right j len then value else 0%R).

(** [L] is the greatest entry of the vector [t]. *)
Definition greatest_entry (t : Tensor Z) (L : Z) : Prop :=
  In L (data t) /\ forall z, In z (data t) -> (z <= L)%Z.

(** The arguments as the claim takes them: [batch_size] is the number of
    entries or left out, [max_length] is the bound [L] or left out, in which
    case [L] is the greatest entry. *)
Definition mask_args (lengths : Tensor Z) (batch_size max_length : option Z)
  (n L : nat) : Prop :=
  (batch_size = Some (Z.of_nat n) \/ batch_size = None)
  /\ (max_length = Some (Z.of_nat L)
      \/ (max_length = None /\ greatest_entry lengths (Z.of_nat L))).
(** The permutation that exchanges dimensions 0 and [dim] of a tensor of rank
    [r]. *)
Definition swap_dims (r dim : nat) : list Z :=
  map (fun e => Z.of_nat (if e =? 0 then dim else if e =? dim then 0 else e))
      (seq 0 r).

(** C4 as stated: gathering along [dim] equals gathering along dimension 0 of
    the tensor with dimensions 0 and [dim] exchanged. *)
Definition gather_in_dim_pretransposed {A : Type} (params : Tensor A)
  (indices : Tensor Z) (dim : nat) : Prop :=
  forall params',
    TF.transpose params (swap_dims (rank params) dim) = Ok params' ->
    gather_in_dim params indices (Z.of_nat dim) = gather_in_dim params' indices 0.

(** Row [i] of a matrix, as it lies in the buffer. *)
Definition row {A : Type} (t : Tensor A) (i : nat) : list A :=
  match shape t with
  | [_; m] => firstn m (skipn (i * m) (data t))
  | _ => []
  end.

Definition sum_sq (l : list R) : R := sum_R (map (fun x => x * x)%R l).

(** The entries of [l] whose label in [ids] is [g], in order. *)
Definition segment_vals {A : Type} (l : list A) (ids : list Z) (g : Z) : list A :=
  map snd (filter (fun p => (fst p =? g)%Z) (combine ids l)).

(** The rows labelled [g], and all their cells. *)
Definition group_rows (ids : list Z) (g : Z) : list nat :=
  segment_vals (seq 0 (length ids)) ids g.

Definition group_cells {A : Type} (t : Tensor A) (partition : Tensor Z) (g : Z)
  : list A :=
  flat_map (row t) (group_rows (data partition) g).

(** Segment ids in non-decreasing order, none negative. *)
Definition sorted_partition (partition : Tensor Z) : Prop :=
  Forall (fun g => (0 <= g)%Z) (data partition)
  /\ forall i j x y, i <= j ->
       nth_error (data partition) i = Some x ->
       nth_error (data partition) j = Some y -> (x <= y)%Z.

(** Rows with equal ids are contiguous. *)
Definition contiguous_partition (partition : Tensor Z) : Prop :=
  forall i j k x, i <= j <= k ->
    nth_error (data partition) i = Some x ->
    nth_error (data partition) k = Some x ->
    nth_error (data partition) j = Some x.

(** [M] is the greatest of the reals [l]. *)
Definition greatest (l : list R) (M : R) : Prop :=
  In M l /\ forall x, In x l -> (x <= M)%R.

(** [segment_softmax] returns an [n x m] tensor whose cell [(i, j)] is the
    exponential of the score, shifted by the greatest score [M] of the group
    of row [i], over the sum of these exponentials on every cell of the
    group; the shift cancels. *)
Definition segment_softmax_post (scores : Tensor R) (partition : Tensor Z)
  (n m : nat) : Prop :=
  exists probs, segment_softmax scores partition = Ok probs
    /\ shape probs = [n; m] /\ wf probs /\
    forall i j, i < n -> j < m ->
      exists g x M,
        tget partition [i] = Some g /\ tget scores [i; j] = Some x
        /\ greatest (group_cells scores partition g) M
        /\ tget probs [i; j]
           = Some (exp (x - M)
                   / sum_R (map (fun y => exp (y - M))
                                (group_cells scores partition g)))%R
        /\ (exp (x - M)
            / sum_R (map (fun y => exp (y - M)) (group_cells scores partition g))
            = exp x / sum_R (map exp (group_cells scores partition g)))%R.

(** The sum of [f 0 .. f (n-1)]. *)
Fixpoint bigsum (f : nat -> Z) (n : nat) : Z :=
  match n with
  | 0 => 0%Z
  | S k => (bigsum f k + f k)%Z
  end.

(** [v] is the greatest cell of the rows labelled [g]. *)
Definition group_max {A : Type} `{Num A} (input : Tensor A) (partition : Tensor Z)
  (g : Z) (v : A) : Prop :=
  In v (group_cells input partition g)
  /\ forall x, In x (group_cells input partition g) -> leb x v = true.

(** Cell [(i, j)] lies in group [g] and holds its greatest value. *)
Definition max_cell {A : Type} `{Num A} (input : Tensor A) (partition : Tensor Z)
  (g : Z) (i j : nat) : Prop :=
  tget partition [i] = Some g
  /\ exists v, tget input [i; j] = Some v /\ group_max input partition g v.

(** Cell [(i, j)] is the only cell of group [g] that holds its greatest
    value. *)
Definition unique_max_cell {A : Type} `{Num A} (input : Tensor A)
  (partition : Tensor Z) (g : Z) (i j : nat) : Prop :=
  max_cell input partition g i j
  /\ forall i' j', max_cell input partition g i' j' -> i' = i /\ j' = j.

(** Two cells of group [g] are tied for its greatest value. *)
Definition tied_group {A : Type} `{Num A} (input : Tensor A) (partition : Tensor Z)
  (g : Z) : Prop :=
  exists i j i' j', (i <> i' \/ j <> j')
    /\ max_cell input partition g i j /\ max_cell input partition g i' j'.

(** Every id up to the greatest one labels some row. *)
Definition dense_partition (partition : Tensor Z) : Prop :=
  forall g, (0 <= g)%Z -> (exists z, In z (data partition) /\ (g <= z)%Z) ->
    In g (data partition).

(** 1 when cell [(i, j)] of a boolean matrix is true. *)
Definition bcell (t : Tensor bool) (i j : nat) : Z :=
  match tget t [i; j] with
  | Some true => 1%Z
  | _ => 0%Z
  end.

(** 1 when row [i] is labelled [g]. *)
Definition in_group (partition : Tensor Z) (i g : nat) : Z :=
  match tget partition [i] with
  | Some z => if (z =? Z.of_nat g)%Z then 1%Z else 0%Z
  | None => 0%Z
  end.

(** The number of true cells of row [i], and of the rows labelled [g]. *)
Definition row_count (t : Tensor bool) (m i : nat) : Z :=
  bigsum (fun j => bcell t i j) m.

Definition group_count (t : Tensor bool) (partition : Tensor Z) (n m g : nat) : Z :=
  bigsum (fun i => (in_group partition i g * row_count t m i)%Z) n.

(** [segment_argmax] returns, for every id [g] up to the greatest id [M], the
    row and the column of the only cell that holds the greatest value of
    group [g]. *)
Definition segment_argmax_post {A : Type} `{Num A} (input : Tensor A)
  (partition : Tensor Z) (M : Z) : Prop :=
  exists row_indices col_indices,
    segment_argmax input partition = Ok (row_indices, col_indices)
    /\ shape row_indices = [Z.to_nat M + 1]
    /\ shape col_indices = [Z.to_nat M + 1]
    /\ forall g, (0 <= g <= M)%Z ->
         exists i j, unique_max_cell input partition g i j
           /\ tget row_indices [Z.to_nat g] = Some (Z.of_nat i)
           /\ tget col_indices [Z.to_nat g] = Some (Z.of_nat j).

(** A computation whose only failure is the runtime's [InvalidArgument]. *)
Definition invalid_only {A : Type} (c : result A) : Prop :=
  forall e, c = Err e -> e = InvalidArgument.

(** The exchange of 0 and [dim], on positions and on a multi-index. *)
Definition swap_at (dim e : nat) : nat :=
  if e =? 0 then dim else if e =? dim then 0 else e.

Definition swap_list (dim : nat) (l : list nat) : list nat :=
  map (fun e => nth (swap_at dim e) l 0) (seq 0 (length l)).

(** The multi-index [l] with entry [dim] replaced by [x]. *)
Definition replace_at (dim x : nat) (l : list nat) : list nat :=
  firstn dim l ++ x :: skipn (S dim) l.

Arguments wrap32 : simpl never.
Arguments wrap64 : simpl never.
Arguments mul32 : simpl never.
Arguments add32 : simpl never.
Arguments sub32 : simpl never.
Arguments int32_max : simpl never.

(** * Properties *)

(** ** The error monad *)

Lemma mapM_ok {A B : Type} (f : A -> result B) (g : A -> B) (l : list A) :
  (forall x, In x l -> f x = Ok (g x)) -> mapM f l = Ok (map g l).
Proof.
  induction l as [|x r IH]; intros Hf; simpl; [reflexivity|].
  rewrite (Hf x (or_introl eq_refl)); simpl.
  rewrite IH; [reflexivity|].
  intros y Hy; apply Hf; right; exact Hy.
Qed.

Lemma mapM_err {A B : Type} (f : A -> result B) (g : A -> B) (l1 l2 : list A)
  (x : A) (e : error) :
  (forall y, In y l1 -> f y = Ok (g y)) -> f x = Err e ->
  mapM f (l1 ++ x :: l2) = Err e.
Proof.
  induction l1 as [|y r IH]; intros Hf Hx; simpl.
  - rewrite Hx; reflexivity.
  - rewrite (Hf y (or_introl eq_refl)); simpl.
    rewrite IH; [reflexivity| |exact Hx].
    intros z Hz; apply Hf; right; exact Hz.
Qed.

(** ** Shapes and multi-indices *)

Lemma length_indices (sh : list nat) : length (indices sh) = numel sh.
Proof.
  induction sh as [|d sh IH]; simpl; [reflexivity|].
  generalize 0 as s.
  induction d as [|d IHd]; intros s; simpl; [reflexivity|].
  rewrite length_app, length_map, IH, IHd; reflexivity.
Qed.

Lemma nth_error_flat_map_const {A : Type} (f : nat -> list A) (w : nat) :
  (forall i, length (f i) = w) ->
  forall d s i o, i < d -> o < w ->
  nth_error (flat_map f (seq s d)) (i * w + o) = nth_error (f (s + i)) o.
Proof.
  intros Hw. induction d as [|d IH]; intros s i o Hi Ho; [lia|].
  simpl. destruct i as [|i].
  - simpl. rewrite nth_error_app1 by (rewrite Hw; exact Ho).
    rewrite Nat.add_0_r; reflexivity.
  - rewrite nth_error_app2 by (rewrite Hw; simpl; lia).
    rewrite Hw.
    replace (S i * w + o - w) with (i * w + o) by (simpl; lia).
    rewrite IH by lia. f_equal. f_equal. lia.
Qed.

Lemma ravel_lt (sh I : list nat) (o : nat) :
  ravel sh I = Some o -> o < numel sh.
Proof.
  revert I o. induction sh as [|d sh IH]; intros [|i I] o H; simpl in H;
    try discriminate.
  - injection H as <-. simpl. lia.
  - destruct (i <? d) eqn:Hi; [|discriminate].
    apply Nat.ltb_lt in Hi.
    destruct (ravel sh I) as [o'|] eqn:Ho; [|discriminate].
    injection H as <-. apply IH in Ho. simpl. nia.
Qed.

Lemma nth_error_indices (sh I : list nat) (o : nat) :
  ravel sh I = Some o -> nth_error (indices sh) o = Some I.
Proof.
  revert I o. induction sh as [|d sh IH]; intros [|i I] o H; simpl in H;
    try discriminate.
  - injection H as <-. reflexivity.
  - destruct (i <? d) eqn:Hi; [|discriminate].
    apply Nat.ltb_lt in Hi.
    destruct (ravel sh I) as [o'|] eqn:Ho; [|discriminate].
    injection H as <-. simpl.
    rewrite nth_error_flat_map_const with (w := numel sh).
    + simpl. rewrite nth_error_map, (IH _ _ Ho). reflexivity.
    + intros k. rewrite length_map. apply length_indices.
    + exact Hi.
    + eapply ravel_lt; exact Ho.
Qed.

Lemma in_indices (sh I : list nat) :
  In I (indices sh) <-> Forall2 lt I sh.
Proof.
  revert I. induction sh as [|d sh IH]; intros I; simpl.
  - split.
    + intros [<-|[]]. constructor.
    + intros H. inversion H. left; reflexivity.
  - rewrite in_flat_map. split.
    + intros [i [Hi HI]]. apply in_seq in Hi. apply in_map_iff in HI.
      destruct HI as [J [<- HJ]]. constructor; [lia|]. apply IH; exact HJ.
    + intros H. inversion H as [|i d' J sh' Hid HJ]; subst.
      exists i. split; [apply in_seq; lia|].
      apply in_map. apply IH; exact HJ.
Qed.

Lemma ravel_some (sh I : list nat) :
  Forall2 lt I sh -> exists o, ravel sh I = Some o.
Proof.
  intros H. induction H as [|i d I sh Hid _ [o Ho]]; simpl.
  - exists 0; reflexivity.
  - apply Nat.ltb_lt in Hid. rewrite Hid, Ho. simpl. eexists; reflexivity.
Qed.

Lemma ravel_in (sh I : list nat) (o : nat) :
  ravel sh I = Some o -> In I (indices sh).
Proof.
  intros H. eapply nth_error_In. apply nth_error_indices. exact H.
Qed.

(** A tensor built cell by cell holds, at every index of its shape, the cell
    computed for it. *)
Lemma tbuild_ok {A : Type} (sh : list nat) (f : list nat -> result A)
  (g : list nat -> A) :
  (forall I, In I (indices sh) -> f I = Ok (g I)) ->
  tbuild sh f = Ok (mkT sh (map g (indices sh))).
Proof.
  intros Hf. unfold tbuild. rewrite (mapM_ok f g _ Hf). reflexivity.
Qed.

Lemma tget_build {A : Type} (sh : list nat) (g : list nat -> A) (I : list nat) :
  In I (indices sh) -> tget (mkT sh (map g (indices sh))) I = Some (g I).
Proof.
  intros HI. apply in_indices, ravel_some in HI. destruct HI as [o Ho].
  unfold tget; simpl. rewrite Ho, nth_error_map, (nth_error_indices _ _ _ Ho).
  reflexivity.
Qed.

Lemma wf_build {A : Type} (sh : list nat) (g : list nat -> A) :
  wf (mkT sh (map g (indices sh))).
Proof. unfold wf; simpl. rewrite length_map. apply length_indices. Qed.

Lemma mapM_reads {A B : Type} (f : A -> result B) (l : list A) :
  (forall x, In x l -> exists v, f x = Ok v) ->
  exists ys, mapM f l = Ok ys /\ length ys = length l /\
    forall k x, nth_error l k = Some x ->
      of_option (nth_error ys k) InvalidArgument = f x.
Proof.
  induction l as [|x r IH]; intros Hf; simpl.
  - exists []. repeat split. intros [|k] y; discriminate.
  - destruct (Hf x (or_introl eq_refl)) as [v Hv].
    destruct IH as [ys [Hys [Hlen Hnth]]].
    { intros y Hy; apply Hf; right; exact Hy. }
    exists (v :: ys). rewrite Hv, Hys; simpl. repeat split.
    + rewrite Hlen; reflexivity.
    + intros [|k] y Hk; simpl in *.
      * injection Hk as <-. symmetry; exact Hv.
      * apply Hnth; exact Hk.
Qed.

Lemma tbuild_reads {A : Type} (sh : list nat) (f : list nat -> result A) :
  (forall I, In I (indices sh) -> exists v, f I = Ok v) ->
  exists t, tbuild sh f = Ok t /\ shape t = sh /\ wf t /\
    forall I, In I (indices sh) -> tread t I = f I.
Proof.
  intros Hf. destruct (mapM_reads f (indices sh) Hf) as [ys [Hys [Hlen Hnth]]].
  exists (mkT sh ys). unfold tbuild. rewrite Hys. repeat split.
  - unfold wf; simpl. rewrite Hlen. apply length_indices.
  - intros I HI. apply in_indices, ravel_some in HI. destruct HI as [o Ho].
    unfold tread, tget; simpl. rewrite Ho.
    apply Hnth. apply nth_error_indices; exact Ho.
Qed.

Lemma wf_tget {A : Type} (t : Tensor A) (I : list nat) :
  wf t -> In I (indices (shape t)) -> exists v, tget t I = Some v.
Proof.
  intros Hwf HI. apply in_indices, ravel_some in HI. destruct HI as [o Ho].
  unfold tget. rewrite Ho.
  destruct (nth_error (data t) o) as [v|] eqn:Hn; [exists v; reflexivity|].
  apply nth_error_None in Hn. apply ravel_lt in Ho. unfold wf in Hwf. lia.
Qed.

Lemma wf_tread {A : Type} (t : Tensor A) (I : list nat) :
  wf t -> In I (indices (shape t)) -> exists v, tread t I = Ok v.
Proof.
  intros Hwf HI. destruct (wf_tget t I Hwf HI) as [v Hv].
  exists v. unfold tread. rewrite Hv. reflexivity.
Qed.

Lemma tread_Ok {A : Type} (t : Tensor A) (I : list nat) (v : A) :
  tread t I = Ok v <-> tget t I = Some v.
Proof.
  unfold tread. destruct (tget t I); simpl; split; intros H;
    try discriminate; injection H as <-; reflexivity.
Qed.

Lemma tread_inj {A : Type} (t u : Tensor A) (I J : list nat) :
  tread t I = tread u J -> tget t I = tget u J.
Proof.
  unfold tread. destruct (tget t I), (tget u J); simpl; intros H;
    try discriminate; [injection H as <-|]; reflexivity.
Qed.

(** Offsets and index sets at the ranks the helpers work at. *)
Lemma ravel1 (n i : nat) : i < n -> ravel [n] [i] = Some i.
Proof.
  intros Hi. simpl. apply Nat.ltb_lt in Hi. rewrite Hi. simpl. f_equal. lia.
Qed.

Lemma ravel2 (n m i j : nat) :
  i < n -> j < m -> ravel [n; m] [i; j] = Some (i * m + j).
Proof.
  intros Hi Hj. simpl. apply Nat.ltb_lt in Hi, Hj. rewrite Hi, Hj. simpl.
  f_equal. lia.
Qed.

Lemma ravel3 (a b c i j k : nat) :
  i < a -> j < b -> k < c ->
  ravel [a; b; c] [i; j; k] = Some (i * (b * c) + j * c + k).
Proof.
  intros Hi Hj Hk. simpl. apply Nat.ltb_lt in Hi, Hj, Hk. rewrite Hi, Hj, Hk.
  simpl. f_equal. lia.
Qed.

Lemma in_indices0 (I : list nat) : In I (indices []) <-> I = [].
Proof.
  rewrite in_indices. split; intros H; [inversion H|subst; constructor];
    reflexivity.
Qed.

Lemma in_indices1 (n : nat) (I : list nat) :
  In I (indices [n]) <-> exists i, I = [i] /\ i < n.
Proof.
  rewrite in_indices. split.
  - intros H. inversion H as [|i d J sh Hi HJ]; subst. inversion HJ; subst.
    exists i; split; [reflexivity|exact Hi].
  - intros [i [-> Hi]]. repeat constructor; exact Hi.
Qed.

Lemma in_indices2 (n m : nat) (I : list nat) :
  In I (indices [n; m]) <-> exists i j, I = [i; j] /\ i < n /\ j < m.
Proof.
  rewrite in_indices. split.
  - intros H. inversion H as [|i d J sh Hi HJ]; subst.
    inversion HJ as [|j d' K sh' Hj HK]; subst. inversion HK; subst.
    exists i, j; repeat split; assumption.
  - intros [i [j [-> [Hi Hj]]]]. repeat constructor; assumption.
Qed.

Lemma in_indices3 (a b c : nat) (I : list nat) :
  In I (indices [a; b; c]) <->
  exists i j k, I = [i; j; k] /\ i < a /\ j < b /\ k < c.
Proof.
  rewrite in_indices. split.
  - intros H. inversion H as [|i d J sh Hi HJ]; subst.
    inversion HJ as [|j d' K sh' Hj HK]; subst.
    inversion HK as [|k d'' L sh'' Hk HL]; subst. inversion HL; subst.
    exists i, j, k; repeat split; assumption.
  - intros [i [j [k [-> [Hi [Hj Hk]]]]]]. repeat constructor; assumption.
Qed.

(** ** Fixed-width arithmetic in range *)

Lemma wrap32_id (z : Z) : in_int32 z -> wrap32 z = z.
Proof.
  unfold in_int32, int32_min, int32_max, wrap32, wrap. intros H.
  rewrite Z.mod_small; lia.
Qed.

Lemma wrap64_id (z : Z) : in_int64 z -> wrap64 z = z.
Proof.
  unfold in_int64, int64_min, int64_max, wrap64, wrap. intros H.
  rewrite Z.mod_small; lia.
Qed.

Lemma shape32_guard {A : Type} (t : Tensor A) :
  shape32 t ->
  forallb (fun d => (Z.of_nat d <=? int32_max)%Z) (shape t) = true.
Proof.
  unfold shape32. intros H. apply forallb_forall. intros d Hd.
  rewrite Forall_forall in H. apply Z.leb_le. apply H; exact Hd.
Qed.

Lemma shape_ok {A : Type} (t : Tensor A) :
  shape32 t -> TF.shape_ t = Ok (vector (map Z.of_nat (shape t))).
Proof.
  intros H. unfold TF.shape_. rewrite (shape32_guard t H). reflexivity.
Qed.

Lemma shape32_3 {A} (t : Tensor A) d1 d2 d3 : shape t = [d1;d2;d3] -> shape32 t ->
  (Z.of_nat d1 <= int32_max /\ Z.of_nat d2 <= int32_max /\ Z.of_nat d3 <= int32_max)%Z.
Proof.
  unfold shape32. intros -> H. inversion H as [|? ? H1 H']; subst.
  inversion H' as [|? ? H2 H'']; subst. inversion H'' as [|? ? H3 _]; subst. auto.
Qed.

Lemma wrap32_nat (d : nat) : (Z.of_nat d <= int32_max)%Z -> wrap32 (Z.of_nat d) = Z.of_nat d.
Proof. intros Hd. apply wrap32_id. unfold in_int32, int32_min, int32_max in *. lia. Qed.

Lemma wrap32_0 : wrap32 0 = 0%Z.
Proof. reflexivity. Qed.

Lemma wrap32_1 : wrap32 1 = 1%Z.
Proof. reflexivity. Qed.

Lemma slice_dim_ok (d : nat) (b s : Z) :
  (0 <= b)%Z -> (0 <= s)%Z -> (b + s <= Z.of_nat d)%Z ->
  TF.slice_dim d b s = Ok (Z.to_nat s).
Proof.
  intros Hb Hs Hbs. unfold TF.slice_dim.
  apply Z.leb_le in Hb as Hb'. rewrite Hb'. cbn [guard bind].
  destruct (s =? -1)%Z eqn:E; [apply Z.eqb_eq in E; lia|].
  apply Z.leb_le in Hs, Hbs. rewrite Hs, Hbs. reflexivity.
Qed.

Lemma tget_at {A} (t : Tensor A) I o :
  ravel (shape t) I = Some o -> tget t I = nth_error (data t) o.
Proof. intros H. unfold tget. rewrite H. reflexivity. Qed.

(** ** Cell-wise operations *)

Lemma binop_reads {A B C : Type} (f : A -> B -> C) (a : Tensor A) (b : Tensor B)
  (sh : list nat) :
  TF.broadcast_shape (shape a) (shape b) = Some sh ->
  (forall I, In I (indices sh) ->
     exists x y, tread a (TF.bindex (shape a) I) = Ok x
              /\ tread b (TF.bindex (shape b) I) = Ok y) ->
  exists r, TF.binop f a b = Ok r /\ shape r = sh /\ wf r /\
    forall I, In I (indices sh) ->
      tread r I = (x <- tread a (TF.bindex (shape a) I) ;;
                   y <- tread b (TF.bindex (shape b) I) ;; Ok (f x y)).
Proof.
  intros Hsh Hrd. unfold TF.binop. rewrite Hsh.
  apply tbuild_reads. intros I HI.
  destruct (Hrd I HI) as [x [y [Hx Hy]]]. rewrite Hx, Hy. cbn.
  eexists; reflexivity.
Qed.

Lemma bindex_same (sh I : list nat) : Forall2 lt I sh -> TF.bindex sh I = I.
Proof.
  intros H. unfold TF.bindex.
  rewrite (Forall2_length H), Nat.sub_diag. cbn [skipn].
  induction H as [|i d I sh Hid _ IH]; cbn; [reflexivity|].
  rewrite IH. destruct (d =? 1) eqn:E; [|reflexivity].
  apply Nat.eqb_eq in E. f_equal. lia.
Qed.

Lemma bshape_rev_same (sh : list nat) : TF.bshape_rev sh sh = Some sh.
Proof.
  induction sh as [|d sh IH]; cbn; [reflexivity|].
  rewrite IH, Nat.eqb_refl. reflexivity.
Qed.

Lemma broadcast_shape_same (sh : list nat) : TF.broadcast_shape sh sh = Some sh.
Proof.
  unfold TF.broadcast_shape. rewrite bshape_rev_same. cbn.
  rewrite rev_involutive. reflexivity.
Qed.

Lemma broadcast_shape_scalar (sh : list nat) : TF.broadcast_shape sh [] = Some sh.
Proof.
  unfold TF.broadcast_shape. change (rev []) with (@nil nat).
  assert (H : forall a, TF.bshape_rev a [] = Some a) by (intros [|x a]; reflexivity).
  rewrite H. cbn [option_map]. rewrite rev_involutive. reflexivity.
Qed.

Lemma broadcast_shape_col (n m : nat) :
  TF.broadcast_shape [n; m] [n; 1] = Some [n; m].
Proof.
  unfold TF.broadcast_shape. cbn. rewrite Nat.eqb_refl.
  destruct (m =? 1) eqn:E; [|reflexivity].
  apply Nat.eqb_eq in E. subst. reflexivity.
Qed.

Lemma bindex_scalar (I : list nat) : TF.bindex [] I = [].
Proof. reflexivity. Qed.

Lemma bindex_col (n i j : nat) : i < n -> TF.bindex [n; 1] [i; j] = [i; 0].
Proof.
  intros Hi. cbn. destruct (n =? 1) eqn:E; [|reflexivity].
  apply Nat.eqb_eq in E. f_equal. lia.
Qed.

(** Same shape. *)
Lemma binop_same {A B C : Type} (f : A -> B -> C) (a : Tensor A) (b : Tensor B) :
  wf a -> wf b -> shape b = shape a ->
  exists r, TF.binop f a b = Ok r /\ shape r = shape a /\ wf r /\
    forall I, In I (indices (shape a)) ->
      tread r I = (x <- tread a I ;; y <- tread b I ;; Ok (f x y)).
Proof.
  intros Ha Hb Hs.
  destruct (binop_reads f a b (shape a)) as [r [Hr [Hsh [Hwf Hrd]]]].
  - rewrite Hs. apply broadcast_shape_same.
  - intros I HI. rewrite Hs, bindex_same by (apply in_indices; exact HI).
    destruct (wf_tread a I Ha HI) as [x Hx].
    destruct (wf_tread b I Hb) as [y Hy]; [rewrite Hs; exact HI|].
    exists x, y; split; assumption.
  - exists r. repeat split; try assumption.
    intros I HI. rewrite (Hrd I HI), Hs, bindex_same by (apply in_indices; exact HI).
    reflexivity.
Qed.

(** A tensor and a scalar. *)
Lemma binop_scalar {A B C : Type} (f : A -> B -> C) (a : Tensor A) (c : B) :
  wf a ->
  exists r, TF.binop f a (scalar c) = Ok r /\ shape r = shape a /\ wf r /\
    forall I, In I (indices (shape a)) ->
      tread r I = (x <- tread a I ;; Ok (f x c)).
Proof.
  intros Ha.
  destruct (binop_reads f a (scalar c) (shape a)) as [r [Hr [Hsh [Hwf Hrd]]]].
  - apply broadcast_shape_scalar.
  - intros I HI. rewrite bindex_same by (apply in_indices; exact HI).
    destruct (wf_tread a I Ha HI) as [x Hx].
    exists x, c; split; [assumption|reflexivity].
  - exists r. repeat split; try assumption.
    intros I HI. rewrite (Hrd I HI), bindex_same by (apply in_indices; exact HI).
    destruct (tread a I); reflexivity.
Qed.

(** A matrix and a column. *)
Lemma binop_col {A B C : Type} (f : A -> B -> C) (a : Tensor A) (b : Tensor B)
  (n m : nat) :
  wf a -> wf b -> shape a = [n; m] -> shape b = [n; 1] ->
  exists r, TF.binop f a b = Ok r /\ shape r = [n; m] /\ wf r /\
    forall i j, i < n -> j < m ->
      tread r [i; j] = (x <- tread a [i; j] ;; y <- tread b [i; 0] ;; Ok (f x y)).
Proof.
  intros Ha Hb Hsa Hsb.
  destruct (binop_reads f a b [n; m]) as [r [Hr [Hsh [Hwf Hrd]]]].
  - rewrite Hsa, Hsb. apply broadcast_shape_col.
  - intros I HI. pose proof HI as HI'. apply in_indices2 in HI'.
    destruct HI' as [i [j [-> [Hi Hj]]]].
    rewrite Hsa, Hsb, bindex_same, bindex_col
      by (try exact Hi; apply in_indices; exact HI).
    destruct (wf_tread a [i; j] Ha) as [x Hx]; [rewrite Hsa; exact HI|].
    destruct (wf_tread b [i; 0] Hb) as [y Hy].
    { rewrite Hsb. apply in_indices2. exists i, 0. split; [reflexivity|lia]. }
    exists x, y; split; assumption.
  - exists r. repeat split; try assumption.
    intros i j Hi Hj.
    assert (HI : In [i; j] (indices [n; m])).
    { apply in_indices2. exists i, j. split; [reflexivity|lia]. }
    rewrite (Hrd _ HI), Hsa, Hsb, bindex_same, bindex_col
      by (try exact Hi; apply in_indices; exact HI).
    reflexivity.
Qed.

(** ** [tf.reshape] with one inferred dimension *)

Lemma filter_all {X : Type} (h : X -> bool) (l : list X) :
  (forall x, In x l -> h x = true) -> filter h l = l.
Proof.
  induction l as [|x l IH]; intros Hh; cbn [filter]; [reflexivity|].
  rewrite (Hh x (or_introl eq_refl)). f_equal. apply IH.
  intros y Hy. apply Hh. right; exact Hy.
Qed.

Lemma existsb_none {X : Type} (h : X -> bool) (l : list X) :
  (forall x, In x l -> h x = false) -> existsb h l = false.
Proof.
  induction l as [|x l IH]; intros Hh; cbn [existsb]; [reflexivity|].
  rewrite (Hh x (or_introl eq_refl)). cbn [orb]. apply IH.
  intros y Hy. apply Hh. right; exact Hy.
Qed.

Lemma reshape_rows {A : Type} (t : Tensor A) (r c : nat) :
  1 <= c -> numel (shape t) = r * c -> length (data t) = r * c ->
  TF.reshape t [(-1)%Z; Z.of_nat c] = Ok (mkT [r; c] (data t)).
Proof.
  intros Hc Hnum Hlen. unfold TF.reshape. cbn [forallb count_occ filter existsb map].
  destruct (Z.eq_dec (-1) (-1)) as [_|N]; [|contradiction].
  destruct (Z.eq_dec (Z.of_nat c) (-1)) as [E|_]; [lia|].
  change (-1 <=? -1)%Z with true. change (-1 =? -1)%Z with true.
  change (0 <? -1)%Z with false. change (0 =? -1)%Z with false.
  replace (-1 <=? Z.of_nat c)%Z with true by (symmetry; apply Z.leb_le; lia).
  replace (0 <? Z.of_nat c)%Z with true by (symmetry; apply Z.ltb_lt; lia).
  replace (0 =? Z.of_nat c)%Z with false by (symmetry; apply Z.eqb_neq; lia).
  replace (Z.of_nat c =? -1)%Z with false by (symmetry; apply Z.eqb_neq; lia).
  cbn [andb orb negb guard bind map numel fold_right]. rewrite Nat2Z.id, Nat.mul_1_r.
  rewrite filter_all by (intros x _; apply orb_true_r).
  rewrite existsb_none by (intros x _; apply andb_false_r).
  fold (numel (shape t)). rewrite Hnum, Nat.div_mul by lia.
  replace (c * r =? r * c) with true by (symmetry; apply Nat.eqb_eq; lia).
  cbn [orb guard bind]. rewrite Hlen, Nat.eqb_refl. reflexivity.
Qed.

Lemma reshape_cols {A : Type} (t : Tensor A) (r c : nat) :
  1 <= r -> numel (shape t) = r * c -> length (data t) = r * c ->
  TF.reshape t [Z.of_nat r; (-1)%Z] = Ok (mkT [r; c] (data t)).
Proof.
  intros Hr Hnum Hlen. unfold TF.reshape. cbn [forallb count_occ filter existsb map].
  destruct (Z.eq_dec (-1) (-1)) as [_|N]; [|contradiction].
  destruct (Z.eq_dec (Z.of_nat r) (-1)) as [E|_]; [lia|].
  change (-1 <=? -1)%Z with true. change (-1 =? -1)%Z with true.
  change (0 <? -1)%Z with false. change (0 =? -1)%Z with false.
  replace (-1 <=? Z.of_nat r)%Z with true by (symmetry; apply Z.leb_le; lia).
  replace (0 <? Z.of_nat r)%Z with true by (symmetry; apply Z.ltb_lt; lia).
  replace (0 =? Z.of_nat r)%Z with false by (symmetry; apply Z.eqb_neq; lia).
  replace (Z.of_nat r =? -1)%Z with false by (symmetry; apply Z.eqb_neq; lia).
  cbn [andb orb negb guard bind map numel fold_right]. rewrite Nat2Z.id, Nat.mul_1_r.
  rewrite filter_all by (intros x _; apply orb_true_r).
  rewrite existsb_none by (intros x _; apply andb_false_r).
  fold (numel (shape t)). rewrite Hnum, (Nat.mul_comm r c), Nat.div_mul by lia.
  replace (r * c =? c * r) with true by (symmetry; apply Nat.eqb_eq; lia).
  cbn [orb guard bind]. rewrite Hlen.
  replace (r * (c * 1) =? r * c) with true by (symmetry; apply Nat.eqb_eq; lia).
  reflexivity.
Qed.

(** Flattening a tensor whose last dimension is empty. *)
Lemma reshape_rows_empty {A : Type} (t : Tensor A) :
  length (data t) = 0 ->
  exists P, TF.reshape t [(-1)%Z; 0%Z] = Ok (mkT [P; 0] (data t)).
Proof.
  intros Hlen. unfold TF.reshape. cbn [forallb count_occ filter existsb map].
  destruct (Z.eq_dec (-1) (-1)) as [_|N]; [|contradiction].
  destruct (Z.eq_dec 0 (-1)) as [E|_]; [discriminate|].
  change (-1 <=? -1)%Z with true. change (-1 =? -1)%Z with true.
  change (-1 <=? 0)%Z with true. change (0 =? -1)%Z with false.
  change (0 <? -1)%Z with false. change (0 <? 0)%Z with false.
  change (0 =? 0)%Z with true. change (Z.to_nat 0) with 0.
  cbn [andb orb negb guard bind map numel fold_right].
  rewrite Nat.div_1_r, Nat.mul_1_l, Nat.eqb_refl, orb_true_r.
  cbn [guard bind]. rewrite Nat.mul_0_l, Nat.mul_0_r, Hlen. cbn [Nat.eqb guard bind].
  eexists. reflexivity.
Qed.

(** ** [tf.gather] *)

Lemma gather_reads {A : Type} (params : Tensor A) (idx : Tensor Z)
  (d : nat) (rest : list nat) :
  shape params = d :: rest ->
  (forall I, In I (indices (shape idx ++ rest)) ->
     exists i v, tread idx (firstn (length (shape idx)) I) = Ok i /\ (0 <= i)%Z
       /\ tread params (Z.to_nat i :: skipn (length (shape idx)) I) = Ok v) ->
  exists r, TF.gather params idx = Ok r /\ shape r = shape idx ++ rest /\ wf r /\
    forall I, In I (indices (shape idx ++ rest)) ->
      exists i, tread idx (firstn (length (shape idx)) I) = Ok i /\
        tread r I = tread params (Z.to_nat i :: skipn (length (shape idx)) I).
Proof.
  intros Hsh Hrd. unfold TF.gather. rewrite Hsh.
  match goal with |- context [tbuild ?sh ?f] =>
    destruct (tbuild_reads sh f) as [r [Hr [Hs [Hwf Hread]]]] end.
  - intros I HI. destruct (Hrd I HI) as [i [v [Hi [Hpos Hv]]]].
    rewrite Hi. cbn [bind]. apply Z.leb_le in Hpos. rewrite Hpos. cbn.
    exists v; exact Hv.
  - exists r. repeat split; try assumption.
    intros I HI. destruct (Hrd I HI) as [i [v [Hi [Hpos Hv]]]].
    exists i. split; [exact Hi|].
    rewrite (Hread I HI), Hi. cbn [bind]. apply Z.leb_le in Hpos. rewrite Hpos.
    reflexivity.
Qed.

Lemma tget_vector {A : Type} (l : list A) (i : nat) :
  tget (vector l) [i] = nth_error l i.
Proof.
  unfold tget, vector. cbn [shape data].
  destruct (Nat.lt_ge_cases i (length l)) as [Hi|Hi].
  - rewrite ravel1 by exact Hi. reflexivity.
  - change (ravel [length l] [i])
      with (if i <? length l
            then option_map (fun o => i * numel [] + o) (ravel [] []) else None).
    apply Nat.ltb_ge in Hi as Hi'. rewrite Hi'.
    symmetry. apply nth_error_None. exact Hi.
Qed.

Lemma wf_vector {A : Type} (l : list A) : wf (vector l).
Proof. unfold wf, vector. cbn. lia. Qed.

Lemma range_ok (n : nat) :
  (Z.of_nat n <= int32_max)%Z ->
  TF.range 0 (Z.of_nat n) = Ok (vector (map Z.of_nat (seq 0 n))).
Proof.
  intros Hn. unfold TF.range.
  replace ((int32_min <=? 0)%Z && (0 <=? Z.of_nat n)%Z && (Z.of_nat n <=? int32_max)%Z)
    with true.
  - cbn [guard bind]. rewrite Z.sub_0_r, Nat2Z.id. reflexivity.
  - symmetry. rewrite !andb_true_iff. repeat split; apply Z.leb_le;
      unfold int32_min, int32_max in *; lia.
Qed.

Lemma tread_range (n i : nat) :
  i < n -> tread (vector (map Z.of_nat (seq 0 n))) [i] = Ok (Z.of_nat i).
Proof.
  intros Hi. unfold tread. rewrite tget_vector, nth_error_map, nth_error_seq.
  apply Nat.ltb_lt in Hi. rewrite Hi. reflexivity.
Qed.

(** ** [get_by_index] *)

(** C6, as amended: on a tensor of shape [d1, d2, d3] with int32 dimensions
    and [d1 * d2 <= 2^31], and an index vector of length [d1] with entries in
    [1, d2], [get_by_index] returns a [d1 x d3] tensor whose row [i] is
    [tensor[i, index[i] - 1]]. *)
Theorem get_by_index_spec {A : Type} (tensor : Tensor A) (index : Tensor Z)
  (d1 d2 d3 : nat) :
  wf tensor -> shape32 tensor -> shape tensor = [d1; d2; d3] ->
  wf index -> shape index = [d1] ->
  (forall i, i < d1 ->
     exists v, tget index [i] = Some v /\ (1 <= v <= Z.of_nat d2)%Z) ->
  (Z.of_nat (d1 * d2) <= int32_max + 1)%Z ->
  get_by_index_post tensor index d1 d3.
Proof.
  intros Hwf H32 Hsh Hwfi Hshi Hidx Hflat. unfold get_by_index_post.
  destruct (shape32_3 _ _ _ _ Hsh H32) as [B1 [B2 B3]].
  unfold get_by_index. rewrite (shape_ok _ H32), Hsh.
  cbn [map vector TF.unpack shape data bind length].
  rewrite (range_ok d1 B1). cbn [bind].
  set (rng := vector (map Z.of_nat (seq 0 d1))).
  assert (Hrs : shape rng = [d1]).
  { unfold rng, vector. cbn. rewrite length_map, length_seq. reflexivity. }
  destruct (binop_scalar mul32 rng (Z.of_nat d2) (wf_vector _))
    as [scaled [-> [Hss [Hws Hrs']]]].
  destruct (binop_scalar sub32 index 1%Z Hwfi) as [index0 [-> [Hs0 [Hw0 Hr0]]]].
  cbn [bind].
  destruct (binop_same add32 scaled index0 Hws Hw0) as [fl [-> [Hsf [Hwff Hrf]]]].
  { congruence. }
  cbn [bind].
  (* the tensor as rows of [d3] cells; with [d3 = 0] every row is empty *)
  assert (Hflatten : exists P,
            TF.reshape tensor [(-1)%Z; Z.of_nat d3] = Ok (mkT [P; d3] (data tensor))
            /\ (1 <= d3 -> P = d1 * d2)).
  { destruct d3 as [|d3'].
    - destruct (reshape_rows_empty tensor) as [P HP].
      { unfold wf in Hwf. rewrite Hwf, Hsh. cbn. lia. }
      exists P. split; [exact HP|lia].
    - exists (d1 * d2). split; [|reflexivity].
      apply reshape_rows; [lia|rewrite Hsh; cbn; lia|].
      unfold wf in Hwf. rewrite Hwf, Hsh. cbn. lia. }
  destruct Hflatten as [P [-> HP]]. cbn [bind].
  assert (Hfl : forall i, i < d1 -> exists v, tget index [i] = Some v
            /\ (1 <= v <= Z.of_nat d2)%Z
            /\ tread fl [i] = Ok (Z.of_nat (i * d2) + (v - 1))%Z).
  { intros i Hi. destruct (Hidx i Hi) as [v [Hv Hrange]].
    exists v. split; [exact Hv|]. split; [exact Hrange|].
    assert (HI : In [i] (indices [d1])) by (apply in_indices1; exists i; auto).
    rewrite Hrf by (rewrite Hss, Hrs; exact HI).
    rewrite Hrs' by (rewrite Hrs; exact HI).
    rewrite Hr0 by (rewrite Hshi; exact HI).
    unfold rng. rewrite tread_range by exact Hi.
    apply tread_Ok in Hv. rewrite Hv. cbn [bind].
    unfold add32, mul32, sub32. f_equal.
    assert (Z.of_nat i * Z.of_nat d2 + Z.of_nat d2 <= Z.of_nat (d1 * d2))%Z by nia.
    rewrite (wrap32_id (Z.of_nat i * Z.of_nat d2))
      by (unfold in_int32, int32_min, int32_max in *; nia).
    rewrite (wrap32_id (v - 1)) by (unfold in_int32, int32_min, int32_max in *; nia).
    rewrite wrap32_id by (unfold in_int32, int32_min, int32_max in *; nia).
    nia. }
  destruct (gather_reads (mkT [P; d3] (data tensor)) fl P [d3] eq_refl)
    as [r [Hr [Hsr [Hwr Hrr]]]].
  { intros I HI. rewrite Hsf, Hss, Hrs in HI |- *. cbn in HI.
    apply in_indices2 in HI. destruct HI as [i [k [-> [Hi Hk]]]].
    rewrite (HP ltac:(lia)).
    destruct (Hfl i Hi) as [v [Hv [Hrange Hread]]].
    cbn [length firstn skipn]. exists (Z.of_nat (i * d2) + (v - 1))%Z.
    destruct (wf_tread (mkT [d1 * d2; d3] (data tensor))
                [Z.to_nat (Z.of_nat (i * d2) + (v - 1)); k]) as [x Hx].
    { unfold wf in *. cbn. rewrite Hwf, Hsh. cbn. lia. }
    { cbn [shape]. apply in_indices2. eexists _, _. split; [reflexivity|]. nia. }
    exists x. repeat split; [exact Hread|lia|exact Hx]. }
  exists r. split; [exact Hr|]. rewrite Hsf, Hss, Hrs in Hsr, Hrr. cbn in Hsr.
  split; [exact Hsr|]. split; [exact Hwr|].
  intros i k Hi Hk. rewrite (HP ltac:(lia)) in Hrr.
  destruct (Hfl i Hi) as [v [Hv [Hrange Hread]]].
  destruct (wf_tget tensor [i; Z.to_nat (v - 1); k] Hwf) as [x Hx].
  { rewrite Hsh. apply in_indices3. eexists _, _, _. split; [reflexivity|]. lia. }
  exists v, x. split; [exact Hv|]. split; [exact Hx|].
  destruct (Hrr [i; k]) as [fi [Hfi Hrd]].
  { cbn. apply in_indices2. exists i, k. auto. }
  cbn [length firstn skipn] in Hfi, Hrd. rewrite Hread in Hfi. injection Hfi as <-.
  apply tread_Ok. rewrite Hrd. apply tread_Ok.
  rewrite (tget_at _ _ ((i * d2 + Z.to_nat (v - 1)) * d3 + k)).
  - cbn [data]. rewrite <- Hx.
    rewrite (tget_at tensor _ (i * (d2 * d3) + Z.to_nat (v - 1) * d3 + k))
      by (rewrite Hsh; apply ravel3; lia).
    f_equal. lia.
  - cbn [shape].
    replace (Z.to_nat (Z.of_nat (i * d2) + (v - 1)))
      with (i * d2 + Z.to_nat (v - 1)) by lia.
    apply ravel2; nia.
Qed.

Lemma get_by_index_spec_witness :
  get_by_index_post (mkT [2; 2; 3] [1; 2; 3; 4; 5; 6; 7; 8; 9; 10; 11; 12]%Z)
                    (vector [1; 2]%Z) 2 3.
Proof.
  apply (get_by_index_spec _ _ 2 2 3).
  - reflexivity.
  - repeat constructor; vm_compute; discriminate.
  - reflexivity.
  - reflexivity.
  - reflexivity.
  - intros [|[|i]] Hi; [exists 1%Z|exists 2%Z|lia]; (split; [reflexivity|lia]).
  - vm_compute; discriminate.
Defined.

(** On a tensor whose third dimension is empty the result is the empty
    [d1 x 0] tensor. *)
Example get_by_index_no_cells :
  get_by_index (mkT [1; 1; 0] (@nil Z)) (vector [1%Z]) = Ok (mkT [1; 0] []).
Proof. reflexivity. Qed.

(** ** [get_last] *)



Lemma tget_tmap {A B : Type} (f : A -> B) (t : Tensor A) (I : list nat) :
  tget (tmap f t) I = option_map f (tget t I).
Proof.
  unfold tget, tmap. cbn [shape data].
  destruct (ravel (shape t) I); [apply nth_error_map|reflexivity].
Qed.

Lemma tread_tmap {A B : Type} (f : A -> B) (t : Tensor A) (I : list nat) :
  tread (tmap f t) I = (x <- tread t I ;; Ok (f x)).
Proof.
  unfold tread. rewrite tget_tmap. destruct (tget t I); reflexivity.
Qed.

Lemma wf_tmap {A B : Type} (f : A -> B) (t : Tensor A) : wf t -> wf (tmap f t).
Proof. unfold wf, tmap. cbn. rewrite length_map. auto. Qed.

Lemma shape32_1 {A} (t : Tensor A) n : shape t = [n] -> shape32 t ->
  (Z.of_nat n <= int32_max)%Z.
Proof. unfold shape32. intros -> H. inversion H; subst. assumption. Qed.

Lemma shape32_2 {A} (t : Tensor A) n m : shape t = [n; m] -> shape32 t ->
  (Z.of_nat n <= int32_max /\ Z.of_nat m <= int32_max)%Z.
Proof.
  unfold shape32. intros -> H. inversion H as [|? ? H1 H']; subst.
  inversion H'; subst. auto.
Qed.

(** ** [gather_rowwise_1d] *)

(** The coordinates built for row [i] are [(i, indices[i])]. *)
Lemma gather_rowwise_indices_1d_spec (indices : Tensor Z) (n : nat) :
  wf indices -> shape32 indices -> shape indices = [n] ->
  exists c, gather_rowwise_indices_1d indices = Ok c /\ shape c = [n; 2] /\ wf c /\
    forall i, i < n ->
      tread c [i; 0] = Ok (wrap64 (Z.of_nat i)) /\
      tread c [i; 1] = tread indices [i].
Proof.
  intros Hwf H32 Hsh. pose proof (shape32_1 _ _ Hsh H32) as Bn.
  unfold gather_rowwise_indices_1d.
  rewrite (shape_ok _ H32), Hsh. cbn [map vector data nth_error of_option bind].
  rewrite (range_ok n Bn). cbn [bind].
  set (rng := vector (map Z.of_nat (seq 0 n))).
  assert (Hrs : shape (tmap wrap64 rng) = [n]).
  { unfold rng, vector, tmap. cbn. rewrite length_map, length_seq. reflexivity. }
  unfold TF.pack. cbn [forallb]. rewrite Hrs, Hsh.
  destruct (list_eq_dec Nat.eq_dec [n] [n]) as [_|N]; [|contradiction].
  cbn [andb guard bind length flat_map].
  set (packed := mkT [2; n] _).
  assert (Hlen : length (data (tmap wrap64 rng)) = n).
  { unfold rng, vector, tmap. cbn. rewrite !length_map, length_seq. reflexivity. }
  assert (Hp0 : forall i, i < n -> tread packed [0; i] = Ok (wrap64 (Z.of_nat i))).
  { intros i Hi. unfold tread. rewrite (tget_at packed _ (0 * n + i)) by (apply ravel2; lia).
    unfold packed. cbn [data]. rewrite nth_error_app1 by (rewrite Hlen; cbn; lia).
    cbn [Nat.mul Nat.add]. unfold rng, tmap, vector. cbn [data].
    rewrite !nth_error_map, nth_error_seq. apply Nat.ltb_lt in Hi. rewrite Hi. reflexivity. }
  assert (Hp1 : forall i, i < n -> tread packed [1; i] = tread indices [i]).
  { intros i Hi. unfold tread. rewrite (tget_at packed _ (1 * n + i)) by (apply ravel2; lia).
    rewrite (tget_at indices _ i) by (rewrite Hsh; apply ravel1; exact Hi).
    unfold packed. cbn [data]. rewrite nth_error_app2 by (rewrite Hlen; lia).
    rewrite Hlen, app_nil_r. do 2 f_equal. lia. }
  unfold TF.transpose_default, TF.transpose. cbn.
  change (Pos.to_nat 1) with 1. cbn.
  match goal with |- context [tbuild ?sh ?f] =>
    destruct (tbuild_reads sh f) as [c [Hc [Hsc [Hwc Hrc]]]] end.
  { intros I HI. apply in_indices2 in HI. destruct HI as [i [j [-> [Hi Hj]]]].
    cbn. destruct j as [|[|j]]; [| |lia].
    - rewrite Hp0 by exact Hi. eexists; reflexivity.
    - rewrite Hp1 by exact Hi. apply wf_tread; [exact Hwf|].
      rewrite Hsh. apply in_indices1. exists i; auto. }
  exists c. split; [exact Hc|]. split; [exact Hsc|]. split; [exact Hwc|].
  intros i Hi. split.
  - rewrite Hrc by (apply in_indices2; exists i, 0; repeat split; lia).
    cbn. apply Hp0; exact Hi.
  - rewrite Hrc by (apply in_indices2; exists i, 1; repeat split; lia).
    cbn. apply Hp1; exact Hi.
Qed.




(** ** [mask_for_lengths] *)

Example mask_for_lengths_right :
  mask_for_lengths (vector [2; 4]%Z) None (Some 4%Z) true (-1000)
  = Ok (mkT [2; 4] [0; 0; -1000; -1000; 0; 0; 0; 0]%R).
Proof.
  cbv - [Rmult IZR]. repeat f_equal; lra.
Qed.

Example mask_for_lengths_left :
  mask_for_lengths (vector [2; 4]%Z) None (Some 4%Z) false (-1000)
  = Ok (mkT [2; 4] [-1000; -1000; 0; 0; -1000; -1000; -1000; -1000]%R).
Proof.
  cbv - [Rmult IZR]. repeat f_equal; lra.
Qed.

(** ** Maxima *)

Section Maxima.
Context {A : Type} `{NumLaws A}.

Lemma leb_refl (x : A) : leb x x = true.
Proof. destruct (leb_total x x); assumption. Qed.

Lemma max_of_l (x y : A) : leb x (max_of x y) = true.
Proof.
  unfold max_of. destruct (leb x y) eqn:E; [exact E|apply leb_refl].
Qed.

Lemma max_of_r (x y : A) : leb y (max_of x y) = true.
Proof.
  unfold max_of. destruct (leb x y) eqn:E; [apply leb_refl|].
  destruct (leb_total x y) as [F|F]; [congruence|exact F].
Qed.

Lemma max_of_cases (x y : A) : max_of x y = x \/ max_of x y = y.
Proof. unfold max_of. destruct (leb x y); auto. Qed.

Lemma fold_max_init (l : list A) (a : A) :
  leb a (fold_left max_of l a) = true.
Proof.
  revert a. induction l as [|x l IH]; intros a; cbn; [apply leb_refl|].
  eapply leb_trans; [apply max_of_l|apply IH].
Qed.

Lemma fold_max_ge (l : list A) (a x : A) :
  In x l -> leb x (fold_left max_of l a) = true.
Proof.
  revert a. induction l as [|y l IH]; intros a Hx;
    [destruct Hx|destruct Hx as [Hx|Hx]]; cbn.
  - subst. eapply leb_trans; [apply max_of_r|apply fold_max_init].
  - apply IH; exact Hx.
Qed.

Lemma fold_max_in (l : list A) (a : A) :
  fold_left max_of l a = a \/ In (fold_left max_of l a) l.
Proof.
  revert a. induction l as [|y l IH]; intros a; cbn; [left; reflexivity|].
  destruct (IH (max_of a y)) as [E|E].
  - rewrite E. destruct (max_of_cases a y) as [F|F]; rewrite F; auto.
  - right; right; exact E.
Qed.

Lemma max_list_ge (l : list A) (x : A) :
  In x l -> leb x (max_list l) = true.
Proof.
  destruct l as [|a l]; intros Hx; [destruct Hx|destruct Hx as [Hx|Hx]]; cbn.
  - subst. apply fold_max_init.
  - apply fold_max_ge; exact Hx.
Qed.

Lemma max_list_in (l : list A) : l <> [] -> In (max_list l) l.
Proof.
  destruct l as [|a l]; intros Hl; [contradiction|]. cbn.
  destruct (fold_max_in l a) as [E|E]; [left; symmetry; exact E|right; exact E].
Qed.

Lemma max_list_greatest (l : list A) (m : A) :
  In m l -> (forall x, In x l -> leb x m = true) -> max_list l = m.
Proof.
  intros Hm Hle. apply leb_antisym.
  - apply Hle. apply max_list_in. intros ->. contradiction.
  - apply max_list_ge; exact Hm.
Qed.
End Maxima.

#[export] Instance NumLaws_Z : NumLaws Z.
Proof.
  split; cbn.
  - intros x y. rewrite !Z.leb_le. lia.
  - intros x y z. rewrite !Z.leb_le. lia.
  - intros x y. rewrite !Z.leb_le. lia.
  - intros x y. apply Z.eqb_eq.
Qed.

#[export] Instance NumLaws_R : NumLaws R.
Proof.
  split; cbn.
  - intros x y. destruct (Rle_dec x y), (Rle_dec y x); auto. lra.
  - intros x y z. destruct (Rle_dec x y), (Rle_dec y z), (Rle_dec x z);
      auto; try discriminate. lra.
  - intros x y. destruct (Rle_dec x y), (Rle_dec y x); try discriminate.
    intros _ _. lra.
  - intros x y. destruct (Req_dec_T x y); split; auto; discriminate.
Qed.

Lemma tile_vector {A : Type} (t : Tensor A) (L : nat) (k : nat) :
  wf t -> shape t = [L] ->
  exists r, TF.tile t [Z.of_nat k] = Ok r /\ shape r = [L * k] /\ wf r /\
    forall i, i < L * k -> tread r [i] = tread t [i mod L].
Proof.
  intros Hwf Hsh. unfold TF.tile. rewrite Hsh. cbn [length Nat.eqb forallb].
  replace (0 <=? Z.of_nat k)%Z with true by (symmetry; apply Z.leb_le; lia).
  cbn [andb guard bind combine map fst snd]. rewrite Nat2Z.id.
  match goal with |- context [tbuild ?sh ?f] =>
    destruct (tbuild_reads sh f) as [r [Hr [Hsr [Hwr Hrr]]]] end.
  { intros I HI. apply in_indices1 in HI. destruct HI as [i [-> Hi]].
    cbn [combine map fst snd]. apply wf_tread; [exact Hwf|].
    rewrite Hsh. apply in_indices1. exists (i mod L). split; [reflexivity|].
    apply Nat.mod_upper_bound. nia. }
  exists r. repeat split; try assumption.
  intros i Hi. rewrite Hrr by (apply in_indices1; exists i; auto). reflexivity.
Qed.

Lemma expand_dims_vector {A : Type} (t : Tensor A) (n : nat) :
  shape t = [n] -> TF.expand_dims t 1 = Ok (mkT [n; 1] (data t)).
Proof. intros Hsh. unfold TF.expand_dims. rewrite Hsh. reflexivity. Qed.

Lemma tget_column {A : Type} (l : list A) (n i : nat) :
  i < n -> tget (mkT [n; 1] l) [i; 0] = nth_error l i.
Proof.
  intros Hi. rewrite (tget_at _ _ (i * 1 + 0)) by (apply ravel2; lia).
  cbn [data]. f_equal. lia.
Qed.

(** C5, as amended: for a non-empty vector [lengths] of [n] entries, with
    [batch_size] equal to [n] or left out and [max_length] a non-negative
    bound [L] or left out (the greatest entry is then non-negative, and [L]
    stands for it), [n] and [L] within int32,
    [mask_for_lengths] returns an [n x L] tensor whose entry [(b, j)] is
    [value] when active and 0 otherwise, active meaning [j >= lengths[b]] if
    [mask_right] and [j < lengths[b]] if not; for [lengths = [2,4]],
    [max_length = 4], [value = -1000] the result is
    [[0,0,-1000,-1000],[0,0,0,0]] with [mask_right] and
    [[-1000,-1000,0,0],[-1000,-1000,-1000,-1000]] without. *)
Theorem mask_for_lengths_spec (lengths : Tensor Z) (batch_size max_length : option Z)
  (mask_right : bool) (value : R) (n L : nat) :
  wf lengths -> shape lengths = [n] ->
  mask_args lengths batch_size max_length n L ->
  1 <= n -> (Z.of_nat n <= int32_max)%Z -> (Z.of_nat L <= int32_max)%Z ->
  mask_for_lengths_post lengths batch_size max_length mask_right value n L
  /\ mask_for_lengths (vector [2; 4]%Z) None (Some 4%Z) true (-1000)
     = Ok (mkT [2; 4] [0; 0; -1000; -1000; 0; 0; 0; 0]%R)
  /\ mask_for_lengths (vector [2; 4]%Z) None (Some 4%Z) false (-1000)
     = Ok (mkT [2; 4] [-1000; -1000; 0; 0; -1000; -1000; -1000; -1000]%R).
Proof.
  intros Hwf Hsh [Hb Hm] Hn Bn BL.
  split; [|split; [exact mask_for_lengths_right|exact mask_for_lengths_left]].
  unfold mask_for_lengths_post, mask_for_lengths.
  assert (Hmax : match max_length with
                 | Some m => Ok m
                 | None => Ok (wrap32 (TF.reduce_all max_list lengths))
                 end = Ok (Z.of_nat L)).
  { destruct Hm as [->|[-> [Hin Hle]]]; [reflexivity|].
    unfold TF.reduce_all. rewrite (max_list_greatest (data lengths) (Z.of_nat L)).
    - rewrite wrap32_id; [reflexivity|].
      unfold in_int32, int32_min, int32_max in *. lia.
    - exact Hin.
    - intros x Hx. apply Z.leb_le. apply Hle; exact Hx. }
  rewrite Hmax. cbn [bind].
  assert (Hbatch : match batch_size with
                   | Some b => Ok b
                   | None => sh <- TF.shape_ lengths ;;
                             of_option (nth_error (data sh) 0) InvalidArgument
                   end = Ok (Z.of_nat n)).
  { destruct Hb as [->| ->]; [reflexivity|].
    rewrite shape_ok by (unfold shape32; rewrite Hsh; repeat constructor; exact Bn).
    rewrite Hsh. reflexivity. }
  rewrite Hbatch. cbn [bind].
  rewrite (range_ok L BL). cbn [bind].
  set (rng := vector (map Z.of_nat (seq 0 L))).
  assert (Hrs : shape rng = [L]).
  { unfold rng, vector. cbn. rewrite length_map, length_seq. reflexivity. }
  destruct (tile_vector rng L n (wf_vector _) Hrs) as [tiled [-> [Hst [Hwt Hrt]]]].
  cbn [bind].
  rewrite (reshape_cols tiled n L) by (unfold wf in Hwt; rewrite ?Hwt, ?Hst; cbn; lia).
  cbn [bind]. rewrite (expand_dims_vector lengths n Hsh). cbn [bind].
  set (mask := tmap wrap64 (mkT [n; L] (data tiled))).
  set (len1 := mkT [n; 1] (data lengths)).
  assert (Hwm : wf mask).
  { apply wf_tmap. unfold wf in *. cbn. rewrite Hwt, Hst. cbn. lia. }
  assert (Hwl : wf len1).
  { unfold wf in *. cbn. rewrite Hwf, Hsh. cbn. lia. }
  assert (Hmask : forall b j, b < n -> j < L -> tread mask [b; j] = Ok (Z.of_nat j)).
  { intros b j Hb' Hj. unfold mask. rewrite tread_tmap.
    assert (Ht : tread (mkT [n; L] (data tiled)) [b; j] = tread tiled [b * L + j]).
    { unfold tread. rewrite (tget_at _ _ (b * L + j)) by (apply ravel2; lia).
      rewrite (tget_at tiled _ (b * L + j)) by (rewrite Hst; apply ravel1; nia).
      reflexivity. }
    rewrite Ht, Hrt by nia.
    replace ((b * L + j) mod L) with j
      by (rewrite Nat.add_comm, Nat.Div0.mod_add, Nat.mod_small; lia).
    unfold rng. rewrite tread_range by exact Hj. cbn [bind].
    rewrite wrap64_id; [reflexivity|].
    unfold in_int64, int64_min, int64_max, int32_max in *. lia. }
  assert (Hlen : forall b, b < n -> tread len1 [b; 0] = tread lengths [b]).
  { intros b Hb'. unfold tread, len1. rewrite tget_column by exact Hb'.
    rewrite (tget_at lengths _ b) by (rewrite Hsh; apply ravel1; exact Hb').
    reflexivity. }
  assert (Hcmp : forall cmp : Z -> Z -> bool,
            exists m, TF.binop cmp mask len1 = Ok m /\ shape m = [n; L] /\ wf m /\
              forall b j, b < n -> j < L ->
                tread m [b; j] = (len <- tread lengths [b] ;; Ok (cmp (Z.of_nat j) len))).
  { intros cmp.
    destruct (binop_col cmp mask len1 n L Hwm Hwl eq_refl eq_refl)
      as [m [Hm' [Hsm [Hwm' Hrm]]]].
    exists m. repeat split; try assumption.
    intros b j Hb' Hj. rewrite Hrm, Hmask, Hlen by assumption. reflexivity. }
  assert (Hm2 : exists m,
            (if mask_right then TF.binop Z.geb mask len1 else TF.binop Z.ltb mask len1)
            = Ok m /\ shape m = [n; L] /\ wf m /\
            forall b j, b < n -> j < L ->
              tread m [b; j] = (len <- tread lengths [b] ;; Ok (active mask_right j len))).
  { unfold active. destruct mask_right; apply Hcmp. }
  destruct Hm2 as [m [-> [Hsm [Hwm' Hrm]]]]. cbn [bind].
  destruct (binop_scalar Rmult (tmap bool_to_R m) value (wf_tmap _ _ Hwm'))
    as [r [Hr [Hsr [Hwr Hrr]]]].
  exists r. split; [exact Hr|]. cbn [shape tmap] in Hsr, Hrr. rewrite Hsm in Hsr, Hrr.
  split; [exact Hsr|]. split; [exact Hwr|].
  intros b j Hb' Hj.
  destruct (wf_tget lengths [b] Hwf) as [len Hlen'].
  { rewrite Hsh. apply in_indices1. exists b; auto. }
  exists len. split; [exact Hlen'|].
  apply tread_Ok. rewrite Hrr by (apply in_indices2; exists b, j; auto).
  rewrite tread_tmap, Hrm by assumption.
  apply tread_Ok in Hlen'. rewrite Hlen'. cbn [bind]. f_equal.
  destruct (active mask_right j len); cbn [bool_to_R]; lra.
Qed.

Lemma mask_for_lengths_spec_witness :
  mask_for_lengths_post (vector [2; 4]%Z) None None true (-1000) 2 4
  /\ mask_for_lengths (vector [2; 4]%Z) None (Some 4%Z) true (-1000)
     = Ok (mkT [2; 4] [0; 0; -1000; -1000; 0; 0; 0; 0]%R)
  /\ mask_for_lengths (vector [2; 4]%Z) None (Some 4%Z) false (-1000)
     = Ok (mkT [2; 4] [-1000; -1000; 0; 0; -1000; -1000; -1000; -1000]%R).
Proof.
  apply (mask_for_lengths_spec (vector [2; 4]%Z) None None true (-1000) 2 4).
  - reflexivity.
  - reflexivity.
  - split; [right; reflexivity|]. right. split; [reflexivity|].
    split; [right; left; reflexivity|].
    intros z [<-|[<-|[]]]; simpl; lia.
  - lia.
  - vm_compute; discriminate.
  - vm_compute; discriminate.
Defined.

(** C5 as stated fails on the empty vector, whose mask is reshaped to
    [0 x 1] whatever [max_length] is, and on a greatest entry beyond int32
    when [max_length] is left out. *)
Lemma mask_for_lengths_counterexample :
  (wf (vector (@nil Z)) /\ shape (vector (@nil Z)) = [0]
   /\ mask_args (vector (@nil Z)) (Some 0%Z) (Some 4%Z) 0 4
   /\ mask_for_lengths (vector (@nil Z)) (Some 0%Z) (Some 4%Z) true (-1000)
      = Ok (mkT [0; 1] [])
   /\ ~ mask_for_lengths_post (vector (@nil Z)) (Some 0%Z) (Some 4%Z) true (-1000) 0 4)
  /\ (wf (vector [2147483648%Z]) /\ shape (vector [2147483648%Z]) = [1]
      /\ mask_args (vector [2147483648%Z]) None None 1 (Z.to_nat 2147483648)
      /\ mask_for_lengths (vector [2147483648%Z]) None None true (-1000)
         = Err InvalidArgument
      /\ ~ mask_for_lengths_post (vector [2147483648%Z]) None None true (-1000)
            1 (Z.to_nat 2147483648)).
Proof.
  assert (E1 : mask_for_lengths (vector (@nil Z)) (Some 0%Z) (Some 4%Z) true (-1000)
               = Ok (mkT [0; 1] [])).
  { cbv - [Rmult IZR]. reflexivity. }
  assert (E2 : mask_for_lengths (vector [2147483648%Z]) None None true (-1000)
               = Err InvalidArgument).
  { cbv - [Rmult IZR]. reflexivity. }
  split.
  - split; [reflexivity|]. split; [reflexivity|]. split.
    { split; left; reflexivity. }
    split; [exact E1|].
    intros [r [Hr [Hs _]]]. rewrite E1 in Hr. injection Hr as <-. discriminate Hs.
  - split; [reflexivity|]. split; [reflexivity|]. split.
    { split; [right; reflexivity|]. right. split; [reflexivity|].
      rewrite Z2Nat.id by lia. split; [left; reflexivity|].
      intros z [<-|[]]. lia. }
    split; [exact E2|].
    intros [r [Hr _]]. rewrite E2 in Hr. discriminate.
Qed.

(** ** Every cell of a well-formed tensor *)

Lemma mapM_length {A B : Type} (f : A -> result B) (l : list A) (ys : list B) :
  mapM f l = Ok ys -> length ys = length l.
Proof.
  revert ys. induction l as [|x r IH]; intros ys H; cbn in H.
  - injection H as <-. reflexivity.
  - destruct (f x); [|discriminate]. cbn in H.
    destruct (mapM f r) as [zs|]; [|discriminate]. cbn in H.
    injection H as <-. cbn. f_equal. apply IH. reflexivity.
Qed.

Lemma tbuild_shape {A : Type} (sh : list nat) (f : list nat -> result A)
  (t : Tensor A) :
  tbuild sh f = Ok t -> shape t = sh /\ wf t.
Proof.
  unfold tbuild. destruct (mapM f (indices sh)) as [ys|] eqn:E; [|discriminate].
  cbn. intros H. injection H as <-. split; [reflexivity|].
  unfold wf. cbn. rewrite (mapM_length _ _ _ E). apply length_indices.
Qed.

Lemma ravel_nth (sh : list nat) (o : nat) :
  o < numel sh ->
  exists I, nth_error (indices sh) o = Some I /\ ravel sh I = Some o.
Proof.
  revert o. induction sh as [|d sh IH]; intros o Ho.
  - cbn in Ho. exists []. replace o with 0 by lia. split; reflexivity.
  - change (o < d * numel sh) in Ho. assert (Hw : 0 < numel sh) by nia.
    destruct (IH (o mod numel sh)) as [I [Hn Hr]].
    { apply Nat.mod_upper_bound. lia. }
    exists (o / numel sh :: I).
    assert (Hd : o / numel sh < d).
    { apply Nat.Div0.div_lt_upper_bound. nia. }
    assert (Ho' : o = o / numel sh * numel sh + o mod numel sh).
    { rewrite Nat.mul_comm. apply Nat.div_mod_eq. }
    split.
    + rewrite Ho' at 1. cbn [indices].
      rewrite nth_error_flat_map_const with (w := numel sh).
      * cbn. rewrite nth_error_map, Hn. reflexivity.
      * intros k. rewrite length_map. apply length_indices.
      * exact Hd.
      * apply Nat.mod_upper_bound. lia.
    + cbn [ravel]. apply Nat.ltb_lt in Hd. rewrite Hd, Hr. cbn.
      f_equal. symmetry. exact Ho'.
Qed.

Lemma tensor_ext {A : Type} (t u : Tensor A) :
  shape t = shape u -> wf t -> wf u ->
  (forall I, In I (indices (shape t)) -> tget t I = tget u I) -> t = u.
Proof.
  destruct t as [sh dt], u as [sh' du]. unfold wf. cbn [shape data].
  intros <- Ht Hu Hc.
  f_equal. apply nth_error_ext. intros o.
  destruct (Nat.lt_ge_cases o (numel sh)) as [Ho|Ho].
  - destruct (ravel_nth sh o Ho) as [I [Hn Hr]].
    specialize (Hc I (nth_error_In _ _ Hn)). unfold tget in Hc. cbn in Hc.
    rewrite Hr in Hc. exact Hc.
  - transitivity (@None A); [|symmetry]; apply nth_error_None; lia.
Qed.

Lemma tbuild_self {A : Type} (t : Tensor A) :
  wf t -> tbuild (shape t) (tread t) = Ok t.
Proof.
  intros Hwf.
  destruct (tbuild_reads (shape t) (tread t)) as [u [Hu [Hs [Hw Hr]]]].
  { intros I HI. apply wf_tread; assumption. }
  rewrite Hu. f_equal. apply tensor_ext; try assumption.
  intros I HI. rewrite Hs in HI. apply tread_inj. apply Hr; exact HI.
Qed.

Lemma tbuild_ext {A : Type} (sh : list nat) (f g : list nat -> result A) :
  (forall I, In I (indices sh) -> f I = g I) -> tbuild sh f = tbuild sh g.
Proof.
  intros H. unfold tbuild. f_equal.
  induction (indices sh) as [|I l IH]; [reflexivity|]. cbn.
  rewrite (H I (or_introl eq_refl)), IH; [reflexivity|].
  intros J HJ. apply H. right; exact HJ.
Qed.

(** ** [tf.transpose] *)

Lemma index_of_seq (r e : nat) : e < r -> TF.index_of e (seq 0 r) = e.
Proof.
  intros He.
  assert (G : forall s n, s <= e < s + n -> TF.index_of e (seq s n) = e - s).
  { intros s n; revert s. induction n as [|n IH]; intros s Hs; [lia|]. cbn.
    destruct (s =? e) eqn:E.
    - apply Nat.eqb_eq in E. lia.
    - apply Nat.eqb_neq in E. rewrite IH by lia. lia. }
  rewrite G by lia. lia.
Qed.

Lemma map_nth_seq {A : Type} (l : list A) (d : A) :
  map (fun e => nth e l d) (seq 0 (length l)) = l.
Proof.
  apply nth_error_ext. intros n. rewrite nth_error_map, nth_error_seq.
  destruct (n <? length l) eqn:E; cbn.
  - apply Nat.ltb_lt in E. symmetry. apply nth_error_nth'. exact E.
  - apply Nat.ltb_ge in E. symmetry. apply nth_error_None. exact E.
Qed.

Lemma is_perm_id (r : nat) : TF.is_perm (map Z.of_nat (seq 0 r)) r = true.
Proof.
  unfold TF.is_perm. rewrite length_map, length_seq, Nat.eqb_refl. cbn.
  apply forallb_forall. intros e He. apply existsb_exists.
  exists (Z.of_nat e). split; [apply in_map; exact He|apply Z.eqb_refl].
Qed.

Lemma transpose_id {A : Type} (t : Tensor A) :
  wf t -> TF.transpose t (map Z.of_nat (seq 0 (length (shape t)))) = Ok t.
Proof.
  intros Hwf. unfold TF.transpose. rewrite is_perm_id. cbn [guard bind].
  assert (Hp : forall r, map Z.to_nat (map Z.of_nat (seq 0 r)) = seq 0 r).
  { intros r. rewrite map_map. erewrite map_ext; [apply map_id|].
    intros e. apply Nat2Z.id. }
  rewrite Hp, map_nth_seq.
  rewrite <- (tbuild_self t Hwf) at 1. apply tbuild_ext.
  intros I HI. f_equal. apply in_indices, Forall2_length in HI.
  rewrite <- HI. rewrite <- (map_nth_seq I 0) at 2.
  apply map_ext_in. intros e He. apply in_seq in He.
  rewrite index_of_seq by lia. reflexivity.
Qed.

(** ** [gather_in_dim] *)

Lemma swap_dims_0 (r : nat) : swap_dims r 0 = map Z.of_nat (seq 0 r).
Proof.
  unfold swap_dims. apply map_ext. intros e.
  destruct (e =? 0) eqn:E; [apply Nat.eqb_eq in E; subst|]; reflexivity.
Qed.

Lemma py_setitem_nat {A : Type} (l : list A) (k : nat) (v : A) :
  k < length l ->
  py_setitem l (Z.of_nat k) v = Ok (firstn k l ++ v :: skipn (S k) l).
Proof.
  intros Hk. unfold py_setitem.
  replace ((0 <=? Z.of_nat k)%Z && (Z.of_nat k <? Z.of_nat (length l))%Z) with true.
  - rewrite Nat2Z.id. reflexivity.
  - symmetry. apply andb_true_iff. split; [apply Z.leb_le|apply Z.ltb_lt]; lia.
Qed.

(** The list that the Python code builds is the exchange of 0 and [dim]. *)
Lemma to_dims_swap (r dim : nat) :
  dim < r -> dim <> 0 ->
  (to_dims <- py_setitem (map Z.of_nat (seq 0 r)) 0 (Z.of_nat dim) ;;
   py_setitem to_dims (Z.of_nat dim) 0%Z) = Ok (swap_dims r dim).
Proof.
  intros Hd Hd0.
  rewrite (py_setitem_nat _ 0) by (rewrite length_map, length_seq; lia).
  cbn [bind firstn app].
  rewrite py_setitem_nat
    by (cbn [length]; rewrite length_skipn, length_map, length_seq; lia).
  f_equal. apply nth_error_ext. intros n. unfold swap_dims.
  rewrite nth_error_map, nth_error_seq, nth_error_app, length_firstn.
  cbn [length]. rewrite length_skipn, length_map, length_seq.
  replace (Nat.min dim (S (r - 1))) with dim by lia.
  destruct (n <? dim) eqn:E1.
  - apply Nat.ltb_lt in E1. rewrite nth_error_firstn.
    apply Nat.ltb_lt in E1 as E1'. rewrite E1'.
    replace (n <? r) with true by (symmetry; apply Nat.ltb_lt; lia). cbn [option_map Nat.add].
    destruct n as [|n]; [reflexivity|]. cbn [nth_error].
    rewrite nth_error_skipn, nth_error_map, nth_error_seq.
    replace (1 + n <? r) with true by (symmetry; apply Nat.ltb_lt; lia).
    cbn [option_map Nat.add]. change (S n =? 0) with false. cbn iota.
    replace (S n =? dim) with false by (symmetry; apply Nat.eqb_neq; lia).
    reflexivity.
  - apply Nat.ltb_ge in E1. destruct (n - dim) as [|k] eqn:E2.
    + assert (n = dim) by lia. subst n.
      replace (dim <? r) with true by (symmetry; apply Nat.ltb_lt; lia).
      cbn. replace (dim =? 0) with false by (symmetry; apply Nat.eqb_neq; lia).
      rewrite Nat.eqb_refl. reflexivity.
    + cbn [nth_error]. rewrite nth_error_skipn. cbn [nth_error Nat.add].
      rewrite nth_error_skipn, nth_error_map, nth_error_seq.
      replace (1 + (dim + k)) with n by lia.
      destruct (n <? r) eqn:E3; [|reflexivity]. cbn.
      replace (n =? 0) with false by (symmetry; apply Nat.eqb_neq; lia).
      replace (n =? dim) with false by (symmetry; apply Nat.eqb_neq; lia).
      reflexivity.
Qed.

Lemma gather_shape {A : Type} (params : Tensor A) (idx : Tensor Z) (g : Tensor A) :
  TF.gather params idx = Ok g ->
  shape g = shape idx ++ tl (shape params) /\ wf g /\ shape params <> [].
Proof.
  unfold TF.gather. destruct (shape params) as [|d rest]; [discriminate|].
  intros H. apply tbuild_shape in H. destruct H as [Hs Hw].
  repeat split; [exact Hs|exact Hw|discriminate].
Qed.

(** C4, as amended: for every valid dimension [dim] and every index vector,
    [gather_in_dim(params, idx, dim)] equals [gather_in_dim(params', idx, 0)]
    transposed back by the exchange of dimensions 0 and [dim], where
    [params'] is [params] with dimensions 0 and [dim] exchanged. *)
Theorem gather_in_dim_spec {A : Type} (params : Tensor A) (indices : Tensor Z)
  (dim : nat) (params' : Tensor A) :
  wf params -> dim < rank params -> rank indices = 1 ->
  TF.transpose params (swap_dims (rank params) dim) = Ok params' ->
  gather_in_dim params indices (Z.of_nat dim)
  = (g <- gather_in_dim params' indices 0 ;;
     TF.transpose g (swap_dims (rank params) dim)).
Proof.
  intros Hwf Hdim Hri Htr. unfold rank in *.
  destruct (Nat.eq_dec dim 0) as [->|Hd0].
  - rewrite swap_dims_0 in *. rewrite transpose_id in Htr by exact Hwf.
    injection Htr as <-. unfold gather_in_dim. cbn [Z.of_nat Z.eqb].
    destruct (TF.gather params indices) as [g|e] eqn:Hg; [|reflexivity].
    cbn [bind]. apply gather_shape in Hg. destruct Hg as [Hs [Hw Hne]].
    assert (Hr : length (shape g) = length (shape params)).
    { rewrite Hs, length_app, Hri. destruct (shape params); [contradiction|].
      reflexivity. }
    rewrite <- Hr. symmetry. apply transpose_id. exact Hw.
  - unfold gather_in_dim at 1.
    replace (Z.of_nat dim =? 0)%Z with false by (symmetry; apply Z.eqb_neq; lia).
    pose proof (to_dims_swap (length (shape params)) dim Hdim Hd0) as Hswap.
    destruct (py_setitem (map Z.of_nat (seq 0 (length (shape params)))) 0
                (Z.of_nat dim)) as [td|e]; [|discriminate].
    cbn [bind] in Hswap |- *. rewrite Hswap. cbn [bind]. rewrite Htr. cbn [bind].
    reflexivity.
Qed.

Lemma gather_in_dim_spec_witness :
  gather_in_dim (mkT [2; 3] [1; 2; 3; 4; 5; 6]%Z) (vector [2; 0]%Z) (Z.of_nat 1)
  = (g <- gather_in_dim (mkT [3; 2] [1; 4; 2; 5; 3; 6]%Z) (vector [2; 0]%Z) 0 ;;
     TF.transpose g (swap_dims (rank (mkT [2; 3] [1; 2; 3; 4; 5; 6]%Z)) 1)).
Proof.
  apply (gather_in_dim_spec (mkT [2; 3] [1; 2; 3; 4; 5; 6]%Z) (vector [2; 0]%Z) 1
           (mkT [3; 2] [1; 4; 2; 5; 3; 6]%Z)).
  - reflexivity.
  - unfold rank; simpl; lia.
  - reflexivity.
  - reflexivity.
Defined.

(** C4 as stated fails: without the transposition back, the gathered
    dimension stays in front. *)
Lemma gather_in_dim_counterexample :
  gather_in_dim (mkT [2; 3] [1; 2; 3; 4; 5; 6]%Z) (vector [0%Z]) 1
    = Ok (mkT [2; 1] [1; 4]%Z)
  /\ TF.transpose (mkT [2; 3] [1; 2; 3; 4; 5; 6]%Z) (swap_dims 2 1)
    = Ok (mkT [3; 2] [1; 4; 2; 5; 3; 6]%Z)
  /\ gather_in_dim (mkT [3; 2] [1; 4; 2; 5; 3; 6]%Z) (vector [0%Z]) 0
    = Ok (mkT [1; 2] [1; 4]%Z)
  /\ ~ gather_in_dim_pretransposed (mkT [2; 3] [1; 2; 3; 4; 5; 6]%Z) (vector [0%Z]) 1.
Proof.
  split; [reflexivity|]. split; [reflexivity|]. split; [reflexivity|].
  intros H. specialize (H (mkT [3; 2] [1; 4; 2; 5; 3; 6]%Z) eq_refl).
  vm_compute in H. discriminate.
Qed.

(** ** Rows of a matrix *)

Lemma length_row {A : Type} (t : Tensor A) (n m i : nat) :
  wf t -> shape t = [n; m] -> i < n -> length (row t i) = m.
Proof.
  intros Hwf Hsh Hi. unfold row. rewrite Hsh.
  rewrite length_firstn, length_skipn. unfold wf in Hwf. rewrite Hwf, Hsh.
  cbn. nia.
Qed.

Lemma nth_error_row {A : Type} (t : Tensor A) (n m i j : nat) :
  shape t = [n; m] -> i < n -> j < m ->
  nth_error (row t i) j = tget t [i; j].
Proof.
  intros Hsh Hi Hj. unfold row. rewrite Hsh.
  rewrite nth_error_firstn. apply Nat.ltb_lt in Hj as Hj'. rewrite Hj'.
  rewrite nth_error_skipn.
  rewrite (tget_at t _ (i * m + j)) by (rewrite Hsh; apply ravel2; assumption).
  reflexivity.
Qed.

Lemma row_cells {A : Type} (t : Tensor A) (n m i : nat) :
  wf t -> shape t = [n; m] -> i < n ->
  mapM (fun j => tread t [i; j]) (seq 0 m) = Ok (row t i).
Proof.
  intros Hwf Hsh Hi.
  destruct (mapM_reads (fun j => tread t [i; j]) (seq 0 m)) as [ys [Hys [Hlen Hnth]]].
  { intros j Hj. apply in_seq in Hj. apply wf_tread; [exact Hwf|].
    rewrite Hsh. apply in_indices2. exists i, j. split; [reflexivity|]. lia. }
  rewrite Hys. f_equal. apply nth_error_ext. intros j.
  rewrite length_seq in Hlen.
  destruct (Nat.lt_ge_cases j m) as [Hj|Hj].
  - rewrite (nth_error_row t n m) by assumption.
    specialize (Hnth j j). rewrite nth_error_seq in Hnth.
    apply Nat.ltb_lt in Hj. rewrite Hj in Hnth. specialize (Hnth eq_refl).
    unfold tread in Hnth.
    destruct (nth_error ys j), (tget t [i; j]); cbn in Hnth; congruence.
  - transitivity (@None A); [|symmetry]; apply nth_error_None;
      rewrite ?(length_row t n m) by assumption; lia.
Qed.

Lemma row_eq_map {A B : Type} (g : A -> B) (t : Tensor A) (r : Tensor B)
  (n m i : nat) :
  wf t -> shape t = [n; m] -> wf r -> shape r = [n; m] -> i < n ->
  (forall j, j < m -> tread r [i; j] = (x <- tread t [i; j] ;; Ok (g x))) ->
  row r i = map g (row t i).
Proof.
  intros Hwt Hst Hwr Hsr Hi Hc. apply nth_error_ext. intros j.
  rewrite nth_error_map.
  destruct (Nat.lt_ge_cases j m) as [Hj|Hj].
  - rewrite (nth_error_row r n m), (nth_error_row t n m) by assumption.
    specialize (Hc j Hj). unfold tread in Hc.
    destruct (tget r [i; j]), (tget t [i; j]); cbn in Hc |- *; congruence.
  - rewrite (proj2 (nth_error_None (row r i) j))
      by (rewrite (length_row r n m) by assumption; lia).
    rewrite (proj2 (nth_error_None (row t i) j))
      by (rewrite (length_row t n m) by assumption; lia).
    reflexivity.
Qed.

(** ** Reduction along the rows *)

Lemma reduce_rows {A B : Type} (f : list A -> result B) (t : Tensor A)
  (n m : nat) (keep_dims : bool) :
  wf t -> shape t = [n; m] ->
  (forall i, i < n -> exists v, f (row t i) = Ok v) ->
  exists r, TF.reduce_axis f t 1 keep_dims = Ok r
    /\ shape r = (if keep_dims then [n; 1] else [n]) /\ wf r /\
    forall i, i < n ->
      tread r (if keep_dims then [i; 0] else [i]) = f (row t i).
Proof.
  intros Hwf Hsh Hf. unfold TF.reduce_axis. rewrite Hsh. cbn [length Nat.ltb Nat.leb guard bind nth firstn skipn app].
  assert (Hlane : forall i, i < n ->
            (l <- mapM (fun j => tread t (TF.lane_index keep_dims 1 j
                                   (if keep_dims then [i; 0] else [i]))) (seq 0 m) ;;
             f l) = f (row t i)).
  { intros i Hi.
    destruct keep_dims; unfold TF.lane_index; cbn [firstn skipn app];
      rewrite (row_cells t n m i Hwf Hsh Hi); reflexivity. }
  destruct keep_dims; cbn [app].
  - match goal with |- context [tbuild ?sh ?g] =>
      destruct (tbuild_reads sh g) as [r [Hr [Hsr [Hwr Hrr]]]] end.
    { intros I HI. apply in_indices2 in HI. destruct HI as [i [j [-> [Hi Hj]]]].
      replace j with 0 by lia. rewrite (Hlane i Hi). apply Hf; exact Hi. }
    exists r. repeat split; try assumption.
    intros i Hi. rewrite Hrr by (apply in_indices2; exists i, 0; repeat split; lia).
    apply Hlane; exact Hi.
  - match goal with |- context [tbuild ?sh ?g] =>
      destruct (tbuild_reads sh g) as [r [Hr [Hsr [Hwr Hrr]]]] end.
    { intros I HI. apply in_indices1 in HI. destruct HI as [i [-> Hi]].
      rewrite (Hlane i Hi). apply Hf; exact Hi. }
    exists r. repeat split; try assumption.
    intros i Hi. rewrite Hrr by (apply in_indices1; exists i; auto).
    apply Hlane; exact Hi.
Qed.

(** ** [unit_length] *)

Lemma sum_sq_nonneg (l : list R) : (0 <= sum_sq l)%R.
Proof.
  unfold sum_sq, sum_R. induction l as [|x l IH]; cbn [map fold_right]; [lra|].
  pose proof (Rle_0_sqr x) as Hx. unfold Rsqr in Hx. lra.
Qed.

Lemma sum_sq_pos (l : list R) (x : R) :
  In x l -> x <> 0%R -> (0 < sum_sq l)%R.
Proof.
  induction l as [|y l IH]; intros Hin Hx; [destruct Hin|].
  pose proof (sum_sq_nonneg l) as Hl.
  unfold sum_sq, sum_R in *. cbn [map fold_right].
  pose proof (Rle_0_sqr y) as Hy. unfold Rsqr in Hy.
  destruct Hin as [->|Hin].
  - pose proof (Rsqr_pos_lt x Hx) as Hp. unfold Rsqr in Hp. lra.
  - specialize (IH Hin Hx). lra.
Qed.

Lemma sum_sq_scale (l : list R) (c : R) :
  sum_sq (map (fun x => x * c)%R l) = (c * c * sum_sq l)%R.
Proof.
  unfold sum_sq, sum_R. induction l as [|x l IH]; cbn [map fold_right]; [lra|].
  rewrite IH. lra.
Qed.

(** C9: for a real matrix of shape [n, m] and a row [i] that is not all zero,
    row [i] of [unit_length(tensor)] has Euclidean norm 1, and equals row [i]
    of the input divided by the square root of its sum of squares. *)
Theorem unit_length_spec (tensor : Tensor R) (n m : nat) :
  wf tensor -> shape tensor = [n; m] ->
  exists r, unit_length tensor = Ok r /\ shape r = [n; m] /\ wf r /\
    forall i, i < n ->
      (exists x, In x (row tensor i) /\ x <> 0%R) ->
      sqrt (sum_sq (row r i)) = 1%R
      /\ row r i = map (fun x => x / sqrt (sum_sq (row tensor i)))%R (row tensor i).
Proof.
  intros Hwf Hsh. unfold unit_length, TF.reduce_sum.
  destruct (binop_same Rmult tensor tensor Hwf Hwf eq_refl) as [sq [-> [Hss [Hws Hrs]]]].
  cbn [bind]. rewrite Hsh in Hss, Hrs.
  assert (Hrow : forall i, i < n -> row sq i = map (fun x => x * x)%R (row tensor i)).
  { intros i Hi. apply (row_eq_map _ tensor sq n m); try assumption.
    intros j Hj. rewrite Hrs by (apply in_indices2; exists i, j; auto).
    destruct (tread tensor [i; j]); reflexivity. }
  destruct (reduce_rows (fun l => Ok (sum_R l)) sq n m true Hws Hss)
    as [nsq [-> [Hsn [Hwn Hrn]]]].
  { intros i Hi. eexists; reflexivity. }
  cbn [bind].
  destruct (binop_col Rmult tensor (tmap rsqrt nsq) n m Hwf (wf_tmap _ _ Hwn) Hsh Hsn)
    as [r [Hr [Hsr [Hwr Hrr]]]].
  exists r. split; [exact Hr|]. split; [exact Hsr|]. split; [exact Hwr|].
  intros i Hi [x [Hin Hx]].
  assert (Hmap : row r i
            = map (fun x => x * rsqrt (sum_sq (row tensor i)))%R (row tensor i)).
  { apply (row_eq_map _ tensor r n m); try assumption.
    intros j Hj. rewrite Hrr by assumption.
    rewrite tread_tmap, (Hrn i Hi), (Hrow i Hi). cbn [bind].
    destruct (tread tensor [i; j]); reflexivity. }
  pose proof (sum_sq_pos _ _ Hin Hx) as Hpos.
  split.
  - rewrite Hmap, sum_sq_scale. unfold rsqrt.
    replace (/ sqrt (sum_sq (row tensor i)) * / sqrt (sum_sq (row tensor i))
             * sum_sq (row tensor i))%R with 1%R; [apply sqrt_1|].
    rewrite <- (sqrt_sqrt (sum_sq (row tensor i))) at 3 by lra.
    field. apply Rgt_not_eq. apply sqrt_lt_R0. exact Hpos.
  - rewrite Hmap. apply map_ext. intros y. unfold rsqrt, Rdiv. reflexivity.
Qed.

Lemma unit_length_spec_witness :
  exists r, unit_length (mkT [1; 2]%nat [3; 4]%R) = Ok r /\ shape r = [1; 2] /\ wf r /\
    forall i, i < 1 ->
      (exists x, In x (row (mkT [1; 2]%nat [3; 4]%R) i) /\ x <> 0%R) ->
      sqrt (sum_sq (row r i)) = 1%R
      /\ row r i = map (fun x => x / sqrt (sum_sq (row (mkT [1; 2]%nat [3; 4]%R) i)))%R
                      (row (mkT [1; 2]%nat [3; 4]%R) i).
Proof.
  apply (unit_length_spec (mkT [1; 2]%nat [3; 4]%R) 1 2); reflexivity.
Defined.

(** ** Segment ids *)

Lemma sorted_ids_cons (x : Z) (l : list Z) :
  TF.sorted_ids (x :: l) = true ->
  TF.sorted_ids l = true /\ forall y, In y l -> (x <= y)%Z.
Proof.
  revert x. induction l as [|z l IH]; intros x H.
  - split; [reflexivity|intros y []].
  - cbn [TF.sorted_ids] in H. apply andb_true_iff in H. destruct H as [Hxz Hs].
    apply Z.leb_le in Hxz. split; [exact Hs|].
    intros y [<-|Hy]; [exact Hxz|].
    destruct (IH z Hs) as [_ Hz]. specialize (Hz y Hy). lia.
Qed.

Lemma sorted_ids_nth (l : list Z) :
  TF.sorted_ids l = true ->
  forall i j x y, i <= j -> nth_error l i = Some x -> nth_error l j = Some y ->
    (x <= y)%Z.
Proof.
  induction l as [|z l IH]; intros Hs i j x y Hij Hi Hj.
  - destruct i; discriminate.
  - destruct (sorted_ids_cons z l Hs) as [Hs' Hz].
    destruct i as [|i], j as [|j]; cbn in Hi, Hj.
    + injection Hi as <-. injection Hj as <-. lia.
    + injection Hi as <-. apply Hz. eapply nth_error_In; exact Hj.
    + lia.
    + apply (IH Hs' i j); [lia|exact Hi|exact Hj].
Qed.

Lemma sorted_ids_of_nth (l : list Z) :
  (forall i j x y, i <= j -> nth_error l i = Some x -> nth_error l j = Some y ->
     (x <= y)%Z) ->
  TF.sorted_ids l = true.
Proof.
  induction l as [|z l IH]; intros H; [reflexivity|].
  destruct l as [|w l]; [reflexivity|].
  cbn [TF.sorted_ids]. apply andb_true_iff. split.
  - apply Z.leb_le. apply (H 0 1); [lia|reflexivity|reflexivity].
  - apply IH. intros i j x y Hij Hi Hj. apply (H (S i) (S j)); [lia|exact Hi|exact Hj].
Qed.

Lemma segment_ids_ok_iff (partition : Tensor Z) :
  TF.segment_ids_ok (data partition) = true <-> sorted_partition partition.
Proof.
  unfold TF.segment_ids_ok, sorted_partition. rewrite andb_true_iff, forallb_forall.
  rewrite Forall_forall. split.
  - intros [Hp Hs]. split.
    + intros g Hg. apply Z.leb_le. apply Hp; exact Hg.
    + apply sorted_ids_nth; exact Hs.
  - intros [Hp Hs]. split.
    + intros g Hg. apply Z.leb_le. apply Hp; exact Hg.
    + apply sorted_ids_of_nth; exact Hs.
Qed.

Lemma num_segments_last (l : list Z) (z : Z) :
  TF.num_segments (l ++ [z]) = S (Z.to_nat z).
Proof. unfold TF.num_segments. rewrite rev_app_distr. reflexivity. Qed.

(** Every id of a sorted partition is below the number of segments. *)
Lemma id_lt_num_segments (partition : Tensor Z) (z : Z) :
  sorted_partition partition -> In z (data partition) ->
  (0 <= z)%Z /\ Z.to_nat z < TF.num_segments (data partition).
Proof.
  unfold sorted_partition. generalize (data partition) as l.
  intros l [Hp Hs] Hz. rewrite Forall_forall in Hp. split; [apply Hp; exact Hz|].
  induction l as [|x l0 _] using rev_ind; [destruct Hz|].
  rewrite num_segments_last.
  apply In_nth_error in Hz. destruct Hz as [i Hi].
  assert (Hlen : i < length (l0 ++ [x])) by (apply nth_error_Some; congruence).
  rewrite length_app in Hlen. cbn in Hlen.
  assert (Hlast : nth_error (l0 ++ [x]) (length l0) = Some x).
  { rewrite nth_error_app2 by lia. rewrite Nat.sub_diag. reflexivity. }
  specialize (Hs i (length l0) z x ltac:(lia) Hi Hlast).
  specialize (Hp z (nth_error_In _ _ Hi)). lia.
Qed.

(** ** Segment reductions of a vector *)

Lemma tget_vec {A : Type} (t : Tensor A) (n i : nat) :
  wf t -> shape t = [n] -> tget t [i] = nth_error (data t) i.
Proof.
  intros Hwf Hsh. destruct t as [sh d]. cbn in Hsh. subst sh.
  unfold wf in Hwf. cbn in Hwf. rewrite Nat.mul_1_r in Hwf. subst n.
  apply (tget_vector d i).
Qed.

Lemma segment_rows_vals {A : Type} (l : list A) (ids : list Z) (g : nat) :
  length l = length ids ->
  mapM (fun j => of_option (nth_error l j) InvalidArgument) (TF.segment_rows ids g)
  = Ok (segment_vals l ids (Z.of_nat g)).
Proof.
  unfold TF.segment_rows, segment_vals.
  assert (G : forall (ids : list Z) (l pre : list A), length l = length ids ->
    mapM (fun j => of_option (nth_error (pre ++ l) j) InvalidArgument)
      (map fst (filter (fun p => (snd p =? Z.of_nat g)%Z)
                  (combine (seq (length pre) (length ids)) ids)))
    = Ok (map snd (filter (fun p => (fst p =? Z.of_nat g)%Z) (combine ids l)))).
  { clear. induction ids as [|z ids IH]; intros l pre Hlen; [reflexivity|].
    destruct l as [|x l]; [discriminate|]. cbn [length seq combine filter fst snd].
    injection Hlen as Hlen.
    specialize (IH l (pre ++ [x]) Hlen).
    rewrite <- app_assoc, length_app in IH. cbn [app length] in IH.
    rewrite Nat.add_1_r in IH.
    destruct (z =? Z.of_nat g)%Z; cbn [map fst snd mapM].
    - rewrite nth_error_app2, Nat.sub_diag by lia. cbn [nth_error of_option bind].
      rewrite IH. reflexivity.
    - exact IH. }
  intros Hlen. apply (G ids l [] Hlen).
Qed.

Lemma segment_reduce_vec {A : Type} (f : list A -> A) (dat : Tensor A)
  (ids : Tensor Z) (n : nat) :
  wf dat -> shape dat = [n] -> wf ids -> shape ids = [n] ->
  sorted_partition ids ->
  exists r, TF.segment_reduce f dat ids = Ok r
    /\ shape r = [TF.num_segments (data ids)] /\ wf r /\
    forall g, g < TF.num_segments (data ids) ->
      tread r [g] = Ok (f (segment_vals (data dat) (data ids) (Z.of_nat g))).
Proof.
  intros Hwd Hsd Hwi Hsi Hok. unfold TF.segment_reduce. rewrite Hsd, Hsi.
  assert (Hli : length (data ids) = n).
  { unfold wf in Hwi. rewrite Hwi, Hsi. cbn. lia. }
  assert (Hld : length (data dat) = n).
  { unfold wf in Hwd. rewrite Hwd, Hsd. cbn. lia. }
  rewrite Hli, Nat.eqb_refl. cbn [andb guard bind].
  rewrite (proj2 (segment_ids_ok_iff ids) Hok). cbn [guard bind].
  assert (Hcell : forall g,
            (vals <- mapM (fun j => tread dat [j]) (TF.segment_rows (data ids) g) ;;
             Ok (f vals))
            = Ok (f (segment_vals (data dat) (data ids) (Z.of_nat g)))).
  { intros g.
    assert (E : forall j, tread dat [j] = of_option (nth_error (data dat) j) InvalidArgument).
    { intros j. unfold tread. rewrite (tget_vec dat n) by assumption. reflexivity. }
    assert (E' : forall rows, mapM (fun j => tread dat [j]) rows
                 = mapM (fun j => of_option (nth_error (data dat) j) InvalidArgument) rows).
    { induction rows as [|j rows IH]; [reflexivity|]. cbn. rewrite E, IH. reflexivity. }
    rewrite E'. rewrite (segment_rows_vals (data dat) (data ids) g) by lia.
    reflexivity. }
  match goal with |- context [tbuild ?sh ?h] =>
    destruct (tbuild_reads sh h) as [r [Hr [Hsr [Hwr Hrr]]]] end.
  { intros I HI. apply in_indices1 in HI. destruct HI as [g [-> Hg]].
    rewrite Hcell. eexists; reflexivity. }
  exists r. repeat split; try assumption.
  intros g Hg. rewrite Hrr by (apply in_indices1; exists g; auto). apply Hcell.
Qed.

(** A segment reduction broadcast back to the rows: row [i] receives the
    reduction of the entries that share its id. *)
Lemma segment_reduce_gather {A : Type} (f : list A -> A) (dat : Tensor A)
  (ids : Tensor Z) (n : nat) :
  wf dat -> shape dat = [n] -> wf ids -> shape ids = [n] ->
  sorted_partition ids ->
  exists r g, TF.segment_reduce f dat ids = Ok r /\ TF.gather r ids = Ok g
    /\ shape g = [n] /\ wf g /\
    forall i, i < n ->
      exists z, tget ids [i] = Some z /\
        tread g [i] = Ok (f (segment_vals (data dat) (data ids) z)).
Proof.
  intros Hwd Hsd Hwi Hsi Hok.
  destruct (segment_reduce_vec f dat ids n Hwd Hsd Hwi Hsi Hok)
    as [r [Hr [Hsr [Hwr Hrr]]]].
  assert (Hid : forall i, i < n -> exists z, tget ids [i] = Some z /\ (0 <= z)%Z
            /\ Z.to_nat z < TF.num_segments (data ids)).
  { intros i Hi. destruct (wf_tget ids [i] Hwi) as [z Hz].
    { rewrite Hsi. apply in_indices1. exists i; auto. }
    exists z. split; [exact Hz|]. apply id_lt_num_segments; [exact Hok|].
    rewrite (tget_vec ids n) in Hz by assumption. eapply nth_error_In; exact Hz. }
  destruct (gather_reads r ids _ [] Hsr) as [g [Hg [Hsg [Hwg Hrg]]]].
  { intros I HI. rewrite Hsi in HI |- *. cbn in HI. apply in_indices1 in HI.
    destruct HI as [i [-> Hi]]. destruct (Hid i Hi) as [z [Hz [Hz0 Hzk]]].
    cbn [length firstn skipn]. apply tread_Ok in Hz.
    exists z. eexists. split; [exact Hz|]. split; [exact Hz0|].
    apply Hrr; exact Hzk. }
  exists r, g. split; [exact Hr|]. split; [exact Hg|].
  rewrite Hsi in Hsg, Hrg. cbn in Hsg, Hrg. split; [exact Hsg|]. split; [exact Hwg|].
  intros i Hi. destruct (Hid i Hi) as [z [Hz [Hz0 Hzk]]].
  exists z. split; [exact Hz|].
  destruct (Hrg [i]) as [z' [Hz' Hread]]; [apply in_indices1; exists i; auto|].
  cbn [length firstn skipn] in Hz', Hread. apply tread_Ok in Hz.
  rewrite Hz in Hz'. injection Hz' as <-.
  rewrite Hread, Hrr by exact Hzk. rewrite Z2Nat.id by exact Hz0. reflexivity.
Qed.

(** ** Groups of rows *)

Lemma vec_data {A : Type} (t : Tensor A) (n : nat) (h : nat -> A) :
  wf t -> shape t = [n] -> (forall i, i < n -> tread t [i] = Ok (h i)) ->
  data t = map h (seq 0 n).
Proof.
  intros Hwf Hsh Hh. apply nth_error_ext. intros i.
  rewrite nth_error_map, nth_error_seq, <- (tget_vec t n) by assumption.
  destruct (i <? n) eqn:E.
  - apply Nat.ltb_lt in E. apply tread_Ok. apply Hh; exact E.
  - apply Nat.ltb_ge in E. rewrite (tget_vec t n) by assumption.
    apply nth_error_None. unfold wf in Hwf. rewrite Hwf, Hsh. cbn. lia.
Qed.

Lemma segment_vals_map {A B : Type} (h : A -> B) (l : list A) (ids : list Z) (g : Z) :
  segment_vals (map h l) ids g = map h (segment_vals l ids g).
Proof.
  unfold segment_vals. revert l. induction ids as [|z ids IH]; intros [|x l];
    try reflexivity.
  cbn [map combine filter fst]. destruct (z =? g)%Z; cbn [map snd]; rewrite IH;
    reflexivity.
Qed.

Lemma in_segment_vals_seq (ids : list Z) (g : Z) (s r : nat) :
  In r (segment_vals (seq s (length ids)) ids g)
  <-> s <= r /\ nth_error ids (r - s) = Some g.
Proof.
  unfold segment_vals. revert s. induction ids as [|z ids IH]; intros s.
  - cbn. split; [intros []|]. intros [_ H]. destruct (r - s); discriminate.
  - cbn [length seq combine filter fst].
    destruct (z =? g)%Z eqn:E; cbn [map snd In]; rewrite IH.
    + apply Z.eqb_eq in E. subst z. split.
      * intros [<-|[Hs Hn]].
        -- rewrite Nat.sub_diag. split; [lia|reflexivity].
        -- split; [lia|]. replace (r - s) with (S (r - S s)) by lia. exact Hn.
      * intros [Hs Hn]. destruct (Nat.eq_dec s r) as [->|Hne]; [left; reflexivity|].
        right. split; [lia|]. replace (r - s) with (S (r - S s)) in Hn by lia.
        exact Hn.
    + apply Z.eqb_neq in E. split.
      * intros [Hs Hn]. split; [lia|].
        replace (r - s) with (S (r - S s)) by lia. exact Hn.
      * intros [Hs Hn]. destruct (Nat.eq_dec s r) as [->|Hne].
        -- rewrite Nat.sub_diag in Hn. cbn in Hn. congruence.
        -- split; [lia|]. replace (r - s) with (S (r - S s)) in Hn by lia.
           exact Hn.
Qed.

Lemma in_group_rows (ids : list Z) (g : Z) (r : nat) :
  In r (group_rows ids g) <-> nth_error ids r = Some g.
Proof.
  unfold group_rows. rewrite in_segment_vals_seq, Nat.sub_0_r.
  split; [intros [_ H]; exact H|intros H; split; [lia|exact H]].
Qed.

(** ** The greatest cell of a group *)

Section GroupMax.
Context {A : Type} `{NumLaws A}.

Lemma max_list_flat_map (h : nat -> list A) (rs : list nat) :
  rs <> [] -> (forall r, In r rs -> h r <> []) ->
  max_list (map (fun r => max_list (h r)) rs) = max_list (flat_map h rs).
Proof.
  intros Hrs Hh. symmetry. apply max_list_greatest.
  - assert (Hin : In (max_list (map (fun r => max_list (h r)) rs))
                     (map (fun r => max_list (h r)) rs)).
    { apply max_list_in. destruct rs; [contradiction|discriminate]. }
    apply in_map_iff in Hin. destruct Hin as [r [Hr Hin]].
    apply in_flat_map. exists r. split; [exact Hin|].
    rewrite <- Hr. apply max_list_in. apply Hh; exact Hin.
  - intros x Hx. apply in_flat_map in Hx. destruct Hx as [r [Hr Hx]].
    eapply leb_trans; [apply max_list_ge; exact Hx|].
    apply max_list_ge. apply in_map_iff. exists r. split; [reflexivity|exact Hr].
Qed.
End GroupMax.

Lemma leb_R (x y : R) : leb x y = true <-> (x <= y)%R.
Proof.
  cbn. destruct (Rle_dec x y); split; intros; try assumption; try reflexivity;
    try discriminate; contradiction.
Qed.

Lemma max_list_greatest_R (l : list R) : l <> [] -> greatest l (max_list l).
Proof.
  intros Hl. split; [apply max_list_in; exact Hl|].
  intros x Hx. apply leb_R. apply max_list_ge; exact Hx.
Qed.

(** ** Sums *)

Lemma sum_R_app (l1 l2 : list R) : sum_R (l1 ++ l2) = (sum_R l1 + sum_R l2)%R.
Proof.
  unfold sum_R. induction l1 as [|x l1 IH]; cbn [app fold_right]; [lra|].
  rewrite IH. lra.
Qed.

Lemma sum_R_flat_map (h : nat -> list R) (rs : list nat) :
  sum_R (map (fun r => sum_R (h r)) rs) = sum_R (flat_map h rs).
Proof.
  induction rs as [|r rs IH]; [reflexivity|].
  cbn [map flat_map]. rewrite sum_R_app, <- IH. reflexivity.
Qed.

Lemma sum_exp_pos (l : list R) : l <> [] -> (0 < sum_R (map exp l))%R.
Proof.
  assert (G : forall l, (0 <= sum_R (map exp l))%R).
  { clear. unfold sum_R. induction l as [|x l IH]; cbn [map fold_right]; [lra|].
    pose proof (exp_pos x). lra. }
  destruct l as [|x l]; [contradiction|]. intros _.
  specialize (G l). unfold sum_R in *. cbn [map fold_right].
  pose proof (exp_pos x). lra.
Qed.

Lemma sum_exp_shift (l : list R) (M : R) :
  sum_R (map (fun y => exp (y - M)) l) = (exp (- M) * sum_R (map exp l))%R.
Proof.
  unfold sum_R. induction l as [|x l IH]; cbn [map fold_right]; [lra|].
  rewrite IH. unfold Rminus. rewrite exp_plus. lra.
Qed.

(** The shift by the greatest score cancels. *)
Lemma softmax_shift (l : list R) (x M : R) :
  l <> [] ->
  (exp (x - M) / sum_R (map (fun y => exp (y - M)) l)
   = exp x / sum_R (map exp l))%R.
Proof.
  intros Hl. rewrite sum_exp_shift. unfold Rminus. rewrite exp_plus.
  pose proof (sum_exp_pos l Hl). pose proof (exp_pos (- M)).
  field. split; lra.
Qed.

(** ** [segment_softmax] *)

Lemma tread_column {A : Type} (t : Tensor A) (n i : nat) :
  wf t -> shape t = [n] -> i < n ->
  tread (mkT [n; 1] (data t)) [i; 0] = tread t [i].
Proof.
  intros Hwf Hsh Hi. unfold tread.
  rewrite tget_column by exact Hi. rewrite (tget_vec t n) by assumption.
  reflexivity.
Qed.

Lemma wf_column {A : Type} (t : Tensor A) (n : nat) :
  wf t -> shape t = [n] -> wf (mkT [n; 1] (data t)).
Proof. unfold wf. intros Hwf Hsh. cbn. rewrite Hwf, Hsh. cbn. lia. Qed.

(** C1, as amended: for real scores of shape [n, m] and a partition vector of
    length [n] whose ids are non-negative and in non-decreasing order,
    [segment_softmax] returns probs of shape [n, m] with
    [probs[i][j] = exp(scores[i][j] - M) / sum of exp(scores[r][c] - M)] over
    every cell [(r, c)] of the rows that share the id of row [i], where [M] is
    the greatest of these cells; this is the softmax normalised jointly over
    the group. *)
Theorem segment_softmax_spec (scores : Tensor R) (partition : Tensor Z) (n m : nat) :
  wf scores -> shape scores = [n; m] ->
  wf partition -> shape partition = [n] ->
  sorted_partition partition ->
  segment_softmax_post scores partition n m.
Proof.
  intros Hws Hss Hwp Hsp Hsorted.
  assert (Hlp : length (data partition) = n).
  { unfold wf in Hwp. rewrite Hwp, Hsp. cbn. lia. }
  unfold segment_softmax_post, segment_softmax, TF.reduce_max, TF.reduce_sum,
    TF.segment_max, TF.segment_sum.
  (* the greatest score of every row *)
  destruct (reduce_rows (fun l => Ok (max_list l)) scores n m false Hws Hss)
    as [rowmax [-> [Hsrm [Hwrm Hrrm]]]].
  { intros i Hi. eexists; reflexivity. }
  cbn [bind].
  pose proof (vec_data rowmax n (fun r => max_list (row scores r)) Hwrm Hsrm Hrrm)
    as Hdrm.
  (* the greatest score of every group, broadcast to its rows *)
  set (seg_max := fun l : list R => match l with [] => zero | _ :: _ => max_list l end).
  destruct (segment_reduce_gather seg_max rowmax partition n Hwrm Hsrm Hwp Hsp Hsorted)
    as [mpp [g [Hmpp [Hg [Hsg [Hwg Hrg]]]]]].
  rewrite Hmpp. cbn [bind]. rewrite Hg.
  cbn [bind]. rewrite (expand_dims_vector g n Hsg). cbn [bind].
  set (Mg := fun z : Z => max_list (group_cells scores partition z)).
  assert (Hrows : forall i z, i < n -> tget partition [i] = Some z ->
            In i (group_rows (data partition) z)).
  { intros i z Hi Hz. apply in_group_rows.
    rewrite <- (tget_vec partition n) by assumption. exact Hz. }
  assert (Hcells : forall i j z x, i < n -> j < m ->
            tget partition [i] = Some z -> tget scores [i; j] = Some x ->
            In x (group_cells scores partition z)).
  { intros i j z x Hi Hj Hz Hx. unfold group_cells. apply in_flat_map.
    exists i. split; [apply (Hrows i z Hi Hz)|].
    rewrite <- (nth_error_row scores n m i j Hss Hi Hj) in Hx.
    eapply nth_error_In; exact Hx. }
  assert (HM : forall i z, i < n -> 1 <= m -> tget partition [i] = Some z ->
            seg_max (segment_vals (data rowmax) (data partition) z) = Mg z).
  { intros i z Hi Hm Hz. rewrite Hdrm, <- Hlp, segment_vals_map.
    fold (group_rows (data partition) z).
    pose proof (Hrows i z Hi Hz) as Hin.
    assert (Hne : group_rows (data partition) z <> []).
    { intros Hnil. rewrite Hnil in Hin. destruct Hin. }
    unfold seg_max.
    destruct (map (fun r => max_list (row scores r)) (group_rows (data partition) z))
      as [|v vs] eqn:E; [apply map_eq_nil in E; contradiction|].
    rewrite <- E. unfold Mg, group_cells. apply max_list_flat_map.
    - exact Hne.
    - intros r' Hr'. apply in_group_rows in Hr'.
      assert (r' < n) by (rewrite <- Hlp; apply nth_error_Some; congruence).
      intros Hnil. pose proof (length_row scores n m r' Hws Hss H) as Hl.
      rewrite Hnil in Hl. cbn in Hl. lia. }
  (* the shifted scores and their exponentials *)
  destruct (binop_col Rminus scores (mkT [n; 1] (data g)) n m Hws
              (wf_column g n Hwg Hsg) Hss eq_refl) as [sh [-> [Hssh [Hwsh Hrsh]]]].
  cbn [bind].
  assert (Hexp : forall i j z, i < n -> j < m -> tget partition [i] = Some z ->
            tread (tmap exp sh) [i; j]
            = (x <- tread scores [i; j] ;; Ok (exp (x - Mg z)))).
  { intros i j z Hi Hj Hz. rewrite tread_tmap, Hrsh by assumption.
    rewrite (tread_column g n i Hwg Hsg Hi).
    destruct (Hrg i Hi) as [z' [Hz' Hread]]. rewrite Hz in Hz'. injection Hz' as <-.
    rewrite Hread, (HM i z Hi ltac:(lia) Hz).
    destruct (tread scores [i; j]); reflexivity. }
  assert (Hrowexp : forall i z, i < n -> tget partition [i] = Some z ->
            row (tmap exp sh) i = map (fun x => exp (x - Mg z)) (row scores i)).
  { intros i z Hi Hz. apply (row_eq_map _ scores (tmap exp sh) n m); try assumption.
    - apply wf_tmap; exact Hwsh.
    - intros j Hj. apply (Hexp i j z Hi Hj Hz). }
  (* the sum of every row, of every group, broadcast to the rows *)
  destruct (reduce_rows (fun l => Ok (sum_R l)) (tmap exp sh) n m false
              (wf_tmap _ _ Hwsh) Hssh) as [rowsum [-> [Hsrs [Hwrs Hrrs]]]].
  { intros i Hi. eexists; reflexivity. }
  cbn [bind].
  pose proof (vec_data rowsum n (fun r => sum_R (row (tmap exp sh) r)) Hwrs Hsrs Hrrs)
    as Hdrs.
  destruct (segment_reduce_gather sum_R rowsum partition n Hwrs Hsrs Hwp Hsp Hsorted)
    as [spp [s [Hspp [Hs [Hs_s [Hws_s Hrs_s]]]]]].
  rewrite Hspp. cbn [bind]. rewrite Hs.
  cbn [bind]. rewrite (expand_dims_vector s n Hs_s). cbn [bind].
  assert (HS : forall i z, i < n -> tget partition [i] = Some z ->
            sum_R (segment_vals (data rowsum) (data partition) z)
            = sum_R (map (fun y => exp (y - Mg z)) (group_cells scores partition z))).
  { intros i z Hi Hz. rewrite Hdrs, <- Hlp, segment_vals_map.
    fold (group_rows (data partition) z). unfold group_cells.
    rewrite (sum_R_flat_map (fun r => row (tmap exp sh) r)).
    f_equal. rewrite !flat_map_concat_map, concat_map, map_map.
    f_equal. apply map_ext_in.
    intros r Hr. apply in_group_rows in Hr.
    assert (Hrn : r < n) by (rewrite <- Hlp; apply nth_error_Some; congruence).
    apply Hrowexp; [exact Hrn|]. rewrite (tget_vec partition n) by assumption.
    exact Hr. }
  destruct (binop_col Rdiv (tmap exp sh) (mkT [n; 1] (data s)) n m
              (wf_tmap _ _ Hwsh) (wf_column s n Hws_s Hs_s) Hssh eq_refl)
    as [probs [Hprobs [Hsprobs [Hwprobs Hrprobs]]]].
  exists probs. split; [exact Hprobs|]. split; [exact Hsprobs|].
  split; [exact Hwprobs|].
  intros i j Hi Hj.
  destruct (wf_tget partition [i] Hwp) as [z Hz].
  { rewrite Hsp. apply in_indices1. exists i; auto. }
  destruct (wf_tget scores [i; j] Hws) as [x Hx].
  { rewrite Hss. apply in_indices2. exists i, j; auto. }
  assert (Hne : group_cells scores partition z <> []).
  { intros Hnil. pose proof (Hcells i j z x Hi Hj Hz Hx) as Hin.
    rewrite Hnil in Hin. destruct Hin. }
  exists z, x, (Mg z). split; [exact Hz|]. split; [exact Hx|].
  split; [apply max_list_greatest_R; exact Hne|]. split.
  - apply tread_Ok. rewrite Hrprobs, (Hexp i j z) by assumption.
    apply tread_Ok in Hx. rewrite Hx. cbn [bind].
    rewrite (tread_column s n i Hws_s Hs_s Hi).
    destruct (Hrs_s i Hi) as [z' [Hz' Hread]]. rewrite Hz in Hz'. injection Hz' as <-.
    rewrite Hread, (HS i z Hi Hz). reflexivity.
  - apply softmax_shift. exact Hne.
Qed.

Lemma segment_softmax_spec_witness :
  segment_softmax_post (mkT [3; 1]%nat [1; 2; 3]%R) (vector [0; 0; 1]%Z) 3 1.
Proof.
  apply (segment_softmax_spec (mkT [3; 1]%nat [1; 2; 3]%R) (vector [0; 0; 1]%Z) 3 1).
  - reflexivity.
  - reflexivity.
  - reflexivity.
  - reflexivity.
  - apply segment_ids_ok_iff. reflexivity.
Defined.

(** C1 as stated fails on a partition whose groups are contiguous but not in
    increasing order of their ids: the segment reductions reject it. *)
Lemma segment_softmax_counterexample :
  wf (mkT [2; 1]%nat [0; 0]%R) /\ shape (mkT [2; 1]%nat [0; 0]%R) = [2; 1]
  /\ wf (vector [1; 0]%Z) /\ shape (vector [1; 0]%Z) = [2]
  /\ contiguous_partition (vector [1; 0]%Z)
  /\ segment_softmax (mkT [2; 1]%nat [0; 0]%R) (vector [1; 0]%Z) = Err InvalidArgument
  /\ ~ segment_softmax_post (mkT [2; 1]%nat [0; 0]%R) (vector [1; 0]%Z) 2 1.
Proof.
  assert (E : segment_softmax (mkT [2; 1]%nat [0; 0]%R) (vector [1; 0]%Z)
              = Err InvalidArgument).
  { cbv - [IZR Rle_dec Req_dec_T]. reflexivity. }
  split; [reflexivity|]. split; [reflexivity|]. split; [reflexivity|].
  split; [reflexivity|]. split.
  { intros i j k x Hijk Hi Hk.
    assert (Hik : i = k).
    { destruct i as [|[|[|i]]], k as [|[|[|k]]]; cbn in Hi, Hk;
        try discriminate; try congruence; reflexivity. }
    subst k. assert (j = i) by lia. subst j. exact Hi. }
  split; [exact E|].
  intros [probs [Hp _]]. rewrite E in Hp. discriminate.
Qed.

(** ** Finite sums *)

Lemma bigsum_ext (f g : nat -> Z) (n : nat) :
  (forall i, i < n -> f i = g i) -> bigsum f n = bigsum g n.
Proof.
  induction n as [|n IH]; intros H; [reflexivity|]. cbn.
  rewrite IH, (H n) by (intros; try apply H; lia). reflexivity.
Qed.

Lemma bigsum_zero (f : nat -> Z) (n : nat) :
  (forall i, i < n -> f i = 0%Z) -> bigsum f n = 0%Z.
Proof.
  induction n as [|n IH]; intros H; [reflexivity|]. cbn.
  rewrite IH, (H n) by (intros; try apply H; lia). reflexivity.
Qed.

Lemma bigsum_plus (f g : nat -> Z) (n : nat) :
  bigsum (fun i => (f i + g i)%Z) n = (bigsum f n + bigsum g n)%Z.
Proof. induction n as [|n IH]; cbn; [reflexivity|]. rewrite IH. lia. Qed.

Lemma bigsum_swap (a : nat -> nat -> Z) (n k : nat) :
  bigsum (fun i => bigsum (fun g => a i g) k) n
  = bigsum (fun g => bigsum (fun i => a i g) n) k.
Proof.
  induction n as [|n IH]; cbn.
  - symmetry. apply bigsum_zero. reflexivity.
  - rewrite IH, <- bigsum_plus. reflexivity.
Qed.

Lemma bigsum_nonneg (f : nat -> Z) (n : nat) :
  (forall i, i < n -> (0 <= f i)%Z) -> (0 <= bigsum f n)%Z.
Proof.
  induction n as [|n IH]; intros H; cbn; [lia|].
  specialize (IH ltac:(intros; apply H; lia)). specialize (H n ltac:(lia)). lia.
Qed.

Lemma bigsum_le (f g : nat -> Z) (n : nat) :
  (forall i, i < n -> (f i <= g i)%Z) -> (bigsum f n <= bigsum g n)%Z.
Proof.
  induction n as [|n IH]; intros H; cbn; [lia|].
  specialize (IH ltac:(intros; apply H; lia)). specialize (H n ltac:(lia)). lia.
Qed.

Lemma bigsum_const (c : Z) (n : nat) :
  bigsum (fun _ => c) n = (Z.of_nat n * c)%Z.
Proof. induction n as [|n IH]; [reflexivity|]. cbn [bigsum]. rewrite IH. lia. Qed.

(** One term of a sum of non-negative terms. *)
Lemma bigsum_term (f : nat -> Z) (n i : nat) :
  (forall k, k < n -> (0 <= f k)%Z) -> i < n -> (f i <= bigsum f n)%Z.
Proof.
  induction n as [|n IH]; intros H Hi; [lia|]. cbn.
  pose proof (bigsum_nonneg f n ltac:(intros; apply H; lia)).
  destruct (Nat.eq_dec i n) as [->|Hne]; [lia|].
  specialize (IH ltac:(intros; apply H; lia) ltac:(lia)).
  specialize (H n ltac:(lia)). lia.
Qed.

(** Two distinct terms. *)
Lemma bigsum_two_terms (f : nat -> Z) (n i k : nat) :
  (forall q, q < n -> (0 <= f q)%Z) -> i < k -> k < n ->
  (f i + f k <= bigsum f n)%Z.
Proof.
  induction n as [|n IH]; intros H Hik Hk; [lia|]. cbn.
  destruct (Nat.eq_dec k n) as [->|Hne].
  - pose proof (bigsum_term f n i ltac:(intros; apply H; lia) Hik). lia.
  - specialize (IH ltac:(intros; apply H; lia) Hik ltac:(lia)).
    specialize (H n ltac:(lia)). lia.
Qed.

(** The sum of an indicator. *)
Lemma bigsum_indicator (n i0 : nat) :
  i0 < n -> bigsum (fun i => if i =? i0 then 1%Z else 0%Z) n = 1%Z.
Proof.
  induction n as [|n IH]; intros Hi; [lia|]. cbn [bigsum].
  destruct (Nat.eq_dec i0 n) as [->|Hne].
  - rewrite Nat.eqb_refl, bigsum_zero; [reflexivity|].
    intros i Hlt. replace (i =? n) with false; [reflexivity|].
    symmetry. apply Nat.eqb_neq. lia.
  - rewrite IH by lia. replace (n =? i0) with false; [reflexivity|].
    symmetry. apply Nat.eqb_neq. lia.
Qed.


(** Terms at least 1, one of them at least 2: the sum exceeds the number of
    terms. *)
Lemma bigsum_tie (f : nat -> Z) (n g1 : nat) :
  (forall g, g < n -> (1 <= f g)%Z) -> g1 < n -> (2 <= f g1)%Z ->
  (Z.of_nat n < bigsum f n)%Z.
Proof.
  intros Hge Hg1 H2.
  assert (H : (Z.of_nat n + 1 <= bigsum f n)%Z).
  { transitivity (bigsum (fun g => (1 + (if Nat.eqb g g1 then 1 else 0))%Z) n).
    - rewrite bigsum_plus, bigsum_indicator, bigsum_const by exact Hg1. lia.
    - apply bigsum_le. intros g Hg. destruct (g =? g1) eqn:E.
      + apply Nat.eqb_eq in E. subst g. lia.
      + specialize (Hge g Hg). lia. }
  lia.
Qed.

Lemma bigsum_add (f : nat -> Z) (a b : nat) :
  bigsum f (a + b) = (bigsum f a + bigsum (fun j => f (a + j)%nat) b)%Z.
Proof.
  induction b as [|b IH]; cbn [bigsum].
  - rewrite Nat.add_0_r. lia.
  - rewrite Nat.add_succ_r. cbn [bigsum]. rewrite IH. lia.
Qed.

Lemma bigsum_mul (f : nat -> Z) (n m : nat) :
  bigsum f (n * m) = bigsum (fun i => bigsum (fun j => f (i * m + j)) m) n.
Proof.
  induction n as [|n IH]; [reflexivity|]. cbn [bigsum].
  rewrite <- IH. replace (S n * m) with (n * m + m) by lia.
  apply bigsum_add.
Qed.

Lemma sum_Z_bigsum (l : list Z) :
  sum_Z l = bigsum (fun k => nth k l 0%Z) (length l).
Proof.
  induction l as [|x l IH] using rev_ind; [reflexivity|].
  rewrite length_app. cbn [length]. rewrite Nat.add_1_r. cbn [bigsum].
  rewrite app_nth2, Nat.sub_diag by lia. cbn [nth].
  rewrite (bigsum_ext _ (fun k => nth k l 0%Z))
    by (intros k Hk; apply app_nth1; exact Hk).
  rewrite <- IH. unfold sum_Z. rewrite fold_right_app. cbn [fold_right].
  clear. induction l as [|y l IH]; cbn [fold_right]; [lia|]. rewrite IH. lia.
Qed.

(** ** The greatest cell of every group, broadcast to its rows *)

Section SegmentMax.
Context {A : Type} `{NumLaws A}.

Lemma group_max_unique (input : Tensor A) (partition : Tensor Z) (g : Z) (v w : A) :
  group_max input partition g v -> group_max input partition g w -> v = w.
Proof.
  intros [Hv Hlv] [Hw Hlw]. apply leb_antisym; [apply Hlw|apply Hlv]; assumption.
Qed.

Lemma group_max_max_list (input : Tensor A) (partition : Tensor Z) (g : Z) :
  group_cells input partition g <> [] ->
  group_max input partition g (max_list (group_cells input partition g)).
Proof.
  intros Hne. split; [apply max_list_in; exact Hne|].
  intros x Hx. apply max_list_ge; exact Hx.
Qed.

Lemma in_group_cells (input : Tensor A) (partition : Tensor Z) (n m i j : nat)
  (z : Z) (x : A) :
  wf partition -> shape partition = [n] -> shape input = [n; m] ->
  tget partition [i] = Some z -> tget input [i; j] = Some x ->
  In x (group_cells input partition z).
Proof.
  intros Hwp Hsp Hsi Hz Hx.
  assert (Hi : i < n /\ j < m).
  { unfold tget in Hx. rewrite Hsi in Hx. cbn [ravel] in Hx.
    destruct (i <? n) eqn:E1; [|discriminate].
    destruct (j <? m) eqn:E2; [|discriminate].
    apply Nat.ltb_lt in E1, E2. auto. }
  destruct Hi as [Hi Hj].
  unfold group_cells. apply in_flat_map. exists i. split.
  - apply in_group_rows. rewrite <- (tget_vec partition n) by assumption. exact Hz.
  - rewrite <- (nth_error_row input n m i j Hsi Hi Hj) in Hx.
    eapply nth_error_In; exact Hx.
Qed.

Lemma group_max_broadcast (input : Tensor A) (partition : Tensor Z) (n m : nat) :
  wf input -> shape input = [n; m] ->
  wf partition -> shape partition = [n] ->
  sorted_partition partition ->
  exists rowmax mpp g,
    TF.reduce_max input 1 = Ok rowmax
    /\ TF.segment_max rowmax partition = Ok mpp
    /\ TF.gather mpp partition = Ok g
    /\ shape g = [n] /\ wf g /\
    forall i z, i < n -> 1 <= m -> tget partition [i] = Some z ->
      tread g [i] = Ok (max_list (group_cells input partition z)).
Proof.
  intros Hwi Hsi Hwp Hsp Hsorted.
  assert (Hlp : length (data partition) = n).
  { unfold wf in Hwp. rewrite Hwp, Hsp. cbn. lia. }
  unfold TF.reduce_max, TF.segment_max.
  destruct (reduce_rows (fun l => Ok (max_list l)) input n m false Hwi Hsi)
    as [rowmax [Hrm [Hsrm [Hwrm Hrrm]]]].
  { intros i Hi. eexists; reflexivity. }
  pose proof (vec_data rowmax n (fun r => max_list (row input r)) Hwrm Hsrm Hrrm)
    as Hdrm.
  set (seg_max := fun l : list A => match l with [] => zero | _ :: _ => max_list l end).
  destruct (segment_reduce_gather seg_max rowmax partition n Hwrm Hsrm Hwp Hsp Hsorted)
    as [mpp [g [Hmpp [Hg [Hsg [Hwg Hrg]]]]]].
  exists rowmax, mpp, g. repeat split; try assumption.
  intros i z Hi Hm Hz. destruct (Hrg i Hi) as [z' [Hz' Hread]].
  rewrite Hz in Hz'. injection Hz' as <-. rewrite Hread. f_equal.
  rewrite Hdrm, <- Hlp, segment_vals_map. fold (group_rows (data partition) z).
  assert (Hin : In i (group_rows (data partition) z)).
  { apply in_group_rows. rewrite <- (tget_vec partition n) by assumption. exact Hz. }
  assert (Hne : group_rows (data partition) z <> []).
  { intros Hnil. rewrite Hnil in Hin. destruct Hin. }
  unfold seg_max.
  destruct (map (fun r => max_list (row input r)) (group_rows (data partition) z))
    as [|v vs] eqn:E; [apply map_eq_nil in E; contradiction|].
  rewrite <- E. unfold group_cells. apply max_list_flat_map; [exact Hne|].
  intros r' Hr'. apply in_group_rows in Hr'.
  assert (r' < n) by (rewrite <- Hlp; apply nth_error_Some; congruence).
  intros Hnil. pose proof (length_row input n m r' Hwi Hsi ltac:(assumption)) as Hl.
  rewrite Hnil in Hl. cbn in Hl. lia.
Qed.

End SegmentMax.

(** ** Counting the true cells of a matrix *)

Lemma bcell_nth (t : Tensor bool) (n m i j : nat) :
  wf t -> shape t = [n; m] -> i < n -> j < m ->
  nth (i * m + j) (map bool_to_Z (data t)) 0%Z = bcell t i j.
Proof.
  intros Hwf Hsh Hi Hj. unfold bcell.
  rewrite (tget_at t _ (i * m + j)) by (rewrite Hsh; apply ravel2; assumption).
  destruct (nth_error (data t) (i * m + j)) as [b|] eqn:E.
  - apply (nth_error_nth _ _ 0%Z). rewrite nth_error_map, E.
    destruct b; reflexivity.
  - apply nth_error_None in E. apply nth_overflow. rewrite length_map. exact E.
Qed.

Lemma count_cells (t : Tensor bool) (n m : nat) :
  wf t -> shape t = [n; m] ->
  sum_Z (map bool_to_Z (data t)) = bigsum (fun i => bigsum (fun j => bcell t i j) m) n.
Proof.
  intros Hwf Hsh. rewrite sum_Z_bigsum, length_map.
  unfold wf in Hwf. rewrite Hwf, Hsh. cbn [numel fold_right].
  rewrite Nat.mul_1_r, bigsum_mul. apply bigsum_ext. intros i Hi.
  apply bigsum_ext. intros j Hj. apply (bcell_nth t n m); assumption.
Qed.

Lemma binop_scalars {X Y W : Type} (f : X -> Y -> W) (a : X) (b : Y) :
  TF.binop f (scalar a) (scalar b) = Ok (scalar (f a b)).
Proof. reflexivity. Qed.

(** ** [segment_argmax]: up to the assertion *)

Section SegmentArgmax.
Context {A : Type} `{NumLaws A}.

(** The candidates are the cells that hold the greatest value of their
    group; the assertion compares their number with the greatest id plus
    one. *)
Lemma segment_argmax_assert (input : Tensor A) (partition : Tensor Z) (n m : nat) :
  wf input -> shape input = [n; m] ->
  wf partition -> shape partition = [n] ->
  sorted_partition partition ->
  exists is_max, shape is_max = [n; m] /\ wf is_max
    /\ (forall i j, i < n -> j < m ->
          exists z x, tget partition [i] = Some z /\ tget input [i; j] = Some x
            /\ tget is_max [i; j]
               = Some (eqb x (max_list (group_cells input partition z))))
    /\ segment_argmax input partition
       = (_ <- guard (add64 (max_list (data partition)) 1
                      =? sum_Z (map bool_to_Z (data is_max)))%Z AssertionFailed ;;
          row_selected <- TF.reduce_any is_max 1 ;;
          let row_indices := TF.squeeze_all (TF.where_ row_selected) in
          selected_rows_is_max <- TF.gather is_max row_indices ;;
          col_indices <- TF.argmax (tmap bool_to_Z selected_rows_is_max) 1 ;;
          Ok (row_indices, col_indices)).
Proof.
  intros Hwi Hsi Hwp Hsp Hsorted.
  destruct (group_max_broadcast input partition n m Hwi Hsi Hwp Hsp Hsorted)
    as [rowmax [mpp [g [Hrm [Hmpp [Hg [Hsg [Hwg Hrg]]]]]]]].
  destruct (binop_col eqb input (mkT [n; 1] (data g)) n m Hwi
              (wf_column g n Hwg Hsg) Hsi eq_refl) as [is_max [Him [Hsim [Hwim Hrim]]]].
  exists is_max. split; [exact Hsim|]. split; [exact Hwim|]. split.
  - intros i j Hi Hj.
    destruct (wf_tget partition [i] Hwp) as [z Hz].
    { rewrite Hsp. apply in_indices1. exists i; auto. }
    destruct (wf_tget input [i; j] Hwi) as [x Hx].
    { rewrite Hsi. apply in_indices2. exists i, j; auto. }
    exists z, x. split; [exact Hz|]. split; [exact Hx|].
    apply tread_Ok. rewrite Hrim by assumption.
    apply tread_Ok in Hx. rewrite Hx. cbn [bind].
    rewrite (tread_column g n i Hwg Hsg Hi), (Hrg i z Hi ltac:(lia) Hz).
    reflexivity.
  - unfold segment_argmax. rewrite binop_scalars. cbn [bind].
    rewrite Hrm. cbn [bind]. rewrite Hmpp. cbn [bind]. rewrite Hg.
    cbn [bind]. rewrite (expand_dims_vector g n Hsg). cbn [bind]. rewrite Him.
    cbn [bind]. unfold TF.assert_equal. rewrite binop_scalars.
    cbn [bind scalar data forallb]. rewrite andb_true_r. reflexivity.
Qed.

End SegmentArgmax.

(** ** Counting the candidates group by group *)

Lemma bcell_range (t : Tensor bool) (i j : nat) : (0 <= bcell t i j <= 1)%Z.
Proof. unfold bcell. destruct (tget t [i; j]) as [[|]|]; lia. Qed.

Lemma row_count_nonneg (t : Tensor bool) (m i : nat) : (0 <= row_count t m i)%Z.
Proof.
  unfold row_count. apply bigsum_nonneg. intros j _. apply bcell_range.
Qed.

Lemma in_group_range (partition : Tensor Z) (i g : nat) :
  (0 <= in_group partition i g <= 1)%Z.
Proof.
  unfold in_group. destruct (tget partition [i]) as [z|]; [|lia].
  destruct (z =? Z.of_nat g)%Z; lia.
Qed.

Lemma bigsum_scale (f : nat -> Z) (c : Z) (n : nat) :
  bigsum (fun i => (f i * c)%Z) n = (bigsum f n * c)%Z.
Proof. induction n as [|n IH]; cbn [bigsum]; [lia|]. rewrite IH. lia. Qed.

Lemma in_group_total (partition : Tensor Z) (n K i : nat) (z : Z) :
  tget partition [i] = Some z -> (0 <= z)%Z -> Z.to_nat z < K ->
  bigsum (fun g => in_group partition i g) K = 1%Z.
Proof.
  intros Hz Hz0 HzK. rewrite <- (bigsum_indicator K (Z.to_nat z) HzK).
  apply bigsum_ext. intros g Hg. unfold in_group. rewrite Hz.
  destruct (z =? Z.of_nat g)%Z eqn:E1, (g =? Z.to_nat z) eqn:E2; try reflexivity.
  - apply Z.eqb_eq in E1. apply Nat.eqb_neq in E2. lia.
  - apply Z.eqb_neq in E1. apply Nat.eqb_eq in E2. lia.
Qed.

Lemma count_by_group (t : Tensor bool) (partition : Tensor Z) (n m K : nat) :
  wf t -> shape t = [n; m] -> wf partition -> shape partition = [n] ->
  (forall z, In z (data partition) -> (0 <= z)%Z /\ Z.to_nat z < K) ->
  sum_Z (map bool_to_Z (data t)) = bigsum (group_count t partition n m) K.
Proof.
  intros Hwt Hst Hwp Hsp Hids. rewrite (count_cells t n m Hwt Hst).
  unfold group_count.
  transitivity (bigsum (fun i => bigsum (fun g =>
                  (in_group partition i g * row_count t m i)%Z) K) n).
  - apply bigsum_ext. intros i Hi. rewrite bigsum_scale.
    destruct (wf_tget partition [i] Hwp) as [z Hz].
    { rewrite Hsp. apply in_indices1. exists i; auto. }
    assert (Hin : In z (data partition)).
    { rewrite (tget_vec partition n) in Hz by assumption.
      eapply nth_error_In; exact Hz. }
    destruct (Hids z Hin) as [Hz0 HzK].
    match goal with |- context [(bigsum ?f K * _)%Z] =>
      replace (bigsum f K) with 1%Z
        by (symmetry; exact (in_group_total partition n K i z Hz Hz0 HzK)) end.
    unfold row_count. lia.
  - apply (bigsum_swap (fun i g => (in_group partition i g * row_count t m i)%Z)).
Qed.



(** ** The candidates are the greatest cells of their groups *)

Section Candidates.
Context {A : Type} `{NumLaws A}.
Variables (input : Tensor A) (partition : Tensor Z) (n m : nat) (is_max : Tensor bool).
Hypothesis Hwi : wf input.
Hypothesis Hsi : shape input = [n; m].
Hypothesis Hwp : wf partition.
Hypothesis Hsp : shape partition = [n].
Hypothesis Hwim : wf is_max.
Hypothesis Hsim : shape is_max = [n; m].
Hypothesis Hcand : forall i j, i < n -> j < m ->
  exists z x, tget partition [i] = Some z /\ tget input [i; j] = Some x
    /\ tget is_max [i; j] = Some (eqb x (max_list (group_cells input partition z))).

Lemma max_cell_bounds (g : Z) (i j : nat) :
  max_cell input partition g i j -> i < n /\ j < m.
Proof.
  intros [_ [v [Hv _]]]. unfold tget in Hv. rewrite Hsi in Hv. cbn [ravel] in Hv.
  destruct (i <? n) eqn:E1; [|discriminate].
  destruct (j <? m) eqn:E2; [|discriminate].
  apply Nat.ltb_lt in E1, E2. auto.
Qed.

Lemma bcell_max_cell (g : Z) (i j : nat) :
  tget partition [i] = Some g ->
  (bcell is_max i j = 1%Z <-> max_cell input partition g i j).
Proof.
  intros Hg. split.
  - intros Hb.
    assert (Hij : i < n /\ j < m).
    { unfold bcell, tget in Hb. rewrite Hsim in Hb. cbn [ravel] in Hb.
      destruct (i <? n) eqn:E1; [|discriminate].
      destruct (j <? m) eqn:E2; [|discriminate].
      apply Nat.ltb_lt in E1, E2. auto. }
    destruct Hij as [Hi Hj]. destruct (Hcand i j Hi Hj) as [z [x [Hz [Hx Him]]]].
    rewrite Hg in Hz. injection Hz as <-.
    unfold bcell in Hb. rewrite Him in Hb.
    destruct (eqb x (max_list (group_cells input partition g))) eqn:E;
      [|discriminate].
    apply eqb_eq in E. split; [exact Hg|]. exists x. split; [exact Hx|].
    rewrite E. apply group_max_max_list. intros Hnil.
    pose proof (in_group_cells input partition n m i j g x Hwp Hsp Hsi Hg Hx) as Hin.
    rewrite Hnil in Hin. destruct Hin.
  - intros Hmc. destruct (max_cell_bounds g i j Hmc) as [Hi Hj].
    destruct Hmc as [_ [v [Hv Hgm]]].
    destruct (Hcand i j Hi Hj) as [z [x [Hz [Hx Him]]]].
    rewrite Hg in Hz. injection Hz as <-. rewrite Hv in Hx. injection Hx as <-.
    unfold bcell. rewrite Him.
    assert (Hne : group_cells input partition g <> []).
    { intros Hnil. destruct Hgm as [Hin _]. rewrite Hnil in Hin. destruct Hin. }
    rewrite (group_max_unique input partition g v _ Hgm
               (group_max_max_list input partition g Hne)).
    rewrite (proj2 (eqb_eq _ _) eq_refl). reflexivity.
Qed.

(** A group that holds a greatest cell counts at least one candidate. *)
Lemma group_count_ge1 (g i j : nat) :
  max_cell input partition (Z.of_nat g) i j ->
  (1 <= group_count is_max partition n m g)%Z.
Proof.
  intros Hmc. destruct (max_cell_bounds _ i j Hmc) as [Hi Hj].
  pose proof Hmc as [Hg _].
  apply (bcell_max_cell _ i j Hg) in Hmc.
  unfold group_count.
  transitivity (in_group partition i g * row_count is_max m i)%Z.
  - unfold in_group. rewrite Hg, Z.eqb_refl.
    pose proof (bigsum_term (fun j => bcell is_max i j) m j
                  ltac:(intros; apply bcell_range) Hj) as Ht.
    cbv beta in Ht. unfold row_count. lia.
  - apply (bigsum_term (fun i => (in_group partition i g * row_count is_max m i)%Z));
      [|exact Hi].
    intros k _. pose proof (in_group_range partition k g).
    pose proof (row_count_nonneg is_max m k). nia.
Qed.

(** A group with two tied greatest cells counts at least two candidates. *)
Lemma group_count_ge2 (g : nat) :
  tied_group input partition (Z.of_nat g) ->
  (2 <= group_count is_max partition n m g)%Z.
Proof.
  intros [i [j [i' [j' [Hne [Hmc Hmc']]]]]].
  destruct (max_cell_bounds _ i j Hmc) as [Hi Hj].
  destruct (max_cell_bounds _ i' j' Hmc') as [Hi' Hj'].
  pose proof Hmc as [Hg _]. pose proof Hmc' as [Hg' _].
  apply (bcell_max_cell _ i j Hg) in Hmc. apply (bcell_max_cell _ i' j' Hg') in Hmc'.
  assert (Hterm : forall k, k < n ->
            (0 <= in_group partition k g * row_count is_max m k)%Z).
  { intros k _. pose proof (in_group_range partition k g).
    pose proof (row_count_nonneg is_max m k). nia. }
  assert (Hrow : forall r c, r < n -> c < m -> tget partition [r] = Some (Z.of_nat g) ->
            (bcell is_max r c <= in_group partition r g * row_count is_max m r)%Z).
  { intros r c Hr Hc Hgr. unfold in_group. rewrite Hgr, Z.eqb_refl.
    pose proof (bigsum_term (fun j => bcell is_max r j) m c
                  ltac:(intros; apply bcell_range) Hc) as Ht.
    cbv beta in Ht. unfold row_count. lia. }
  unfold group_count.
  destruct (Nat.eq_dec i i') as [<-|Hii].
  - assert (Hjj : j <> j') by (destruct Hne; [contradiction|assumption]).
    transitivity (in_group partition i g * row_count is_max m i)%Z.
    + unfold in_group. rewrite Hg, Z.eqb_refl. unfold row_count.
      destruct (Nat.lt_ge_cases j j') as [Hlt|Hge].
      * pose proof (bigsum_two_terms (fun j => bcell is_max i j) m j j'
                      ltac:(intros; apply bcell_range) Hlt Hj') as Ht.
        cbv beta in Ht. lia.
      * pose proof (bigsum_two_terms (fun j => bcell is_max i j) m j' j
                      ltac:(intros; apply bcell_range) ltac:(lia) Hj) as Ht.
        cbv beta in Ht. lia.
    + apply (bigsum_term (fun i => (in_group partition i g * row_count is_max m i)%Z));
        assumption.
  - pose proof (Hrow i j Hi Hj Hg) as H1. pose proof (Hrow i' j' Hi' Hj' Hg') as H2.
    destruct (Nat.lt_ge_cases i i') as [Hlt|Hge].
    + pose proof (bigsum_two_terms
                    (fun i => (in_group partition i g * row_count is_max m i)%Z)
                    n i i' Hterm Hlt Hi') as Ht.
      cbv beta in Ht. lia.
    + pose proof (bigsum_two_terms
                    (fun i => (in_group partition i g * row_count is_max m i)%Z)
                    n i' i Hterm ltac:(lia) Hi) as Ht.
      cbv beta in Ht. lia.
Qed.

(** A group with a single greatest cell counts at most one candidate. *)
Lemma group_count_le1 (g i j : nat) :
  unique_max_cell input partition (Z.of_nat g) i j ->
  (group_count is_max partition n m g <= 1)%Z.
Proof.
  intros [Hmc Huniq]. destruct (max_cell_bounds _ i j Hmc) as [Hi Hj].
  rewrite <- (bigsum_indicator n i Hi). unfold group_count.
  apply bigsum_le. intros r Hr. unfold in_group.
  destruct (tget partition [r]) as [z|] eqn:Hz; [|destruct (r =? i); lia].
  destruct (z =? Z.of_nat g)%Z eqn:E; [|destruct (r =? i); lia].
  apply Z.eqb_eq in E. subst z. rewrite Z.mul_1_l.
  transitivity (bigsum (fun c => if (r =? i) && (c =? j) then 1%Z else 0%Z) m).
  - unfold row_count. apply bigsum_le. intros c Hc.
    pose proof (bcell_range is_max r c) as Hb.
    destruct (Z.eq_dec (bcell is_max r c) 1) as [E|E].
    + apply (bcell_max_cell _ r c Hz) in E. destruct (Huniq r c E) as [-> ->].
      rewrite !Nat.eqb_refl. cbn. lia.
    + destruct ((r =? i) && (c =? j)); lia.
  - destruct (r =? i) eqn:E; cbn [andb].
    + rewrite (bigsum_indicator m j Hj). lia.
    + rewrite bigsum_zero by reflexivity. lia.
Qed.

End Candidates.

(** ** [segment_argmax]: the assertion *)

Lemma num_segments_max (partition : Tensor Z) :
  sorted_partition partition -> data partition <> [] ->
  Z.of_nat (TF.num_segments (data partition)) = (max_list (data partition) + 1)%Z.
Proof.
  unfold sorted_partition. generalize (data partition) as l.
  intros l [Hp Hs] Hne. rewrite Forall_forall in Hp.
  induction l as [|x l0 _] using rev_ind; [contradiction|].
  rewrite num_segments_last.
  assert (Hlast : nth_error (l0 ++ [x]) (length l0) = Some x).
  { rewrite nth_error_app2 by lia. rewrite Nat.sub_diag. reflexivity. }
  assert (Hx : In x (l0 ++ [x])) by (eapply nth_error_In; exact Hlast).
  rewrite (max_list_greatest (l0 ++ [x]) x Hx).
  - specialize (Hp x Hx). lia.
  - intros y Hy. apply Z.leb_le. apply In_nth_error in Hy. destruct Hy as [i Hi].
    assert (Hlen : i < length (l0 ++ [x])) by (apply nth_error_Some; congruence).
    rewrite length_app in Hlen. cbn in Hlen.
    apply (Hs i (length l0) y x); [lia|exact Hi|exact Hlast].
Qed.

(** [num_partitions] is the number of segments, unless the int64 addition
    wraps to a negative number. *)
Lemma num_partitions_cases (partition : Tensor Z) :
  sorted_partition partition -> data partition <> [] ->
  Forall in_int64 (data partition) ->
  add64 (max_list (data partition)) 1 = Z.of_nat (TF.num_segments (data partition))
  \/ (add64 (max_list (data partition)) 1 < 0)%Z.
Proof.
  intros Hsorted Hne H64. rewrite (num_segments_max partition Hsorted Hne).
  assert (Hin : In (max_list (data partition)) (data partition))
    by (apply max_list_in; exact Hne).
  rewrite Forall_forall in H64. specialize (H64 _ Hin).
  destruct Hsorted as [Hp _]. rewrite Forall_forall in Hp. specialize (Hp _ Hin).
  unfold in_int64, int64_min, int64_max in H64. unfold add64.
  destruct (Z.eq_dec (max_list (data partition)) (2 ^ 63 - 1)) as [E|E].
  - right. rewrite E. reflexivity.
  - left. apply wrap64_id. unfold in_int64, int64_min, int64_max. lia.
Qed.

Lemma assertion_fails {B : Type} (np count : Z) (k : unit -> result B) :
  np <> count ->
  (x <- guard (np =? count)%Z AssertionFailed ;; k x) = Err AssertionFailed.
Proof.
  intros Hne. apply Z.eqb_neq in Hne. rewrite Hne. reflexivity.
Qed.

Section SegmentArgmaxAssertion.
Context {A : Type} `{NumLaws A}.

(** Every id that labels a row has a greatest cell, when rows have cells. *)
Lemma exists_max_cell (input : Tensor A) (partition : Tensor Z) (n m : nat) (g : Z) :
  wf input -> shape input = [n; m] -> wf partition -> shape partition = [n] ->
  1 <= m -> In g (data partition) ->
  exists i j, max_cell input partition g i j.
Proof.
  intros Hwi Hsi Hwp Hsp Hm Hg.
  assert (Hlp : length (data partition) = n).
  { unfold wf in Hwp. rewrite Hwp, Hsp. cbn. lia. }
  apply In_nth_error in Hg. destruct Hg as [r Hr].
  assert (Hrn : r < n) by (rewrite <- Hlp; apply nth_error_Some; congruence).
  assert (Hne : group_cells input partition g <> []).
  { destruct (wf_tget input [r; 0] Hwi) as [x Hx].
    { rewrite Hsi. apply in_indices2. exists r, 0. split; [reflexivity|lia]. }
    intros Hnil.
    assert (Hin : In x (group_cells input partition g)).
    { apply (in_group_cells input partition n m r 0 g x); try assumption.
      rewrite (tget_vec partition n) by assumption. exact Hr. }
    rewrite Hnil in Hin. destruct Hin. }
  pose proof (group_max_max_list input partition g Hne) as Hgm.
  pose proof Hgm as [Hin _]. unfold group_cells in Hin.
  apply in_flat_map in Hin. destruct Hin as [i [Hi Hv]].
  apply in_group_rows in Hi.
  assert (Hin' : i < n) by (rewrite <- Hlp; apply nth_error_Some; congruence).
  apply In_nth_error in Hv. destruct Hv as [j Hj].
  assert (Hjm : j < m).
  { rewrite <- (length_row input n m i Hwi Hsi Hin'). apply nth_error_Some. congruence. }
  exists i, j. split.
  - rewrite (tget_vec partition n) by assumption. exact Hi.
  - exists (max_list (group_cells input partition g)). split; [|exact Hgm].
    rewrite <- (nth_error_row input n m i j Hsi Hin' Hjm). exact Hj.
Qed.


(** C3, on partitions without gaps: when the ids are sorted and every id up
    to the greatest labels a row, [segment_argmax] fails at the assertion as
    soon as one group has two cells tied for its greatest value. *)
Theorem segment_argmax_tie (input : Tensor A) (partition : Tensor Z) (n m : nat)
  (g : Z) :
  wf input -> shape input = [n; m] ->
  wf partition -> shape partition = [n] ->
  Forall in_int64 (data partition) ->
  sorted_partition partition -> dense_partition partition ->
  tied_group input partition g ->
  segment_argmax input partition = Err AssertionFailed.
Proof.
  intros Hwi Hsi Hwp Hsp H64 Hok Hdense Htie.
  destruct (segment_argmax_assert input partition n m Hwi Hsi Hwp Hsp Hok)
    as [is_max [Hsim [Hwim [Hcand ->]]]].
  apply assertion_fails.
  assert (Hids : forall z, In z (data partition) ->
            (0 <= z)%Z /\ Z.to_nat z < TF.num_segments (data partition)).
  { intros z Hz. apply id_lt_num_segments; assumption. }
  rewrite (count_by_group is_max partition n m _ Hwim Hsim Hwp Hsp Hids).
  pose proof Htie as [i [j [_ [_ [_ [Hmc _]]]]]].
  destruct (max_cell_bounds input partition n m Hsi g i j Hmc) as [Hi Hj].
  destruct Hmc as [Hg _].
  assert (Hgin : In g (data partition)).
  { rewrite (tget_vec partition n) in Hg by assumption. eapply nth_error_In; exact Hg. }
  destruct (Hids g Hgin) as [Hg0 HgK].
  assert (Hne : data partition <> []) by (intros E; rewrite E in Hgin; destruct Hgin).
  assert (Hgt : (Z.of_nat (TF.num_segments (data partition))
                 < bigsum (group_count is_max partition n m)
                          (TF.num_segments (data partition)))%Z).
  { apply (bigsum_tie _ _ (Z.to_nat g)).
    - intros g' Hg'.
      assert (Hin : In (Z.of_nat g') (data partition)).
      { apply Hdense; [lia|]. exists (max_list (data partition)).
        split; [apply max_list_in; exact Hne|].
        pose proof (num_segments_max partition Hok Hne). lia. }
      destruct (exists_max_cell input partition n m _ Hwi Hsi Hwp Hsp ltac:(lia) Hin)
        as [i' [j' Hmc']].
      eapply group_count_ge1; eassumption.
    - exact HgK.
    - eapply group_count_ge2; try eassumption.
      rewrite Z2Nat.id by exact Hg0. exact Htie. }
  destruct (num_partitions_cases partition Hok Hne H64) as [E|E]; lia.
Qed.

End SegmentArgmaxAssertion.

(** ** Increasing lists of rows *)

Lemma finite_choice2 (P : nat -> nat -> nat -> Prop) (K : nat) :
  (forall g, g < K -> exists i j, P g i j) ->
  exists r c : nat -> nat, forall g, g < K -> P g (r g) (c g).
Proof.
  induction K as [|K IH]; intros H.
  - exists (fun _ => 0), (fun _ => 0). intros g Hg. lia.
  - destruct IH as [r [c Hrc]]; [intros g Hg; apply H; lia|].
    destruct (H K ltac:(lia)) as [i [j Hij]].
    exists (fun g => if g =? K then i else r g), (fun g => if g =? K then j else c g).
    intros g Hg. destruct (g =? K) eqn:E.
    + apply Nat.eqb_eq in E. subst g. exact Hij.
    + apply Nat.eqb_neq in E. apply Hrc. lia.
Qed.

Lemma increasing_unique (l1 l2 : list nat) :
  StronglySorted lt l1 -> StronglySorted lt l2 ->
  (forall x, In x l1 <-> In x l2) -> l1 = l2.
Proof.
  intros H1. revert l2. induction H1 as [|a l1 Hs1 IH Ha]; intros l2 H2 Hin.
  - destruct l2 as [|b l2]; [reflexivity|].
    destruct (proj2 (Hin b) (or_introl eq_refl)).
  - destruct H2 as [|b l2 Hs2 Hb].
    + destruct (proj1 (Hin a) (or_introl eq_refl)).
    + rewrite Forall_forall in Ha, Hb.
      assert (Hab : a = b).
      { destruct (proj1 (Hin a) (or_introl eq_refl)) as [E|E]; [auto|].
        destruct (proj2 (Hin b) (or_introl eq_refl)) as [E'|E']; [auto|].
        specialize (Ha _ E'). specialize (Hb _ E). lia. }
      subst b. f_equal. apply IH; [exact Hs2|].
      intros x. split; intros Hx.
      * destruct (proj1 (Hin x) (or_intror Hx)) as [E|E]; [|exact E].
        subst x. specialize (Ha _ Hx). lia.
      * destruct (proj2 (Hin x) (or_intror Hx)) as [E|E]; [|exact E].
        subst x. specialize (Hb _ Hx). lia.
Qed.

Lemma increasing_seq (s n : nat) : StronglySorted lt (seq s n).
Proof.
  revert s. induction n as [|n IH]; intros s; cbn; constructor; [apply IH|].
  apply Forall_forall. intros x Hx. apply in_seq in Hx. lia.
Qed.

Lemma increasing_filter (h : nat -> bool) (l : list nat) :
  StronglySorted lt l -> StronglySorted lt (filter h l).
Proof.
  intros Hs. induction Hs as [|a l Hs IH Ha]; cbn; [constructor|].
  destruct (h a); [|exact IH]. constructor; [exact IH|].
  rewrite Forall_forall in *. intros x Hx. apply filter_In in Hx.
  apply Ha. apply Hx.
Qed.

Lemma increasing_map (r : nat -> nat) (K : nat) :
  (forall g g', g < g' -> g' < K -> r g < r g') ->
  StronglySorted lt (map r (seq 0 K)).
Proof.
  intros Hr.
  assert (G : forall s k, s + k <= K -> StronglySorted lt (map r (seq s k))).
  { intros s k; revert s. induction k as [|k IH]; intros s Hs; cbn; constructor.
    - apply IH. lia.
    - apply Forall_forall. intros x Hx. apply in_map_iff in Hx.
      destruct Hx as [g [<- Hg]]. apply in_seq in Hg. apply Hr; lia. }
  apply G. lia.
Qed.

Lemma increasing_ge (r : nat -> nat) (K g : nat) :
  (forall g g', g < g' -> g' < K -> r g < r g') -> g < K -> g <= r g.
Proof.
  intros Hr. induction g as [|g IH]; intros Hg; [lia|].
  specialize (IH ltac:(lia)). specialize (Hr g (S g) ltac:(lia) Hg). lia.
Qed.

(** ** [tf.where] of a boolean vector *)

Lemma indices_vector (n : nat) : indices [n] = map (fun i => [i]) (seq 0 n).
Proof.
  cbn [indices]. generalize 0 as s.
  induction n as [|n IH]; intros s; cbn; [reflexivity|]. rewrite IH. reflexivity.
Qed.

Lemma where_vector (t : Tensor bool) (n : nat) (h : nat -> bool) :
  shape t = [n] -> data t = map h (seq 0 n) ->
  TF.where_ t = mkT [length (filter h (seq 0 n)); 1]
                    (map Z.of_nat (filter h (seq 0 n))).
Proof.
  intros Hsh Hd. unfold TF.where_. rewrite Hsh, Hd, indices_vector.
  assert (G : forall l : list nat,
            concat (map fst (filter snd (combine (map (fun i => [i]) l) (map h l))))
            = filter h l).
  { induction l as [|i l IH]; [reflexivity|]. cbn [map combine filter snd].
    destruct (h i); cbn [map fst concat app]; rewrite IH; reflexivity. }
  assert (L : forall l : list nat,
            length (map fst (filter snd (combine (map (fun i => [i]) l) (map h l))))
            = length (filter h l)).
  { induction l as [|i l IH]; [reflexivity|]. cbn [map combine filter snd].
    destruct (h i); cbn [map fst length]; rewrite IH; reflexivity. }
  rewrite G, L. reflexivity.
Qed.

(** ** [tf.argmax] of a row with a single 1 *)

Lemma argmax_from_zeros (l : list Z) (best : Z) (bi i : nat) :
  (0 <= best)%Z -> (forall x, In x l -> x = 0%Z) ->
  TF.argmax_from best bi i l = bi.
Proof.
  revert i. induction l as [|x l IH]; intros i Hb Hl; [reflexivity|].
  cbn [TF.argmax_from]. rewrite (Hl x (or_introl eq_refl)).
  replace (leb 0%Z best) with true by (symmetry; apply Z.leb_le; exact Hb).
  apply IH; [exact Hb|]. intros y Hy. apply Hl. right; exact Hy.
Qed.

Lemma argmax_from_one (k k' : nat) (bi i : nat) :
  TF.argmax_from 0%Z bi i (repeat 0%Z k ++ 1%Z :: repeat 0%Z k') = i + k.
Proof.
  revert i. induction k as [|k IH]; intros i.
  - cbn [repeat app TF.argmax_from]. change (leb 1%Z 0%Z) with false. cbv iota.
    rewrite argmax_from_zeros
      by (try lia; intros x Hx; apply repeat_spec in Hx; exact Hx).
    lia.
  - cbn [repeat app TF.argmax_from]. change (leb 0%Z 0%Z) with true. cbv iota.
    rewrite IH. lia.
Qed.

Lemma argmax_single (l : list bool) (c : nat) :
  c < length l -> (forall j, j < length l -> nth_error l j = Some (j =? c)) ->
  TF.argmax_list (map bool_to_Z l) = Ok (Z.of_nat c).
Proof.
  intros Hc Hl.
  assert (E : map bool_to_Z l
              = repeat 0%Z c ++ 1%Z :: repeat 0%Z (length l - c - 1)).
  { apply nth_error_ext. intros j. rewrite nth_error_map.
    destruct (Nat.lt_ge_cases j (length l)) as [Hj|Hj].
    - rewrite (Hl j Hj). cbn [option_map].
      destruct (Nat.lt_trichotomy j c) as [Hlt|[->|Hgt]].
      + rewrite nth_error_app1 by (rewrite repeat_length; exact Hlt).
        rewrite nth_error_repeat by exact Hlt.
        replace (j =? c) with false by (symmetry; apply Nat.eqb_neq; lia).
        reflexivity.
      + rewrite nth_error_app2 by (rewrite repeat_length; lia).
        rewrite repeat_length, Nat.sub_diag, Nat.eqb_refl. reflexivity.
      + rewrite nth_error_app2 by (rewrite repeat_length; lia).
        rewrite repeat_length. destruct (j - c) as [|d] eqn:Ed; [lia|].
        cbn [nth_error]. rewrite nth_error_repeat by lia.
        replace (j =? c) with false by (symmetry; apply Nat.eqb_neq; lia).
        reflexivity.
    - rewrite (proj2 (nth_error_None l j) Hj). symmetry. apply nth_error_None.
      rewrite length_app. cbn [length]. rewrite !repeat_length. lia. }
  rewrite E. destruct c as [|c].
  - cbn [repeat app TF.argmax_list].
    rewrite argmax_from_zeros
      by (try lia; intros x Hx; apply repeat_spec in Hx; exact Hx).
    reflexivity.
  - cbn [repeat app TF.argmax_list]. rewrite argmax_from_one. reflexivity.
Qed.

(** ** [segment_argmax]: the rows and columns *)

Lemma bcell_true (t : Tensor bool) (i j : nat) :
  bcell t i j = 1%Z <-> tget t [i; j] = Some true.
Proof.
  unfold bcell. destruct (tget t [i; j]) as [[|]|]; split; intros E;
    try reflexivity; try discriminate.
Qed.

Section SegmentArgmaxResult.
Context {A : Type} `{NumLaws A}.
Variables (input : Tensor A) (partition : Tensor Z) (n m K : nat)
  (is_max : Tensor bool) (r c : nat -> nat).
Hypothesis Hwi : wf input.
Hypothesis Hsi : shape input = [n; m].
Hypothesis Hwp : wf partition.
Hypothesis Hsp : shape partition = [n].
Hypothesis Hsorted : sorted_partition partition.
Hypothesis HK : K = TF.num_segments (data partition).
Hypothesis Hwim : wf is_max.
Hypothesis Hsim : shape is_max = [n; m].
Hypothesis Hcand : forall i j, i < n -> j < m ->
  exists z x, tget partition [i] = Some z /\ tget input [i; j] = Some x
    /\ tget is_max [i; j] = Some (eqb x (max_list (group_cells input partition z))).
Hypothesis Hrc : forall g, g < K ->
  unique_max_cell input partition (Z.of_nat g) (r g) (c g).

Lemma max_row_facts (g : nat) :
  g < K ->
  r g < n /\ c g < m /\ nth_error (data partition) (r g) = Some (Z.of_nat g)
  /\ tget is_max [r g; c g] = Some true.
Proof.
  intros Hg. destruct (Hrc g Hg) as [Hmc _].
  destruct (max_cell_bounds input partition n m Hsi _ _ _ Hmc) as [Hi Hj].
  pose proof Hmc as [Hid _].
  split; [exact Hi|]. split; [exact Hj|]. split.
  - rewrite <- (tget_vec partition n) by assumption. exact Hid.
  - apply bcell_true. eapply bcell_max_cell; eassumption.
Qed.

Lemma max_row_increasing (g g' : nat) : g < g' -> g' < K -> r g < r g'.
Proof.
  intros Hlt Hg'.
  destruct (max_row_facts g ltac:(lia)) as [_ [_ [Hid _]]].
  destruct (max_row_facts g' Hg') as [_ [_ [Hid' _]]].
  destruct (Nat.lt_ge_cases (r g) (r g')) as [Hr|Hr]; [exact Hr|].
  destruct Hsorted as [_ Hs].
  - specialize (Hs (r g') (r g) _ _ Hr Hid' Hid).
    destruct (Nat.eq_dec (r g) (r g')) as [E|E]; [|lia].
    rewrite E in Hid. rewrite Hid in Hid'. injection Hid' as E'. lia.
Qed.

(** The single candidate of a row that holds one. *)
Lemma max_row_cells (g j : nat) :
  g < K -> j < m -> tget is_max [r g; j] = Some (j =? c g).
Proof.
  intros Hg Hj. destruct (max_row_facts g Hg) as [Hi [Hc [Hid Htrue]]].
  destruct (Hrc g Hg) as [Hmc Huniq].
  destruct (Nat.eq_dec j (c g)) as [->|Hne]; [rewrite Nat.eqb_refl; exact Htrue|].
  replace (j =? c g) with false by (symmetry; apply Nat.eqb_neq; exact Hne).
  destruct (wf_tget is_max [r g; j] Hwim) as [b Hb].
  { rewrite Hsim. apply in_indices2. exists (r g), j. auto. }
  destruct b; [|exact Hb]. exfalso. apply Hne.
  apply bcell_true in Hb.
  assert (Hid' : tget partition [r g] = Some (Z.of_nat g)).
  { rewrite (tget_vec partition n) by assumption. exact Hid. }
  apply (bcell_max_cell input partition n m is_max Hsi Hwp Hsp Hsim Hcand
           _ _ _ Hid') in Hb.
  apply (Huniq _ _ Hb).
Qed.

(** The rows that hold a candidate are the rows of the greatest cells. *)
Lemma selected_rows (i : nat) :
  i < n ->
  (existsb (fun b => b) (row is_max i) = true <-> exists g, g < K /\ i = r g).
Proof.
  intros Hi. split.
  - intros Hex. apply existsb_exists in Hex. destruct Hex as [b [Hin Hb]]. subst b.
    apply In_nth_error in Hin. destruct Hin as [j Hj].
    assert (Hjm : j < m).
    { rewrite <- (length_row is_max n m i Hwim Hsim Hi). apply nth_error_Some.
      congruence. }
    rewrite (nth_error_row is_max n m i j Hsim Hi Hjm) in Hj.
    destruct (wf_tget partition [i] Hwp) as [z Hz].
    { rewrite Hsp. apply in_indices1. exists i; auto. }
    apply bcell_true in Hj.
    apply (bcell_max_cell input partition n m is_max Hsi Hwp Hsp Hsim Hcand
             _ _ _ Hz) in Hj.
    assert (Hzin : In z (data partition)).
    { rewrite (tget_vec partition n) in Hz by assumption.
      eapply nth_error_In; exact Hz. }
    destruct (id_lt_num_segments partition z Hsorted Hzin) as [Hz0 HzK].
    rewrite <- HK in HzK. exists (Z.to_nat z). split; [exact HzK|].
    destruct (Hrc _ HzK) as [_ Huniq]. rewrite Z2Nat.id in Huniq by exact Hz0.
    apply (Huniq _ _ Hj).
  - intros [g [Hg ->]]. destruct (max_row_facts g Hg) as [_ [Hc [_ Htrue]]].
    apply existsb_exists. exists true. split; [|reflexivity].
    rewrite <- (nth_error_row is_max n m (r g) (c g) Hsim Hi Hc) in Htrue.
    eapply nth_error_In; exact Htrue.
Qed.

Lemma selected_rows_list :
  filter (fun i => existsb (fun b => b) (row is_max i)) (seq 0 n)
  = map r (seq 0 K).
Proof.
  apply increasing_unique.
  - apply increasing_filter, increasing_seq.
  - apply increasing_map. exact max_row_increasing.
  - intros x. rewrite filter_In, in_seq, in_map_iff. split.
    + intros [Hx Hex]. apply (selected_rows x ltac:(lia)) in Hex.
      destruct Hex as [g [Hg ->]]. exists g. split; [reflexivity|].
      apply in_seq. lia.
    + intros [g [<- Hg]]. apply in_seq in Hg.
      destruct (max_row_facts g ltac:(lia)) as [Hi _].
      split; [lia|]. apply (selected_rows (r g) Hi). exists g. split; [lia|reflexivity].
Qed.

Lemma groups_le_rows : K <= n.
Proof.
  destruct (Nat.eq_dec K 0) as [E|E]; [lia|].
  pose proof (increasing_ge r K (K - 1) max_row_increasing ltac:(lia)) as Hge.
  destruct (max_row_facts (K - 1) ltac:(lia)) as [Hi _]. lia.
Qed.

(** One candidate per group: the count is the number of groups. *)
Lemma candidates_count :
  sum_Z (map bool_to_Z (data is_max)) = Z.of_nat K.
Proof.
  rewrite (count_by_group is_max partition n m K Hwim Hsim Hwp Hsp).
  - rewrite (bigsum_ext _ (fun _ => 1%Z)); [rewrite bigsum_const; lia|].
    intros g Hg. destruct (Hrc g Hg) as [Hmc Huniq].
    pose proof (group_count_le1 input partition n m is_max Hsi Hwp Hsp Hsim Hcand
                  g _ _ (conj Hmc Huniq)).
    pose proof (group_count_ge1 input partition n m is_max Hsi Hwp Hsp Hsim Hcand
                  g _ _ Hmc).
    lia.
  - intros z Hz. rewrite HK. apply id_lt_num_segments; assumption.
Qed.

End SegmentArgmaxResult.

Lemma row_eq {X : Type} (t u : Tensor X) (n n' m i i' : nat) :
  wf t -> shape t = [n; m] -> wf u -> shape u = [n'; m] -> i < n -> i' < n' ->
  (forall j, j < m -> tget t [i; j] = tget u [i'; j]) ->
  row t i = row u i'.
Proof.
  intros Hwt Hst Hwu Hsu Hi Hi' Hc. apply nth_error_ext. intros j.
  destruct (Nat.lt_ge_cases j m) as [Hj|Hj].
  - rewrite (nth_error_row t n m), (nth_error_row u n' m) by assumption.
    apply Hc; exact Hj.
  - rewrite (proj2 (nth_error_None (row t i) j))
      by (rewrite (length_row t n m) by assumption; lia).
    rewrite (proj2 (nth_error_None (row u i') j))
      by (rewrite (length_row u n' m) by assumption; lia).
    reflexivity.
Qed.

(** C2, as amended: for a 2-D input of shape [n, m] and a partition vector of
    length [n] with non-negative ids in non-decreasing order and at least two
    groups (greatest id [M >= 1]), such that every group [0 .. M] has exactly
    one cell holding its greatest value, [segment_argmax] returns
    [(row_indices, col_indices)] of length [M + 1] where [row_indices[g]] and
    [col_indices[g]] are the row and the column of that cell of group [g]. *)
Theorem segment_argmax_spec {A : Type} `{NumLaws A} (input : Tensor A)
  (partition : Tensor Z) (n m : nat) (M : Z) :
  wf input -> shape input = [n; m] ->
  wf partition -> shape partition = [n] ->
  (Z.of_nat n <= int64_max)%Z ->
  sorted_partition partition ->
  greatest_entry partition M -> (1 <= M)%Z ->
  (forall g, (0 <= g <= M)%Z -> exists i j, unique_max_cell input partition g i j) ->
  segment_argmax_post input partition M.
Proof.
  intros Hwi Hsi Hwp Hsp Hn64 Hsorted [HMin HMle] HM1 Huniq.
  set (K := TF.num_segments (data partition)).
  assert (Hne : data partition <> []) by (intros E; rewrite E in HMin; destruct HMin).
  assert (HKM : Z.of_nat K = (M + 1)%Z).
  { unfold K. rewrite (num_segments_max partition Hsorted Hne).
    rewrite (max_list_greatest (data partition) M HMin); [reflexivity|].
    intros x Hx. apply Z.leb_le. apply HMle; exact Hx. }
  assert (HmaxM : max_list (data partition) = M).
  { pose proof (num_segments_max partition Hsorted Hne). fold K in H1. lia. }
  destruct (finite_choice2
              (fun g i j => unique_max_cell input partition (Z.of_nat g) i j) K)
    as [r [c Hrc]].
  { intros g Hg. apply Huniq. lia. }
  destruct (segment_argmax_assert input partition n m Hwi Hsi Hwp Hsp Hsorted)
    as [is_max [Hsim [Hwim [Hcand Heq]]]].
  assert (Hfacts : forall g, g < K ->
            r g < n /\ c g < m /\ nth_error (data partition) (r g) = Some (Z.of_nat g)
            /\ tget is_max [r g; c g] = Some true).
  { intros g Hg. eapply max_row_facts; eauto. }
  assert (HKn : K <= n) by (eapply groups_le_rows; eauto).
  (* the assertion passes *)
  assert (Hassert : (add64 (max_list (data partition)) 1
                     =? sum_Z (map bool_to_Z (data is_max)))%Z = true).
  { apply Z.eqb_eq.
    rewrite (candidates_count input partition n m K is_max r c) by eauto.
    rewrite HmaxM, HKM. unfold add64. apply wrap64_id.
    unfold in_int64, int64_min, int64_max in *. lia. }
  rewrite Hassert in Heq. cbn [guard bind] in Heq. unfold TF.reduce_any in Heq.
  (* the selected rows *)
  destruct (reduce_rows (fun l => Ok (existsb (fun b : bool => b) l)) is_max n m false
              Hwim Hsim) as [row_selected [Hrs [Hsrs [Hwrs Hrrs]]]].
  { intros i Hi. eexists; reflexivity. }
  rewrite Hrs in Heq. cbn [bind] in Heq.
  pose proof (vec_data row_selected n
                (fun i => existsb (fun b : bool => b) (row is_max i)) Hwrs Hsrs Hrrs)
    as Hdrs.
  rewrite (where_vector row_selected n _ Hsrs Hdrs) in Heq.
  rewrite (selected_rows_list input partition n m K is_max r c) in Heq by eauto.
  unfold TF.squeeze_all in Heq. cbn [shape data filter] in Heq.
  rewrite length_map, length_seq in Heq.
  replace (K =? 1) with false in Heq by (symmetry; apply Nat.eqb_neq; lia).
  cbn [negb Nat.eqb] in Heq.
  set (row_indices := mkT [K] (map Z.of_nat (map r (seq 0 K)))) in Heq.
  assert (Hri : forall g, g < K -> tread row_indices [g] = Ok (Z.of_nat (r g))).
  { intros g Hg. unfold tread.
    rewrite (tget_at row_indices _ g) by (apply ravel1; exact Hg).
    unfold row_indices. cbn [data]. rewrite !nth_error_map, nth_error_seq.
    apply Nat.ltb_lt in Hg. rewrite Hg. reflexivity. }
  (* their candidates *)
  destruct (gather_reads is_max row_indices n [m] Hsim) as [sel [Hsel [Hssel [Hwsel Hrsel]]]].
  { intros I HI. cbn [shape row_indices app length] in HI |- *.
    apply in_indices2 in HI. destruct HI as [g [j [-> [Hg Hj]]]].
    cbn [firstn skipn]. destruct (Hfacts g Hg) as [Hi _].
    destruct (wf_tread is_max [r g; j] Hwim) as [b Hb].
    { rewrite Hsim. apply in_indices2. exists (r g), j. auto. }
    exists (Z.of_nat (r g)), b. rewrite Nat2Z.id. repeat split; [apply Hri; exact Hg|lia|exact Hb]. }
  rewrite Hsel in Heq. cbn [bind] in Heq.
  cbn [shape row_indices app length] in Hssel, Hrsel.
  assert (Hselcell : forall g j, g < K -> j < m ->
            tget sel [g; j] = Some (j =? c g)).
  { intros g j Hg Hj.
    destruct (Hrsel [g; j]) as [z [Hz Hread]].
    { apply in_indices2. exists g, j. auto. }
    cbn [firstn skipn] in Hz, Hread. rewrite (Hri g Hg) in Hz. injection Hz as <-.
    rewrite Nat2Z.id in Hread. apply tread_inj in Hread. rewrite Hread.
    eapply max_row_cells; eauto. }
  (* the column of the candidate of every selected row *)
  unfold TF.argmax in Heq.
  destruct (reduce_rows TF.argmax_list (tmap bool_to_Z sel) K m false
              (wf_tmap _ _ Hwsel) Hssel) as [cols [Hcols [Hscols [Hwcols Hrcols]]]].
  { intros g Hg. exists (Z.of_nat (c g)).
    rewrite (row_eq_map bool_to_Z sel (tmap bool_to_Z sel) K m g)
      by (try assumption; try (apply wf_tmap; assumption);
          intros j Hj; apply tread_tmap).
    destruct (Hfacts g Hg) as [_ [Hc _]].
    apply argmax_single.
    - rewrite (length_row sel K m g) by assumption. exact Hc.
    - intros j Hj. rewrite (length_row sel K m g) in Hj by assumption.
      rewrite (nth_error_row sel K m g j) by assumption. apply Hselcell; assumption. }
  rewrite Hcols in Heq. cbn [bind] in Heq.
  exists row_indices, cols. split; [exact Heq|].
  assert (HK1 : K = Z.to_nat M + 1) by lia.
  split; [cbn [shape row_indices]; rewrite HK1; reflexivity|].
  split; [rewrite Hscols, HK1; reflexivity|].
  intros g Hg.
  assert (HgK : Z.to_nat g < K) by lia.
  exists (r (Z.to_nat g)), (c (Z.to_nat g)). split.
  - pose proof (Hrc _ HgK) as Hu. rewrite Z2Nat.id in Hu by lia. exact Hu.
  - split.
    + apply tread_Ok. apply Hri; exact HgK.
    + apply tread_Ok. rewrite (Hrcols _ HgK).
      rewrite (row_eq_map bool_to_Z sel (tmap bool_to_Z sel) K m (Z.to_nat g))
        by (try assumption; try (apply wf_tmap; assumption);
            intros j Hj; apply tread_tmap).
      destruct (Hfacts _ HgK) as [_ [Hc _]].
      apply argmax_single.
      * rewrite (length_row sel K m) by assumption. exact Hc.
      * intros j Hj. rewrite (length_row sel K m) in Hj by assumption.
        rewrite (nth_error_row sel K m _ j) by assumption. apply Hselcell; assumption.
Qed.

(** ** [segment_argmax] on concrete inputs *)

Lemma unique_max_cell_intro {A : Type} `{NumLaws A} (input : Tensor A)
  (partition : Tensor Z) (n m : nat) (g : Z) (i j : nat) (v : A) :
  wf partition -> shape partition = [n] -> shape input = [n; m] ->
  tget partition [i] = Some g -> tget input [i; j] = Some v ->
  (forall x, In x (group_cells input partition g) -> leb x v = true) ->
  (forall i' j', i' < n -> j' < m -> tget partition [i'] = Some g ->
     tget input [i'; j'] = Some v -> i' = i /\ j' = j) ->
  unique_max_cell input partition g i j.
Proof.
  intros Hwp Hsp Hsi Hg Hv Hle Hu.
  assert (Hgm : group_max input partition g v).
  { split; [|exact Hle]. eapply in_group_cells; eassumption. }
  split.
  - split; [exact Hg|]. exists v. split; [exact Hv|exact Hgm].
  - intros i' j' Hmc. destruct (max_cell_bounds input partition n m Hsi _ _ _ Hmc)
      as [Hi' Hj'].
    destruct Hmc as [Hg' [w [Hw Hgw]]].
    rewrite (group_max_unique input partition g w v Hgw Hgm) in Hw.
    apply Hu; assumption.
Qed.

Ltac check_cells :=
  intros x Hx; vm_compute in Hx;
  repeat (destruct Hx as [Hx|Hx]; [subst x; reflexivity|]); destruct Hx.

Ltac check_unique :=
  let i := fresh "i" in
  let j := fresh "j" in
  let Hi := fresh "Hi" in
  let Hj := fresh "Hj" in
  let Hp := fresh "Hp" in
  let Hv := fresh "Hv" in
  intros i j Hi Hj Hp Hv;
  repeat (destruct i as [|i]; [|try lia]);
  repeat (destruct j as [|j]; [|try lia]);
  vm_compute in Hp; vm_compute in Hv;
  try discriminate; try (split; reflexivity).

Lemma segment_argmax_spec_witness :
  segment_argmax_post (mkT [3; 2] [1; 2; 5; 3; 4; 7]%Z) (vector [0; 0; 1]%Z) 1.
Proof.
  apply (segment_argmax_spec (mkT [3; 2] [1; 2; 5; 3; 4; 7]%Z)
           (vector [0; 0; 1]%Z) 3 2 1).
  - reflexivity.
  - reflexivity.
  - reflexivity.
  - reflexivity.
  - vm_compute; discriminate.
  - apply segment_ids_ok_iff. reflexivity.
  - split; [simpl; auto|]. intros z Hz. simpl in Hz. lia.
  - lia.
  - intros g Hg.
    assert (Hcases : g = 0%Z \/ g = 1%Z) by lia.
    destruct Hcases as [-> | ->].
    + exists 1, 0.
      apply (unique_max_cell_intro _ _ 3 2 _ _ _ 5%Z);
        try reflexivity; [check_cells|check_unique].
    + exists 2, 1.
      apply (unique_max_cell_intro _ _ 3 2 _ _ _ 7%Z);
        try reflexivity; [check_cells|check_unique].
Defined.



Lemma max_cell_intro {A : Type} `{NumLaws A} (input : Tensor A)
  (partition : Tensor Z) (n m : nat) (g : Z) (i j : nat) (v : A) :
  wf partition -> shape partition = [n] -> shape input = [n; m] ->
  tget partition [i] = Some g -> tget input [i; j] = Some v ->
  (forall x, In x (group_cells input partition g) -> leb x v = true) ->
  max_cell input partition g i j.
Proof.
  intros Hwp Hsp Hsi Hg Hv Hle. split; [exact Hg|]. exists v.
  split; [exact Hv|]. split; [|exact Hle]. eapply in_group_cells; eassumption.
Qed.

Lemma segment_argmax_tie_witness :
  segment_argmax (mkT [2; 2] [1; 1; 3; 4]%Z) (vector [0; 1]%Z) = Err AssertionFailed.
Proof.
  apply (segment_argmax_tie (mkT [2; 2] [1; 1; 3; 4]%Z) (vector [0; 1]%Z) 2 2 0%Z).
  - reflexivity.
  - reflexivity.
  - reflexivity.
  - reflexivity.
  - repeat constructor; vm_compute; discriminate.
  - apply segment_ids_ok_iff. reflexivity.
  - intros g Hg [z [Hz Hgz]]. simpl in Hz |- *.
    destruct Hz as [<-|[<-|[]]]; lia.
  - exists 0, 0, 0, 1. split; [right; lia|].
    split; apply (max_cell_intro _ _ 2 2 _ _ _ 1%Z); try reflexivity; check_cells.
Defined.

(** C3 as stated fails on a partition with a gap: the two tied cells of group
    0 make up for the id 1 that labels no row, the assertion passes and a
    result is returned. *)
Lemma segment_argmax_tie_undetected :
  tied_group (mkT [2; 2] [1; 1; 3; 4]%Z) (vector [0; 2]%Z) 0
  /\ sorted_partition (vector [0; 2]%Z)
  /\ segment_argmax (mkT [2; 2] [1; 1; 3; 4]%Z) (vector [0; 2]%Z)
     = Ok (mkT [2] [0; 1]%Z, mkT [2] [0; 1]%Z).
Proof.
  split; [|split; [apply segment_ids_ok_iff; reflexivity|reflexivity]].
  exists 0, 0, 0, 1. split; [right; lia|].
  split; apply (max_cell_intro _ _ 2 2 _ _ _ 1%Z); try reflexivity; check_cells.
Qed.

(** C2 as stated fails on a partition whose groups are contiguous but not in
    increasing order of their ids. *)
Lemma segment_argmax_counterexample :
  wf (mkT [2; 1] [1; 2]%Z) /\ shape (mkT [2; 1] [1; 2]%Z) = [2; 1]
  /\ wf (vector [1; 0]%Z) /\ shape (vector [1; 0]%Z) = [2]
  /\ contiguous_partition (vector [1; 0]%Z)
  /\ greatest_entry (vector [1; 0]%Z) 1
  /\ (forall g, (0 <= g <= 1)%Z ->
        exists i j, unique_max_cell (mkT [2; 1] [1; 2]%Z) (vector [1; 0]%Z) g i j)
  /\ segment_argmax (mkT [2; 1] [1; 2]%Z) (vector [1; 0]%Z) = Err InvalidArgument
  /\ ~ segment_argmax_post (mkT [2; 1] [1; 2]%Z) (vector [1; 0]%Z) 1.
Proof.
  split; [reflexivity|]. split; [reflexivity|]. split; [reflexivity|].
  split; [reflexivity|]. split.
  { intros i j k x Hijk Hi Hk.
    assert (Hik : i = k).
    { destruct i as [|[|[|i]]], k as [|[|[|k]]]; cbn in Hi, Hk;
        try discriminate; try congruence; reflexivity. }
    subst k. assert (j = i) by lia. subst j. exact Hi. }
  split.
  { split; [simpl; auto|]. intros z Hz. simpl in Hz. lia. }
  split.
  { intros g Hg.
    assert (Hcases : g = 0%Z \/ g = 1%Z) by lia.
    destruct Hcases as [-> | ->].
    - exists 1, 0.
      apply (unique_max_cell_intro _ _ 2 1 _ _ _ 2%Z);
        try reflexivity; [check_cells|check_unique].
    - exists 0, 0.
      apply (unique_max_cell_intro _ _ 2 1 _ _ _ 1%Z);
        try reflexivity; [check_cells|check_unique]. }
  split; [reflexivity|].
  intros [rows [cols [Hr _]]]. vm_compute in Hr. discriminate.
Qed.

(** With a single group the row indices collapse to a 0-dim tensor and the
    column lookup fails. *)
Lemma segment_argmax_single_group :
  segment_argmax (mkT [1; 2] [1; 2]%Z) (vector [0%Z]) = Err InvalidArgument.
Proof. reflexivity. Qed.

(** [gather_rowwise_2d] on a literal input: cell [(i, k)] of the result is
    [input[i, indices[i, k]]]. *)
Example gather_rowwise_2d_example :
  gather_rowwise_2d (mkT [2; 3] [1; 2; 3; 4; 5; 6]%Z) (mkT [2; 2] [2; 0; 1; 1]%Z)
  = Ok (mkT [2; 2] [3; 1; 5; 5]%Z).
Proof. reflexivity. Qed.

(** * Further properties of the helpers *)

(** ** Success and failure of a composition *)

Lemma bind_Ok {A B : Type} (c : result A) (k : A -> result B) (b : B) :
  (x <- c ;; k x) = Ok b -> exists a, c = Ok a /\ k a = Ok b.
Proof. destruct c as [a|e]; cbn; [eauto|discriminate]. Qed.

Lemma guard_Ok (b : bool) (e : error) (u : unit) : guard b e = Ok u -> b = true.
Proof. destruct b; [reflexivity|discriminate]. Qed.

Lemma invalid_bind {A B : Type} (c : result A) (k : A -> result B) :
  invalid_only c -> (forall a, c = Ok a -> invalid_only (k a)) ->
  invalid_only (x <- c ;; k x).
Proof.
  intros Hc Hk e. destruct c as [a|e']; cbn.
  - apply Hk. reflexivity.
  - intros E. injection E as <-. apply Hc. reflexivity.
Qed.

Lemma invalid_Ok {A : Type} (a : A) : invalid_only (Ok a).
Proof. intros e E. discriminate. Qed.

Lemma invalid_Err {A : Type} : invalid_only (@Err A InvalidArgument).
Proof. intros e E. injection E as <-. reflexivity. Qed.

Lemma invalid_guard (b : bool) : invalid_only (guard b InvalidArgument).
Proof. destruct b; [apply invalid_Ok|apply invalid_Err]. Qed.

Lemma invalid_of_option {A : Type} (o : option A) :
  invalid_only (of_option o InvalidArgument).
Proof. destruct o; [apply invalid_Ok|apply invalid_Err]. Qed.

Lemma invalid_tread {A : Type} (t : Tensor A) (I : list nat) : invalid_only (tread t I).
Proof. apply invalid_of_option. Qed.

Lemma invalid_mapM {A B : Type} (f : A -> result B) (l : list A) :
  (forall x, In x l -> invalid_only (f x)) -> invalid_only (mapM f l).
Proof.
  induction l as [|x r IH]; intros Hf; cbn [mapM].
  - apply invalid_Ok.
  - apply invalid_bind; [apply Hf; left; reflexivity|]. intros y _.
    apply invalid_bind; [apply IH; intros z Hz; apply Hf; right; exact Hz|].
    intros ys _. apply invalid_Ok.
Qed.

Lemma invalid_tbuild {A : Type} (sh : list nat) (f : list nat -> result A) :
  (forall I, In I (indices sh) -> invalid_only (f I)) -> invalid_only (tbuild sh f).
Proof.
  intros Hf. unfold tbuild. apply invalid_bind; [apply invalid_mapM; exact Hf|].
  intros cells _. apply invalid_Ok.
Qed.

(** One failing cell makes the whole tensor fail. *)
Lemma mapM_fails {A B : Type} (f : A -> result B) (l : list A) (x : A) (e : error) :
  In x l -> f x = Err e -> exists e', mapM f l = Err e'.
Proof.
  induction l as [|y r IH]; intros Hin Hx; [destruct Hin|].
  cbn [mapM]. destruct (f y) as [b|e1] eqn:Ey; [|eexists; reflexivity].
  destruct Hin as [->|Hin]; [congruence|].
  destruct (IH Hin Hx) as [e' ->]. eexists; reflexivity.
Qed.

Lemma tbuild_fails {A : Type} (sh : list nat) (f : list nat -> result A)
  (I : list nat) (e : error) :
  (forall J, In J (indices sh) -> invalid_only (f J)) ->
  In I (indices sh) -> f I = Err e -> tbuild sh f = Err InvalidArgument.
Proof.
  intros Hf HI HE. destruct (tbuild sh f) as [t|e'] eqn:Et.
  - unfold tbuild in Et. destruct (mapM_fails f _ I e HI HE) as [e1 E1].
    rewrite E1 in Et. discriminate.
  - f_equal. apply (invalid_tbuild sh f Hf). exact Et.
Qed.

Lemma invalid_binop {A B C : Type} (f : A -> B -> C) (a : Tensor A) (b : Tensor B) :
  invalid_only (TF.binop f a b).
Proof.
  unfold TF.binop. destruct (TF.broadcast_shape (shape a) (shape b)); [|apply invalid_Err].
  apply invalid_tbuild. intros I _.
  apply invalid_bind; [apply invalid_tread|]. intros x _.
  apply invalid_bind; [apply invalid_tread|]. intros y _. apply invalid_Ok.
Qed.

Lemma invalid_gather {A : Type} (params : Tensor A) (idx : Tensor Z) :
  invalid_only (TF.gather params idx).
Proof.
  unfold TF.gather. destruct (shape params); [apply invalid_Err|].
  apply invalid_tbuild. intros I _.
  apply invalid_bind; [apply invalid_tread|]. intros x _.
  apply invalid_bind; [apply invalid_guard|]. intros y _. apply invalid_tread.
Qed.

(** ** [get_by_index] without bounds checks *)

(** [get_by_index] reads row [i * d2 + index[i] - 1] of the tensor flattened to
    [d1 * d2] rows; [q i] is that row. *)
Lemma get_by_index_cells {A : Type} (tensor : Tensor A) (index : Tensor Z)
  (d1 d2 d3 : nat) (q : nat -> nat) :
  wf tensor -> shape32 tensor -> shape tensor = [d1; d2; d3] ->
  wf index -> shape index = [d1] ->
  1 <= d3 -> (Z.of_nat (d1 * d2) <= int32_max + 1)%Z ->
  (forall i, i < d1 ->
     exists v, tget index [i] = Some v
       /\ Z.of_nat (q i) = (Z.of_nat (i * d2) + (v - 1))%Z /\ q i < d1 * d2) ->
  exists r, get_by_index tensor index = Ok r /\ shape r = [d1; d3] /\ wf r /\
    forall i k, i < d1 -> k < d3 ->
      tget r [i; k] = tget tensor [q i / d2; q i mod d2; k].
Proof.
  intros Hwf H32 Hsh Hwfi Hshi Hd3 Hflat Hidx.
  destruct (shape32_3 _ _ _ _ Hsh H32) as [B1 [B2 B3]].
  unfold get_by_index. rewrite (shape_ok _ H32), Hsh.
  cbn [map vector TF.unpack shape data bind length].
  rewrite (range_ok d1 B1). cbn [bind].
  set (rng := vector (map Z.of_nat (seq 0 d1))).
  assert (Hrs : shape rng = [d1]).
  { unfold rng, vector. cbn. rewrite length_map, length_seq. reflexivity. }
  destruct (binop_scalar mul32 rng (Z.of_nat d2) (wf_vector _))
    as [scaled [-> [Hss [Hws Hrs']]]].
  destruct (binop_scalar sub32 index 1%Z Hwfi) as [index0 [-> [Hs0 [Hw0 Hr0]]]].
  cbn [bind].
  destruct (binop_same add32 scaled index0 Hws Hw0) as [fl [-> [Hsf [Hwff Hrf]]]].
  { congruence. }
  cbn [bind].
  rewrite (reshape_rows tensor (d1 * d2) d3)
    by (unfold wf in Hwf; rewrite ?Hwf, ?Hsh; cbn; lia).
  cbn [bind].
  assert (Hfl : forall i, i < d1 -> tread fl [i] = Ok (Z.of_nat (q i))).
  { intros i Hi. destruct (Hidx i Hi) as [v [Hv [Hq Hlt]]].
    assert (HI : In [i] (indices [d1])) by (apply in_indices1; exists i; auto).
    rewrite Hrf by (rewrite Hss, Hrs; exact HI).
    rewrite Hrs' by (rewrite Hrs; exact HI).
    rewrite Hr0 by (rewrite Hshi; exact HI).
    unfold rng. rewrite tread_range by exact Hi.
    apply tread_Ok in Hv. rewrite Hv. cbn [bind].
    unfold add32, mul32, sub32. f_equal.
    assert (Z.of_nat i * Z.of_nat d2 + Z.of_nat d2 <= Z.of_nat (d1 * d2))%Z by nia.
    rewrite (wrap32_id (Z.of_nat i * Z.of_nat d2))
      by (unfold in_int32, int32_min, int32_max in *; nia).
    rewrite (wrap32_id (v - 1)) by (unfold in_int32, int32_min, int32_max in *; nia).
    rewrite wrap32_id by (unfold in_int32, int32_min, int32_max in *; nia).
    nia. }
  destruct (gather_reads (mkT [d1 * d2; d3] (data tensor)) fl (d1 * d2) [d3] eq_refl)
    as [r [Hr [Hsr [Hwr Hrr]]]].
  { intros I HI. rewrite Hsf, Hss, Hrs in HI |- *. cbn in HI.
    apply in_indices2 in HI. destruct HI as [i [k [-> [Hi Hk]]]].
    destruct (Hidx i Hi) as [v [Hv [Hq Hlt]]].
    cbn [length firstn skipn]. exists (Z.of_nat (q i)).
    destruct (wf_tread (mkT [d1 * d2; d3] (data tensor)) [q i; k]) as [x Hx].
    { unfold wf in *. cbn. rewrite Hwf, Hsh. cbn. lia. }
    { cbn [shape]. apply in_indices2. eexists _, _. split; [reflexivity|]. lia. }
    exists x. rewrite Nat2Z.id. repeat split; [apply Hfl; exact Hi|lia|exact Hx]. }
  exists r. split; [exact Hr|]. rewrite Hsf, Hss, Hrs in Hsr, Hrr. cbn in Hsr.
  split; [exact Hsr|]. split; [exact Hwr|].
  intros i k Hi Hk.
  destruct (Hidx i Hi) as [v [Hv [Hq Hlt]]].
  destruct (Hrr [i; k]) as [fi [Hfi Hrd]].
  { cbn. apply in_indices2. exists i, k. auto. }
  cbn [length firstn skipn] in Hfi, Hrd. rewrite (Hfl i Hi) in Hfi. injection Hfi as <-.
  rewrite Nat2Z.id in Hrd. apply tread_inj in Hrd. rewrite Hrd.
  assert (Hd2 : 0 < d2) by nia.
  pose proof (Nat.div_mod_eq (q i) d2) as Hdm.
  pose proof (Nat.mod_upper_bound (q i) d2 ltac:(lia)) as Hmod.
  assert (Hdiv : q i / d2 < d1) by (apply Nat.Div0.div_lt_upper_bound; lia).
  rewrite (tget_at _ _ (q i * d3 + k)) by (cbn [shape]; apply ravel2; lia).
  rewrite (tget_at tensor _ (q i / d2 * (d2 * d3) + q i mod d2 * d3 + k))
    by (rewrite Hsh; apply ravel3; lia).
  cbn [data]. f_equal. nia.
Qed.



(** A flat row outside the tensor is rejected by [tf.gather]. *)
Theorem get_by_index_out_of_range {A : Type} (tensor : Tensor A) (index : Tensor Z)
  (d1 d2 d3 i0 : nat) (v : Z) :
  wf tensor -> shape32 tensor -> shape tensor = [d1; d2; d3] ->
  wf index -> shape index = [d1] ->
  1 <= d3 -> (Z.of_nat (d1 * d2) <= int32_max + 1)%Z ->
  i0 < d1 -> tget index [i0] = Some v ->
  in_int32 (v - 1) -> in_int32 (Z.of_nat (i0 * d2) + (v - 1)) ->
  (Z.of_nat (i0 * d2) + (v - 1) < 0
   \/ Z.of_nat (d1 * d2) <= Z.of_nat (i0 * d2) + (v - 1))%Z ->
  get_by_index tensor index = Err InvalidArgument.
Proof.
  intros Hwf H32 Hsh Hwfi Hshi Hd3 Hflat Hi0 Hv Bv Bo Hout.
  destruct (shape32_3 _ _ _ _ Hsh H32) as [B1 [B2 B3]].
  unfold get_by_index. rewrite (shape_ok _ H32), Hsh.
  cbn [map vector TF.unpack shape data bind length].
  rewrite (range_ok d1 B1). cbn [bind].
  set (rng := vector (map Z.of_nat (seq 0 d1))).
  assert (Hrs : shape rng = [d1]).
  { unfold rng, vector. cbn. rewrite length_map, length_seq. reflexivity. }
  destruct (binop_scalar mul32 rng (Z.of_nat d2) (wf_vector _))
    as [scaled [-> [Hss [Hws Hrs']]]].
  destruct (binop_scalar sub32 index 1%Z Hwfi) as [index0 [-> [Hs0 [Hw0 Hr0]]]].
  cbn [bind].
  destruct (binop_same add32 scaled index0 Hws Hw0) as [fl [-> [Hsf [Hwff Hrf]]]].
  { congruence. }
  cbn [bind].
  rewrite (reshape_rows tensor (d1 * d2) d3)
    by (unfold wf in Hwf; rewrite ?Hwf, ?Hsh; cbn; lia).
  cbn [bind].
  assert (Hfl : tread fl [i0] = Ok (Z.of_nat (i0 * d2) + (v - 1))%Z).
  { assert (HI : In [i0] (indices [d1])) by (apply in_indices1; exists i0; auto).
    rewrite Hrf by (rewrite Hss, Hrs; exact HI).
    rewrite Hrs' by (rewrite Hrs; exact HI).
    rewrite Hr0 by (rewrite Hshi; exact HI).
    unfold rng. rewrite tread_range by exact Hi0.
    apply tread_Ok in Hv. rewrite Hv. cbn [bind].
    unfold add32, mul32, sub32. f_equal.
    assert (Z.of_nat i0 * Z.of_nat d2 + Z.of_nat d2 <= Z.of_nat (d1 * d2))%Z by nia.
    rewrite (wrap32_id (Z.of_nat i0 * Z.of_nat d2))
      by (unfold in_int32, int32_min, int32_max in *; nia).
    rewrite (wrap32_id (v - 1)) by exact Bv.
    rewrite wrap32_id by (replace (Z.of_nat i0 * Z.of_nat d2)%Z
                            with (Z.of_nat (i0 * d2)) by lia; exact Bo).
    lia. }
  unfold TF.gather. cbn [shape]. rewrite Hsf, Hss, Hrs. cbn [length app].
  match goal with |- tbuild ?sh ?f = _ =>
    apply (tbuild_fails sh f [i0; 0] InvalidArgument) end.
  - intros J _.
    apply invalid_bind; [apply invalid_tread|]. intros x _.
    apply invalid_bind; [apply invalid_guard|]. intros y _. apply invalid_tread.
  - apply in_indices2. exists i0, 0. split; [reflexivity|lia].
  - cbn [firstn skipn]. rewrite Hfl. cbn [bind].
    destruct Hout as [Hneg|Hbig].
    + replace (0 <=? Z.of_nat (i0 * d2) + (v - 1))%Z with false
        by (symmetry; apply Z.leb_gt; exact Hneg).
      reflexivity.
    + replace (0 <=? Z.of_nat (i0 * d2) + (v - 1))%Z with true
        by (symmetry; apply Z.leb_le; lia).
      cbn [guard bind]. unfold tread, tget. cbn [shape ravel].
      replace (Z.to_nat (Z.of_nat (i0 * d2) + (v - 1)) <? d1 * d2) with false
        by (symmetry; apply Nat.ltb_ge; lia).
      reflexivity.
Qed.

Lemma get_by_index_out_of_range_witness :
  get_by_index (mkT [2; 2; 1] [10; 20; 30; 40]%Z) (vector [1; 3]%Z)
  = Err InvalidArgument.
Proof.
  apply (get_by_index_out_of_range _ _ 2 2 1 1 3%Z).
  - reflexivity.
  - repeat constructor; vm_compute; discriminate.
  - reflexivity.
  - reflexivity.
  - reflexivity.
  - lia.
  - vm_compute; discriminate.
  - lia.
  - reflexivity.
  - unfold in_int32, int32_min, int32_max; lia.
  - unfold in_int32, int32_min, int32_max; simpl; lia.
  - right. simpl. lia.
Defined.

(** ** [get_by_index] on more than [2^31] rows *)

(** The flat row [i * d2 + index[i] - 1] is computed in int32; when it wraps
    to a negative number [tf.gather] rejects it. *)
Lemma get_by_index_wraps {A : Type} (tensor : Tensor A) (index : Tensor Z)
  (d1 d2 d3 i0 : nat) (v : Z) :
  wf tensor -> shape32 tensor -> shape tensor = [d1; d2; d3] ->
  wf index -> shape index = [d1] -> 1 <= d3 ->
  i0 < d1 -> tget index [i0] = Some v ->
  (add32 (mul32 (Z.of_nat i0) (Z.of_nat d2)) (sub32 v 1) < 0)%Z ->
  get_by_index tensor index = Err InvalidArgument.
Proof.
  intros Hwf H32 Hsh Hwfi Hshi Hd3 Hi0 Hv Hneg.
  destruct (shape32_3 _ _ _ _ Hsh H32) as [B1 [B2 B3]].
  unfold get_by_index. rewrite (shape_ok _ H32), Hsh.
  cbn [map vector TF.unpack shape data bind length].
  rewrite (range_ok d1 B1). cbn [bind].
  set (rng := vector (map Z.of_nat (seq 0 d1))).
  assert (Hrs : shape rng = [d1]).
  { unfold rng, vector. cbn. rewrite length_map, length_seq. reflexivity. }
  destruct (binop_scalar mul32 rng (Z.of_nat d2) (wf_vector _))
    as [scaled [-> [Hss [Hws Hrs']]]].
  destruct (binop_scalar sub32 index 1%Z Hwfi) as [index0 [-> [Hs0 [Hw0 Hr0]]]].
  cbn [bind].
  destruct (binop_same add32 scaled index0 Hws Hw0) as [fl [-> [Hsf [Hwff Hrf]]]].
  { congruence. }
  cbn [bind].
  rewrite (reshape_rows tensor (d1 * d2) d3)
    by (unfold wf in Hwf; rewrite ?Hwf, ?Hsh; cbn; lia).
  cbn [bind].
  assert (Hfl : tread fl [i0]
                = Ok (add32 (mul32 (Z.of_nat i0) (Z.of_nat d2)) (sub32 v 1))).
  { assert (HI : In [i0] (indices [d1])) by (apply in_indices1; exists i0; auto).
    rewrite Hrf by (rewrite Hss, Hrs; exact HI).
    rewrite Hrs' by (rewrite Hrs; exact HI).
    rewrite Hr0 by (rewrite Hshi; exact HI).
    unfold rng. rewrite tread_range by exact Hi0.
    apply tread_Ok in Hv. rewrite Hv. reflexivity. }
  unfold TF.gather. cbn [shape]. rewrite Hsf, Hss, Hrs. cbn [length app].
  match goal with |- tbuild ?sh ?f = _ =>
    apply (tbuild_fails sh f [i0; 0] InvalidArgument) end.
  - intros J _.
    apply invalid_bind; [apply invalid_tread|]. intros x _.
    apply invalid_bind; [apply invalid_guard|]. intros y _. apply invalid_tread.
  - apply in_indices2. exists i0, 0. split; [reflexivity|lia].
  - cbn [firstn skipn]. rewrite Hfl. cbn [bind].
    match goal with |- context [(0 <=? ?z)%Z] =>
      replace (0 <=? z)%Z with false by (symmetry; apply Z.leb_gt; exact Hneg) end.
    reflexivity.
Qed.

Lemma of_nat_pow30 : Z.of_nat (2 ^ 30) = 1073741824%Z.
Proof. rewrite Nat2Z.inj_pow. reflexivity. Qed.

(** C6 as stated fails on a tensor of [3 * 2^30] rows of one cell: for the
    last entry of the index the flat row [2 * 2^30 + 0] wraps to [-2^31] in
    int32. *)
Lemma get_by_index_overflow :
  wf (mkT [3; 2 ^ 30; 1] (repeat 0%Z (3 * 2 ^ 30)))
  /\ shape32 (mkT [3; 2 ^ 30; 1] (repeat 0%Z (3 * 2 ^ 30)))
  /\ wf (vector [1; 1; 1]%Z) /\ shape (vector [1; 1; 1]%Z) = [3]
  /\ (forall i, i < 3 ->
        exists v, tget (vector [1; 1; 1]%Z) [i] = Some v
                  /\ (1 <= v <= Z.of_nat (2 ^ 30))%Z)
  /\ get_by_index (mkT [3; 2 ^ 30; 1] (repeat 0%Z (3 * 2 ^ 30))) (vector [1; 1; 1]%Z)
     = Err InvalidArgument
  /\ ~ get_by_index_post (mkT [3; 2 ^ 30; 1] (repeat 0%Z (3 * 2 ^ 30)))
         (vector [1; 1; 1]%Z) 3 1.
Proof.
  assert (Hwf : wf (mkT [3; 2 ^ 30; 1] (repeat 0%Z (3 * 2 ^ 30)))).
  { unfold wf. cbn [shape data numel fold_right]. rewrite repeat_length.
    rewrite !Nat.mul_1_r. reflexivity. }
  assert (H32 : shape32 (mkT [3; 2 ^ 30; 1] (repeat 0%Z (3 * 2 ^ 30)))).
  { unfold shape32. cbn [shape]. repeat constructor.
    - vm_compute; discriminate.
    - rewrite of_nat_pow30. vm_compute; discriminate.
    - vm_compute; discriminate. }
  assert (E : get_by_index (mkT [3; 2 ^ 30; 1] (repeat 0%Z (3 * 2 ^ 30)))
                (vector [1; 1; 1]%Z) = Err InvalidArgument).
  { apply (get_by_index_wraps _ _ 3 (2 ^ 30) 1 2 1%Z).
    - exact Hwf.
    - exact H32.
    - reflexivity.
    - reflexivity.
    - reflexivity.
    - lia.
    - lia.
    - reflexivity.
    - rewrite of_nat_pow30. vm_compute. reflexivity. }
  split; [exact Hwf|]. split; [exact H32|].
  split; [reflexivity|]. split; [reflexivity|].
  split.
  { intros [|[|[|i]]] Hi; try lia; exists 1%Z; (split; [reflexivity|]);
      rewrite of_nat_pow30; lia. }
  split; [exact E|].
  intros [r [Hr _]]. rewrite E in Hr. discriminate.
Qed.

(** ** [get_last] *)

(** The cells of [get_last]. *)
Lemma get_last_cells {A : Type} (tensor : Tensor A) (d1 d2 d3 : nat) :
  wf tensor -> shape32 tensor -> shape tensor = [d1; d2; d3] -> 1 <= d2 ->
  exists r, get_last tensor = Ok r /\ shape r = [d1; d3] /\ wf r /\
    forall i k, i < d1 -> k < d3 -> tget r [i; k] = tget tensor [i; d2 - 1; k].
Proof.
  intros Hwf H32 Hsh Hd2.
  destruct (shape32_3 _ _ _ _ Hsh H32) as [B1 [B2 B3]].
  unfold get_last. rewrite (shape_ok _ H32), Hsh. cbn.
  unfold mul32, add32.
  repeat first [rewrite Z.mul_0_r | rewrite Z.mul_1_r | rewrite Z.add_0_r
               | rewrite Z.add_0_l | rewrite wrap32_0 | rewrite wrap32_1
               | rewrite wrap32_nat by assumption].
  rewrite (wrap32_id (Z.of_nat d2 + -1))
    by (unfold in_int32, int32_min, int32_max in *; lia).
  rewrite Hsh. cbn [TF.slice_shape].
  rewrite !slice_dim_ok by lia. cbn [bind]. rewrite !Nat2Z.id.
  change (Z.to_nat 1) with 1.
  match goal with |- context [tbuild ?sh ?f] =>
    destruct (tbuild_reads sh f) as [sl [Hsl [Hshape [Hwfsl Hread]]]] end.
  { intros I HI. apply in_indices3 in HI. destruct HI as [i [j [k [-> [Hi [Hj Hk]]]]]].
    cbn. apply wf_tread; [exact Hwf|]. rewrite Hsh. apply in_indices3.
    exists (0 + i), (Z.to_nat (Z.of_nat d2 + -1) + j), (0 + k).
    split; [reflexivity|]. lia. }
  rewrite Hsl. cbn [bind]. unfold TF.squeeze. rewrite Hshape. cbn.
  eexists. split; [reflexivity|]. cbn [shape]. split; [reflexivity|]. split.
  { unfold wf in *. cbn [shape data]. rewrite Hwfsl, Hshape. cbn. lia. }
  intros i k Hi Hk.
  assert (Hin : In [i; 0; k] (indices [d1; 1; d3])).
  { apply in_indices3. exists i, 0, k. split; [reflexivity|]. lia. }
  specialize (Hread _ Hin). cbn in Hread.
  replace (Z.to_nat (Z.of_nat d2 + -1) + 0) with (d2 - 1) in Hread by lia.
  apply tread_inj in Hread. rewrite <- Hread.
  rewrite (tget_at sl [i; 0; k] (i * (1 * d3) + 0 * d3 + k))
    by (rewrite Hshape; apply ravel3; lia).
  rewrite (tget_at _ [i; k] (i * d3 + k)) by (cbn [shape]; apply ravel2; lia).
  cbn [data]. f_equal. lia.
Qed.

(** [get_last] is [get_by_index] at the constant index [d2]. *)
Theorem get_last_as_get_by_index {A : Type} (tensor : Tensor A) (d1 d2 d3 : nat) :
  wf tensor -> shape32 tensor -> shape tensor = [d1; d2; d3] ->
  1 <= d2 -> 1 <= d3 -> (Z.of_nat (d1 * d2) <= int32_max + 1)%Z ->
  get_last tensor = get_by_index tensor (vector (repeat (Z.of_nat d2) d1)).
Proof.
  intros Hwf H32 Hsh Hd2 Hd3 Hflat.
  destruct (get_last_cells tensor d1 d2 d3 Hwf H32 Hsh Hd2)
    as [r [-> [Hsr [Hwr Hr]]]].
  destruct (get_by_index_cells tensor (vector (repeat (Z.of_nat d2) d1)) d1 d2 d3
              (fun i => i * d2 + (d2 - 1)) Hwf H32 Hsh)
    as [r' [-> [Hsr' [Hwr' Hr']]]].
  - apply wf_vector.
  - unfold vector. cbn [shape]. rewrite repeat_length. reflexivity.
  - exact Hd3.
  - exact Hflat.
  - intros i Hi. exists (Z.of_nat d2). rewrite tget_vector.
    split; [|split; nia].
    apply nth_error_repeat. exact Hi.
  - f_equal. apply tensor_ext; [congruence|exact Hwr|exact Hwr'|].
    intros I HI. rewrite Hsr in HI. apply in_indices2 in HI.
    destruct HI as [i [k [-> [Hi Hk]]]].
    rewrite Hr, Hr' by assumption.
    replace ((i * d2 + (d2 - 1)) / d2) with i.
    + replace ((i * d2 + (d2 - 1)) mod d2) with (d2 - 1); [reflexivity|].
      rewrite Nat.add_comm, Nat.Div0.mod_add, Nat.mod_small; lia.
    + rewrite Nat.add_comm, Nat.div_add by lia. rewrite Nat.div_small; lia.
Qed.

Lemma get_last_as_get_by_index_witness :
  get_last (mkT [2; 2; 3] [1; 2; 3; 4; 5; 6; 7; 8; 9; 10; 11; 12]%Z)
  = get_by_index (mkT [2; 2; 3] [1; 2; 3; 4; 5; 6; 7; 8; 9; 10; 11; 12]%Z)
                 (vector (repeat (Z.of_nat 2) 2)).
Proof.
  apply (get_last_as_get_by_index _ 2 2 3).
  - reflexivity.
  - repeat constructor; vm_compute; discriminate.
  - reflexivity.
  - lia.
  - lia.
  - vm_compute; discriminate.
Defined.

Lemma invalid_slice_dim (d : nat) (b s : Z) : invalid_only (TF.slice_dim d b s).
Proof.
  unfold TF.slice_dim. apply invalid_bind; [apply invalid_guard|]. intros _ _.
  destruct (s =? -1)%Z; (apply invalid_bind; [apply invalid_guard|]);
    intros _ _; apply invalid_Ok.
Qed.

(** [get_last] needs a tensor of rank 3 whose second dimension is not empty:
    on any other rank the shape arithmetic or the slice is rejected, and an
    empty second dimension gives the slice a negative start. *)
Theorem get_last_rejects {A : Type} (tensor : Tensor A) :
  (rank tensor <> 3 \/ exists d1 d3, shape tensor = [d1; 0; d3]) ->
  get_last tensor = Err InvalidArgument.
Proof.
  intros Hbad. unfold get_last, TF.shape_.
  destruct (forallb _ (shape tensor)) eqn:G; cbn [guard bind]; [|reflexivity].
  unfold rank in Hbad.
  destruct (shape tensor) as [|a [|b [|c [|d rest]]]] eqn:Es.
  - reflexivity.
  - cbn. rewrite Es. cbn.
    destruct (TF.slice_dim a _ _) as [x|e] eqn:E; [reflexivity|].
    apply invalid_slice_dim in E. subst e. reflexivity.
  - reflexivity.
  - destruct Hbad as [Hr|[d1 [d3 Hs]]]; [cbn in Hr; lia|].
    injection Hs as -> -> ->.
    cbn. rewrite Es. cbn.
    replace (TF.slice_dim 0 (add32 (mul32 0 1) (-1)) (add32 (mul32 0 0) 1))
      with (@Err nat InvalidArgument) by reflexivity.
    cbn [bind].
    destruct (TF.slice_dim d1 _ _) as [x|e] eqn:E; [reflexivity|].
    apply invalid_slice_dim in E. subst e. reflexivity.
  - destruct Hbad as [Hr|[d1 [d3 Hs]]]; [|discriminate].
    reflexivity.
Qed.

Lemma get_last_rejects_witness :
  get_last (mkT [2; 3] [1; 2; 3; 4; 5; 6]%Z) = Err InvalidArgument
  /\ get_last (mkT [2; 0; 3] (@nil Z)) = Err InvalidArgument.
Proof.
  split.
  - apply (get_last_rejects (mkT [2; 3] [1; 2; 3; 4; 5; 6]%Z)).
    left. unfold rank. simpl. lia.
  - apply (get_last_rejects (mkT [2; 0; 3] (@nil Z))).
    right. exists 2, 3. reflexivity.
Defined.

(** ** [gather_in_dim] along any dimension *)

Lemma swap_at_lt (d r e : nat) : d < r -> e < r -> swap_at d e < r.
Proof.
  intros Hd He. unfold swap_at.
  destruct (e =? 0); [exact Hd|]. destruct (e =? d); lia.
Qed.

Lemma swap_at_invol (d e : nat) : swap_at d (swap_at d e) = e.
Proof.
  unfold swap_at.
  destruct (e =? 0) eqn:E0.
  - apply Nat.eqb_eq in E0. subst e.
    destruct (d =? 0) eqn:Ed; [apply Nat.eqb_eq in Ed; exact Ed|].
    rewrite Nat.eqb_refl. reflexivity.
  - destruct (e =? d) eqn:Ed.
    + apply Nat.eqb_eq in Ed. subst e. reflexivity.
    + rewrite E0, Ed. reflexivity.
Qed.

Lemma swap_dims_swap_at (r d : nat) :
  swap_dims r d = map (fun e => Z.of_nat (swap_at d e)) (seq 0 r).
Proof. reflexivity. Qed.

Lemma nth_map_seq (f : nat -> nat) (n e : nat) :
  e < n -> nth e (map f (seq 0 n)) 0 = f e.
Proof.
  intros He. rewrite (nth_indep _ 0 (f 0)) by (rewrite length_map, length_seq; exact He).
  rewrite (map_nth f (seq 0 n) 0 e), seq_nth by exact He. reflexivity.
Qed.

Lemma length_swap_list (d : nat) (l : list nat) : length (swap_list d l) = length l.
Proof. unfold swap_list. rewrite length_map, length_seq. reflexivity. Qed.

Lemma nth_swap_list (d e : nat) (l : list nat) :
  e < length l -> nth e (swap_list d l) 0 = nth (swap_at d e) l 0.
Proof.
  intros He. unfold swap_list.
  apply (nth_map_seq (fun e => nth (swap_at d e) l 0)). exact He.
Qed.

Lemma nth_replace_at (d x e : nat) (l : list nat) :
  d < length l ->
  nth e (replace_at d x l) 0 = if e =? d then x else nth e l 0.
Proof.
  intros Hd. unfold replace_at.
  destruct (Nat.lt_ge_cases e d) as [Hlt|Hge].
  - rewrite app_nth1 by (rewrite length_firstn; lia).
    replace (e =? d) with false by (symmetry; apply Nat.eqb_neq; lia).
    rewrite <- (firstn_skipn d l) at 2.
    rewrite app_nth1 by (rewrite length_firstn; lia). reflexivity.
  - rewrite app_nth2 by (rewrite length_firstn; lia).
    rewrite length_firstn. replace (Nat.min d (length l)) with d by lia.
    destruct (e =? d) eqn:E.
    + apply Nat.eqb_eq in E. subst e. rewrite Nat.sub_diag. reflexivity.
    + apply Nat.eqb_neq in E. destruct (e - d) as [|k] eqn:Ek; [lia|].
      cbn [nth]. rewrite <- (firstn_skipn (S d) l) at 2.
      rewrite app_nth2 by (rewrite length_firstn; lia).
      rewrite length_firstn. f_equal. lia.
Qed.

Lemma length_replace_at (d x : nat) (l : list nat) :
  d < length l -> length (replace_at d x l) = length l.
Proof.
  intros Hd. unfold replace_at.
  rewrite length_app, length_firstn. cbn [length]. rewrite length_skipn. lia.
Qed.

(** Exchanging, replacing the head and exchanging back replaces entry [d]. *)
Lemma swap_replace (d x : nat) (l : list nat) :
  d < length l ->
  swap_list d (x :: tl (swap_list d l)) = replace_at d x l.
Proof.
  intros Hd.
  assert (Hlen : length (x :: tl (swap_list d l)) = length l).
  { cbn [length]. pose proof (length_swap_list d l) as H.
    destruct (swap_list d l); cbn [length tl] in *; lia. }
  apply (nth_ext _ _ 0 0).
  - rewrite length_swap_list, Hlen, length_replace_at by exact Hd. reflexivity.
  - intros e He. rewrite length_swap_list, Hlen in He.
    rewrite nth_swap_list by (rewrite Hlen; exact He).
    rewrite nth_replace_at by exact Hd.
    destruct (e =? d) eqn:E.
    + apply Nat.eqb_eq in E. subst e. unfold swap_at.
      destruct (d =? 0) eqn:E0; [apply Nat.eqb_eq in E0; subst d; reflexivity|].
      rewrite Nat.eqb_refl. reflexivity.
    + apply Nat.eqb_neq in E.
      assert (Hs : swap_at d e <> 0).
      { unfold swap_at. destruct (e =? 0) eqn:E0.
        - apply Nat.eqb_eq in E0. lia.
        - destruct (e =? d) eqn:E1; [apply Nat.eqb_eq in E1; lia|].
          apply Nat.eqb_neq in E0. exact E0. }
      destruct (swap_at d e) as [|k] eqn:Ek; [contradiction|].
      cbn [nth].
      assert (Hk : S k < length l) by (rewrite <- Ek; apply swap_at_lt; assumption).
      transitivity (nth (S k) (swap_list d l) 0).
      { pose proof (length_swap_list d l) as H.
        destruct (swap_list d l); [cbn in H; lia|reflexivity]. }
      rewrite nth_swap_list by exact Hk.
      rewrite <- Ek, swap_at_invol. reflexivity.
Qed.

Lemma Forall2_lt_nth (I sh : list nat) :
  Forall2 lt I sh <->
  length I = length sh /\ forall e, e < length sh -> nth e I 0 < nth e sh 0.
Proof.
  split.
  - induction 1 as [|i d I' sh' Hid _ [IHl IHn]]; cbn [length].
    + split; [reflexivity|]. intros e He. lia.
    + split; [lia|]. intros [|e] He; cbn [nth]; [exact Hid|]. apply IHn. lia.
  - revert sh. induction I as [|i I' IH]; intros [|d sh'] [Hl Hn];
      cbn [length] in *; try discriminate; constructor.
    + apply (Hn 0). lia.
    + apply IH. split; [lia|]. intros e He. apply (Hn (S e)). lia.
Qed.

Lemma swap_list_lt (d : nat) (I sh : list nat) :
  d < length sh -> Forall2 lt I sh -> Forall2 lt (swap_list d I) (swap_list d sh).
Proof.
  intros Hd H. apply Forall2_lt_nth in H. destruct H as [Hl Hn].
  apply Forall2_lt_nth. rewrite !length_swap_list. split; [exact Hl|].
  intros e He. rewrite !nth_swap_list by lia. apply Hn.
  apply swap_at_lt; assumption.
Qed.

Lemma swap_list_back (d : nat) (I sh : list nat) :
  d < length sh -> Forall2 lt I (swap_list d sh) -> Forall2 lt (swap_list d I) sh.
Proof.
  intros Hd H. apply Forall2_lt_nth in H. rewrite length_swap_list in H.
  destruct H as [Hl Hn].
  apply Forall2_lt_nth. rewrite length_swap_list. split; [exact Hl|].
  intros e He. rewrite nth_swap_list by lia.
  pose proof (swap_at_lt d _ e Hd He) as Hs.
  specialize (Hn _ Hs). rewrite nth_swap_list, swap_at_invol in Hn by exact Hs.
  exact Hn.
Qed.

Lemma index_of_map_inj (f : nat -> nat) (s n k : nat) :
  s <= k < s + n ->
  (forall a b, s <= a < s + n -> s <= b < s + n -> f a = f b -> a = b) ->
  TF.index_of (f k) (map f (seq s n)) = k - s.
Proof.
  revert s. induction n as [|n IH]; intros s Hk Hinj; [lia|].
  cbn [seq map TF.index_of]. destruct (f s =? f k) eqn:E.
  - apply Nat.eqb_eq in E. apply Hinj in E; lia.
  - apply Nat.eqb_neq in E. assert (s <> k) by (intros ->; apply E; reflexivity).
    rewrite IH; [lia|lia|]. intros a b Ha Hb. apply Hinj; lia.
Qed.

Lemma swap_dims_nat (r d : nat) :
  map Z.to_nat (swap_dims r d) = map (swap_at d) (seq 0 r).
Proof.
  rewrite swap_dims_swap_at, map_map. apply map_ext. intros e. apply Nat2Z.id.
Qed.

Lemma index_of_swap (r d e : nat) :
  d < r -> e < r -> TF.index_of e (map Z.to_nat (swap_dims r d)) = swap_at d e.
Proof.
  intros Hd He. rewrite swap_dims_nat.
  rewrite <- (swap_at_invol d e) at 1.
  rewrite index_of_map_inj.
  - lia.
  - pose proof (swap_at_lt d r e Hd He). lia.
  - intros a b _ _ Hab. rewrite <- (swap_at_invol d a), Hab. apply swap_at_invol.
Qed.

Lemma is_perm_swap (r d : nat) : d < r -> TF.is_perm (swap_dims r d) r = true.
Proof.
  intros Hd. unfold TF.is_perm.
  rewrite swap_dims_swap_at, length_map, length_seq, Nat.eqb_refl. cbn [andb].
  apply forallb_forall. intros e He. apply in_seq in He. apply existsb_exists.
  exists (Z.of_nat e). split; [|apply Z.eqb_refl].
  rewrite <- (swap_at_invol d e) at 1.
  apply (in_map (fun e => Z.of_nat (swap_at d e))). apply in_seq.
  pose proof (swap_at_lt d r e Hd). lia.
Qed.

(** A transposition by the exchange of 0 and [d]. *)
Lemma transpose_swap {A : Type} (t : Tensor A) (d : nat) :
  wf t -> d < length (shape t) ->
  exists t', TF.transpose t (swap_dims (length (shape t)) d) = Ok t'
    /\ shape t' = swap_list d (shape t) /\ wf t' /\
    forall I, In I (indices (shape t')) -> tread t' I = tread t (swap_list d I).
Proof.
  intros Hwf Hd. unfold TF.transpose. rewrite is_perm_swap by exact Hd.
  cbn [guard bind].
  assert (Hsh : map (fun e => nth e (shape t) 0)
                    (map Z.to_nat (swap_dims (length (shape t)) d))
                = swap_list d (shape t)).
  { rewrite swap_dims_nat, map_map. reflexivity. }
  rewrite Hsh.
  assert (Hidx : forall I, In I (indices (swap_list d (shape t))) ->
            map (fun e => nth (TF.index_of e
                                 (map Z.to_nat (swap_dims (length (shape t)) d))) I 0)
                (seq 0 (length (shape t)))
            = swap_list d I).
  { intros I HI. apply in_indices, Forall2_length in HI.
    rewrite length_swap_list in HI. unfold swap_list. rewrite HI.
    apply map_ext_in. intros e He. apply in_seq in He.
    rewrite index_of_swap by lia. reflexivity. }
  match goal with |- context [tbuild ?sh ?f] =>
    destruct (tbuild_reads sh f) as [t' [Ht' [Hs' [Hw' Hr']]]] end.
  { intros I HI. rewrite (Hidx I HI). apply wf_tread; [exact Hwf|].
    apply in_indices. apply swap_list_back; [exact Hd|].
    apply in_indices. exact HI. }
  exists t'. split; [exact Ht'|]. split; [exact Hs'|]. split; [exact Hw'|].
  intros I HI. rewrite Hs' in HI. rewrite (Hr' I HI), (Hidx I HI). reflexivity.
Qed.

Lemma in_indices_cons (d : nat) (sh I : list nat) :
  In I (indices (d :: sh)) <-> exists i J, I = i :: J /\ i < d /\ In J (indices sh).
Proof.
  rewrite in_indices. split.
  - intros H. inversion H as [|i d' J sh' Hi HJ]; subst.
    exists i, J. split; [reflexivity|]. split; [exact Hi|]. apply in_indices. exact HJ.
  - intros [i [J [-> [Hi HJ]]]]. constructor; [exact Hi|]. apply in_indices. exact HJ.
Qed.

(** The cells of [gather_in_dim] along dimension [d], for a vector of [L]
    indices. *)
Lemma gather_in_dim_reads {A : Type} (params : Tensor A) (indices_ : Tensor Z)
  (d L : nat) :
  wf params -> d < rank params ->
  wf indices_ -> shape indices_ = [L] ->
  (forall a, a < L ->
     exists v, tget indices_ [a] = Some v
       /\ (0 <= v < Z.of_nat (nth d (shape params) 0%nat))%Z) ->
  exists r, gather_in_dim params indices_ (Z.of_nat d) = Ok r
    /\ shape r = replace_at d L (shape params) /\ wf r /\
    forall I, In I (indices (shape r)) ->
      exists v, tget indices_ [nth d I 0] = Some v
        /\ tread r I = tread params (replace_at d (Z.to_nat v) I).
Proof.
  intros Hwf Hd Hwi Hsi Hidx. unfold rank in Hd.
  assert (Hgather : forall p : Tensor A, wf p -> shape p <> [] ->
            nth 0 (shape p) 0 = nth d (shape params) 0 ->
            exists g, TF.gather p indices_ = Ok g
              /\ shape g = L :: tl (shape p) /\ wf g /\
              forall a J, a < L -> In J (indices (tl (shape p))) ->
                exists v, tget indices_ [a] = Some v
                  /\ tread g (a :: J) = tread p (Z.to_nat v :: J)).
  { intros p Hwp Hne H0. destruct (shape p) as [|d0 rest] eqn:Ep; [contradiction|].
    cbn [nth tl] in *.
    destruct (gather_reads p indices_ d0 rest Ep) as [g [Hg [Hsg [Hwg Hrg]]]].
    - intros I HI. rewrite Hsi in HI |- *. cbn [app length] in HI |- *.
      apply in_indices_cons in HI. destruct HI as [a [J [-> [Ha HJ]]]].
      cbn [firstn skipn]. destruct (Hidx a Ha) as [v [Hv Hrange]].
      exists v. apply tread_Ok in Hv.
      destruct (wf_tread p (Z.to_nat v :: J) Hwp) as [x Hx].
      { rewrite Ep. apply in_indices_cons. exists (Z.to_nat v), J.
        split; [reflexivity|]. split; [lia|exact HJ]. }
      exists x. split; [exact Hv|]. split; [lia|exact Hx].
    - exists g. rewrite Hsi in Hsg, Hrg. cbn [app length] in Hsg, Hrg.
      split; [exact Hg|]. split; [exact Hsg|]. split; [exact Hwg|].
      intros a J Ha HJ. destruct (Hrg (a :: J)) as [v [Hv Hr]].
      { apply in_indices_cons. exists a, J. auto. }
      cbn [firstn skipn] in Hv, Hr. exists v. apply tread_Ok in Hv.
      split; [exact Hv|exact Hr]. }
  destruct (Nat.eq_dec d 0) as [->|Hd0].
  - unfold gather_in_dim. cbn [Z.of_nat Z.eqb].
    destruct (Hgather params Hwf) as [g [Hg [Hsg [Hwg Hrg]]]].
    { destruct (shape params); [cbn in Hd; lia|discriminate]. }
    { reflexivity. }
    exists g. split; [exact Hg|].
    assert (Hrep : forall x l, 0 < length l -> replace_at 0 x l = x :: tl l).
    { intros x [|y l] Hl; [cbn in Hl; lia|reflexivity]. }
    rewrite Hrep by exact Hd. split; [exact Hsg|]. split; [exact Hwg|].
    intros I HI. rewrite Hsg in HI. apply in_indices_cons in HI.
    destruct HI as [a [J [-> [Ha HJ]]]]. cbn [nth].
    destruct (Hrg a J Ha HJ) as [v [Hv Hr]].
    exists v. split; [exact Hv|]. rewrite Hr. reflexivity.
  - unfold gather_in_dim.
    replace (Z.of_nat d =? 0)%Z with false by (symmetry; apply Z.eqb_neq; lia).
    pose proof (to_dims_swap (length (shape params)) d Hd Hd0) as Hswap.
    destruct (py_setitem (map Z.of_nat (seq 0 (length (shape params)))) 0
                (Z.of_nat d)) as [td|e]; [|discriminate].
    cbn [bind] in Hswap |- *. rewrite Hswap. cbn [bind].
    destruct (transpose_swap params d Hwf Hd) as [tr [-> [Hstr [Hwtr Hrtr]]]].
    cbn [bind].
    assert (Hlen : length (swap_list d (shape params)) = length (shape params))
      by apply length_swap_list.
    destruct (Hgather tr Hwtr) as [g [-> [Hsg [Hwg Hrg]]]].
    { rewrite Hstr. intros E. rewrite E in Hlen. cbn in Hlen. lia. }
    { rewrite Hstr, nth_swap_list by lia. reflexivity. }
    cbn [bind].
    assert (Hlg : length (shape g) = length (shape params)).
    { rewrite Hsg, Hstr. cbn [length].
      destruct (swap_list d (shape params)); cbn [length tl] in *; lia. }
    rewrite <- Hlg.
    destruct (transpose_swap g d Hwg) as [r [-> [Hsr [Hwr Hrr]]]]; [lia|].
    exists r. split; [reflexivity|].
    assert (Hshape : shape r = replace_at d L (shape params)).
    { rewrite Hsr, Hsg, Hstr. apply swap_replace. exact Hd. }
    split; [exact Hshape|]. split; [exact Hwr|].
    intros I HI. rewrite (Hrr I HI).
    assert (HI' : Forall2 lt (swap_list d I) (shape g)).
    { apply swap_list_back; [lia|]. apply in_indices. rewrite <- Hsr. exact HI. }
    assert (HlI : length I = length (shape params)).
    { apply in_indices, Forall2_length in HI.
      rewrite HI, Hshape, length_replace_at by exact Hd. reflexivity. }
    rewrite Hsg in HI'.
    destruct (swap_list d I) as [|a J] eqn:EJ; [inversion HI'|].
    inversion HI' as [|? ? ? ? Ha HJ]; subst.
    destruct (Hrg a J Ha) as [v [Hv Hr]]; [apply in_indices; exact HJ|].
    assert (Ha' : a = nth d I 0).
    { change a with (nth 0 (a :: J) 0). rewrite <- EJ.
      rewrite nth_swap_list by lia. reflexivity. }
    exists v. rewrite <- Ha'. split; [exact Hv|].
    rewrite Hr, Hrtr.
    + f_equal. change J with (tl (a :: J)). rewrite <- EJ.
      apply swap_replace. lia.
    + rewrite Hstr in HJ |- *. apply in_indices.
      destruct (swap_list d (shape params)) as [|s0 srest] eqn:Es;
        [cbn in Hlen; lia|].
      cbn [tl] in HJ. constructor; [|exact HJ].
      destruct (Hidx a Ha) as [v' [Hv' Hrange]].
      assert (v' = v) by congruence. subst v'.
      assert (s0 = nth d (shape params) 0).
      { change s0 with (nth 0 (s0 :: srest) 0). rewrite <- Es.
        rewrite nth_swap_list by lia. reflexivity. }
      lia.
Qed.

(** [gather_in_dim] along dimension [d] with a vector of [L] indices: the
    result has the shape of [params] with dimension [d] of size [L], and its
    cell [I] is the cell of [params] at [I] with entry [d] replaced by the
    index that [I] selects. *)
Theorem gather_in_dim_slices {A : Type} (params : Tensor A) (indices_ : Tensor Z)
  (d L : nat) :
  wf params -> d < rank params ->
  wf indices_ -> shape indices_ = [L] ->
  (forall a, a < L ->
     exists v, tget indices_ [a] = Some v
       /\ (0 <= v < Z.of_nat (nth d (shape params) 0%nat))%Z) ->
  exists r, gather_in_dim params indices_ (Z.of_nat d) = Ok r
    /\ shape r = replace_at d L (shape params) /\ wf r /\
    forall I, Forall2 lt I (shape r) ->
      exists v x, tget indices_ [nth d I 0] = Some v
        /\ tget params (replace_at d (Z.to_nat v) I) = Some x
        /\ tget r I = Some x.
Proof.
  intros Hwf Hd Hwi Hsi Hidx.
  destruct (gather_in_dim_reads params indices_ d L Hwf Hd Hwi Hsi Hidx)
    as [r [Hr [Hsr [Hwr Hcells]]]].
  exists r. split; [exact Hr|]. split; [exact Hsr|]. split; [exact Hwr|].
  intros I HI. apply in_indices in HI.
  destruct (Hcells I HI) as [v [Hv Hread]].
  destruct (wf_tget r I Hwr HI) as [x Hx].
  exists v, x. split; [exact Hv|]. split; [|exact Hx].
  apply tread_inj in Hread. congruence.
Qed.

Lemma gather_in_dim_slices_witness :
  exists r, gather_in_dim (mkT [2; 3] [1; 2; 3; 4; 5; 6]%Z) (vector [2; 0]%Z)
                          (Z.of_nat 1) = Ok r
    /\ shape r = replace_at 1 2 (shape (mkT [2; 3] [1; 2; 3; 4; 5; 6]%Z)) /\ wf r /\
    forall I, Forall2 lt I (shape r) ->
      exists v x, tget (vector [2; 0]%Z) [nth 1 I 0] = Some v
        /\ tget (mkT [2; 3] [1; 2; 3; 4; 5; 6]%Z) (replace_at 1 (Z.to_nat v) I) = Some x
        /\ tget r I = Some x.
Proof.
  apply (gather_in_dim_slices (mkT [2; 3] [1; 2; 3; 4; 5; 6]%Z) (vector [2; 0]%Z) 1 2).
  - reflexivity.
  - unfold rank; simpl; lia.
  - reflexivity.
  - reflexivity.
  - intros [|[|a]] Ha; [exists 2%Z|exists 0%Z|lia]; (split; [reflexivity|simpl; lia]).
Defined.

Lemma replace_at_self (d : nat) (l : list nat) :
  d < length l -> replace_at d (nth d l 0) l = l.
Proof.
  intros Hd. apply (nth_ext _ _ 0 0).
  - apply length_replace_at. exact Hd.
  - intros e _. rewrite nth_replace_at by exact Hd.
    destruct (e =? d) eqn:E; [apply Nat.eqb_eq in E; subst; reflexivity|reflexivity].
Qed.

(** Gathering every position of dimension [d] in order gives [params]
    back. *)
Theorem gather_in_dim_identity {A : Type} (params : Tensor A) (d : nat) :
  wf params -> d < rank params ->
  gather_in_dim params (vector (map Z.of_nat (seq 0 (nth d (shape params) 0))))
                (Z.of_nat d)
  = Ok params.
Proof.
  intros Hwf Hd. set (n := nth d (shape params) 0).
  assert (Hsi : shape (vector (map Z.of_nat (seq 0 n))) = [n]).
  { unfold vector. cbn [shape]. rewrite length_map, length_seq. reflexivity. }
  destruct (gather_in_dim_reads params (vector (map Z.of_nat (seq 0 n))) d n Hwf Hd
              (wf_vector _) Hsi) as [r [Hr [Hsr [Hwr Hcells]]]].
  { intros a Ha. exists (Z.of_nat a). split; [|fold n; lia].
    apply tread_Ok. apply tread_range. exact Ha. }
  rewrite Hr. f_equal. unfold rank in Hd.
  assert (Hshape : shape r = shape params).
  { rewrite Hsr. apply replace_at_self. exact Hd. }
  apply tensor_ext; [exact Hshape|exact Hwr|exact Hwf|].
  intros I HI. destruct (Hcells I HI) as [v [Hv Hread]].
  apply tread_inj in Hread. rewrite Hread.
  assert (HlI : d < length I).
  { apply in_indices, Forall2_length in HI. rewrite HI, Hshape. exact Hd. }
  assert (HdI : nth d I 0 < n).
  { apply in_indices in HI. rewrite Hshape in HI. apply Forall2_lt_nth in HI.
    apply HI. exact Hd. }
  apply tread_Ok in Hv. rewrite tread_range in Hv by exact HdI.
  injection Hv as <-. rewrite Nat2Z.id, replace_at_self by exact HlI. reflexivity.
Qed.

Lemma gather_in_dim_identity_witness :
  gather_in_dim (mkT [2; 3] [1; 2; 3; 4; 5; 6]%Z)
    (vector (map Z.of_nat (seq 0 (nth 1 (shape (mkT [2; 3] [1; 2; 3; 4; 5; 6]%Z)) 0))))
    (Z.of_nat 1)
  = Ok (mkT [2; 3] [1; 2; 3; 4; 5; 6]%Z).
Proof.
  apply (gather_in_dim_identity (mkT [2; 3] [1; 2; 3; 4; 5; 6]%Z) 1).
  - reflexivity.
  - unfold rank; simpl; lia.
Defined.

(** A dimension outside [-rank, rank) makes the Python list assignment
    raise. *)
Theorem gather_in_dim_bad_dim {A : Type} (params : Tensor A) (indices_ : Tensor Z)
  (dim : Z) :
  (Z.of_nat (rank params) <= dim \/ dim < - Z.of_nat (rank params))%Z ->
  dim <> 0%Z ->
  gather_in_dim params indices_ dim = Err PyError.
Proof.
  intros Hout Hd0. unfold gather_in_dim, rank in *.
  replace (dim =? 0)%Z with false by (symmetry; apply Z.eqb_neq; exact Hd0).
  set (dims := map Z.of_nat (seq 0 (length (shape params)))).
  assert (Hl : length dims = length (shape params)).
  { unfold dims. rewrite length_map, length_seq. reflexivity. }
  unfold py_setitem at 1. rewrite Hl.
  destruct (length (shape params)) as [|r] eqn:Er.
  - reflexivity.
  - replace ((0 <=? 0)%Z && (0 <? Z.of_nat (S r))%Z) with true
      by (symmetry; apply andb_true_iff; split; [apply Z.leb_le|apply Z.ltb_lt]; lia).
    cbn [bind Z.to_nat firstn app]. unfold py_setitem.
    cbn [length]. rewrite length_skipn, Hl.
    replace (S (S r - 1)) with (S r) by lia.
    replace ((0 <=? dim)%Z && (dim <? Z.of_nat (S r))%Z) with false.
    + replace ((- Z.of_nat (S r) <=? dim)%Z && (dim <? 0)%Z) with false; [reflexivity|].
      symmetry. apply andb_false_iff.
      destruct Hout; [right; apply Z.ltb_ge|left; apply Z.leb_gt]; lia.
    + symmetry. apply andb_false_iff.
      destruct Hout; [right; apply Z.ltb_ge|left; apply Z.leb_gt]; lia.
Qed.

Lemma gather_in_dim_bad_dim_witness :
  gather_in_dim (mkT [2; 3] [1; 2; 3; 4; 5; 6]%Z) (vector [0%Z]) 2 = Err PyError.
Proof.
  apply (gather_in_dim_bad_dim (mkT [2; 3] [1; 2; 3; 4; 5; 6]%Z) (vector [0%Z]) 2).
  - left. unfold rank. simpl. lia.
  - discriminate.
Defined.

Lemma firstn_seq_min (n s len : nat) :
  firstn n (seq s len) = seq s (Nat.min n len).
Proof.
  revert s len. induction n as [|n IH]; intros s [|len]; cbn; try reflexivity.
  f_equal. apply IH.
Qed.

(** A negative dimension above [-rank] is not read from the end: the list
    assignment accepts it, and the permutation it leaves is rejected by
    [tf.transpose]. *)
Theorem gather_in_dim_negative_dim {A : Type} (params : Tensor A)
  (indices_ : Tensor Z) (dim : Z) :
  (- Z.of_nat (rank params) < dim < 0)%Z ->
  gather_in_dim params indices_ dim = Err InvalidArgument.
Proof.
  intros Hneg. unfold gather_in_dim, rank in *.
  replace (dim =? 0)%Z with false by (symmetry; apply Z.eqb_neq; lia).
  set (r := length (shape params)) in *.
  set (dims := map Z.of_nat (seq 0 r)).
  assert (Hl : length dims = r).
  { unfold dims. rewrite length_map, length_seq. reflexivity. }
  unfold py_setitem at 1. rewrite Hl.
  replace ((0 <=? 0)%Z && (0 <? Z.of_nat r)%Z) with true
    by (symmetry; apply andb_true_iff; split; [apply Z.leb_le|apply Z.ltb_lt]; lia).
  cbn [bind Z.to_nat firstn app]. unfold py_setitem.
  cbn [length]. rewrite length_skipn, Hl.
  replace (S (r - 1)) with r by lia.
  replace ((0 <=? dim)%Z && (dim <? Z.of_nat r)%Z) with false
    by (symmetry; apply andb_false_iff; left; apply Z.leb_gt; lia).
  replace ((- Z.of_nat r <=? dim)%Z && (dim <? 0)%Z) with true
    by (symmetry; apply andb_true_iff; split; [apply Z.leb_le|apply Z.ltb_lt]; lia).
  cbn [bind]. set (k := Z.to_nat (dim + Z.of_nat r)).
  assert (Hk : 1 <= k < r) by (unfold k; lia).
  unfold TF.transpose. fold r.
  match goal with |- context [TF.is_perm ?p r] =>
    assert (Hperm : TF.is_perm p r = false) end.
  { unfold TF.is_perm. apply andb_false_iff. right.
    match goal with |- ?b = false => destruct b eqn:F; [exfalso|reflexivity] end.
    rewrite forallb_forall in F. specialize (F k).
    rewrite in_seq in F. specialize (F ltac:(lia)).
    apply existsb_exists in F. destruct F as [x [Hin Hx]].
    apply Z.eqb_eq in Hx. subst x.
    destruct k as [|k']; [lia|]. cbn [firstn app] in Hin.
    unfold dims in Hin.
    change (skipn (S (S k')) (dim :: skipn 1 (map Z.of_nat (seq 0 r))))
      with (skipn (S k') (skipn 1 (map Z.of_nat (seq 0 r)))) in Hin.
    rewrite !skipn_map, firstn_map, !skipn_seq, firstn_seq_min in Hin.
    destruct Hin as [E|Hin]; [lia|].
    apply in_app_or in Hin. destruct Hin as [Hin|[E|Hin]].
    - apply in_map_iff in Hin. destruct Hin as [y [Hy Hin]].
      apply in_seq in Hin. lia.
    - lia.
    - apply in_map_iff in Hin. destruct Hin as [y [Hy Hin]].
      apply in_seq in Hin. lia. }
  rewrite Hperm. reflexivity.
Qed.

Lemma gather_in_dim_negative_dim_witness :
  gather_in_dim (mkT [2; 3] [1; 2; 3; 4; 5; 6]%Z) (vector [0%Z]) (-1)
  = Err InvalidArgument.
Proof.
  apply (gather_in_dim_negative_dim (mkT [2; 3] [1; 2; 3; 4; 5; 6]%Z) (vector [0%Z])).
  unfold rank. simpl. lia.
Defined.

(** Along a dimension other than 0 the indices must be a vector: with any
    other rank the gathered tensor has not the rank of [params], and the
    transposition back is rejected. *)
Theorem gather_in_dim_index_rank {A : Type} (params : Tensor A)
  (indices_ : Tensor Z) (d : nat) :
  wf params -> 0 < d < rank params -> rank indices_ <> 1 ->
  gather_in_dim params indices_ (Z.of_nat d) = Err InvalidArgument.
Proof.
  intros Hwf Hd Hri. unfold rank in *. unfold gather_in_dim.
  replace (Z.of_nat d =? 0)%Z with false by (symmetry; apply Z.eqb_neq; lia).
  pose proof (to_dims_swap (length (shape params)) d ltac:(lia) ltac:(lia)) as Hswap.
  destruct (py_setitem (map Z.of_nat (seq 0 (length (shape params)))) 0
              (Z.of_nat d)) as [td|e]; [|discriminate].
  cbn [bind] in Hswap |- *. rewrite Hswap. cbn [bind].
  destruct (transpose_swap params d Hwf ltac:(lia)) as [tr [-> [Hstr [Hwtr _]]]].
  cbn [bind].
  destruct (TF.gather tr indices_) as [g|e] eqn:Hg.
  - cbn [bind]. apply gather_shape in Hg. destruct Hg as [Hsg [_ Hne]].
    unfold TF.transpose, TF.is_perm.
    rewrite swap_dims_swap_at, length_map, length_seq.
    replace (length (shape params) =? length (shape g)) with false; [reflexivity|].
    symmetry. apply Nat.eqb_neq. rewrite Hsg, length_app.
    pose proof (length_swap_list d (shape params)) as Hlen. rewrite <- Hstr in Hlen.
    destruct (shape tr); [contradiction|]. cbn [tl length] in *. lia.
  - apply invalid_gather in Hg. subst e. reflexivity.
Qed.

Lemma gather_in_dim_index_rank_witness :
  gather_in_dim (mkT [2; 3] [1; 2; 3; 4; 5; 6]%Z) (scalar 1%Z) (Z.of_nat 1)
  = Err InvalidArgument.
Proof.
  apply (gather_in_dim_index_rank (mkT [2; 3] [1; 2; 3; 4; 5; 6]%Z) (scalar 1%Z) 1).
  - reflexivity.
  - unfold rank; simpl; lia.
  - unfold rank; simpl; lia.
Defined.

(** ** [unit_length] on every row *)

(** Two matrices with the same rows are equal. *)
Lemma rows_ext {A : Type} (t u : Tensor A) (n m : nat) :
  wf t -> shape t = [n; m] -> wf u -> shape u = [n; m] ->
  (forall i, i < n -> row t i = row u i) -> t = u.
Proof.
  intros Hwt Hst Hwu Hsu Hrows. apply tensor_ext; [congruence|exact Hwt|exact Hwu|].
  intros I HI. rewrite Hst in HI. apply in_indices2 in HI.
  destruct HI as [i [j [-> [Hi Hj]]]].
  rewrite <- (nth_error_row t n m i j Hst Hi Hj).
  rewrite <- (nth_error_row u n m i j Hsu Hi Hj).
  rewrite (Hrows i Hi). reflexivity.
Qed.

(** Every row is multiplied by the reciprocal square root of its sum of
    squares. *)
Lemma unit_length_rows (tensor : Tensor R) (n m : nat) :
  wf tensor -> shape tensor = [n; m] ->
  exists r, unit_length tensor = Ok r /\ shape r = [n; m] /\ wf r /\
    forall i, i < n ->
      row r i = map (fun x => x * rsqrt (sum_sq (row tensor i)))%R (row tensor i).
Proof.
  intros Hwf Hsh. unfold unit_length, TF.reduce_sum.
  destruct (binop_same Rmult tensor tensor Hwf Hwf eq_refl) as [sq [-> [Hss [Hws Hrs]]]].
  cbn [bind]. rewrite Hsh in Hss, Hrs.
  assert (Hrow : forall i, i < n -> row sq i = map (fun x => x * x)%R (row tensor i)).
  { intros i Hi. apply (row_eq_map _ tensor sq n m); try assumption.
    intros j Hj. rewrite Hrs by (apply in_indices2; exists i, j; auto).
    destruct (tread tensor [i; j]); reflexivity. }
  destruct (reduce_rows (fun l => Ok (sum_R l)) sq n m true Hws Hss)
    as [nsq [-> [Hsn [Hwn Hrn]]]].
  { intros i Hi. eexists; reflexivity. }
  cbn [bind].
  destruct (binop_col Rmult tensor (tmap rsqrt nsq) n m Hwf (wf_tmap _ _ Hwn) Hsh Hsn)
    as [r [Hr [Hsr [Hwr Hrr]]]].
  exists r. split; [exact Hr|]. split; [exact Hsr|]. split; [exact Hwr|].
  intros i Hi.
  apply (row_eq_map _ tensor r n m); try assumption.
  intros j Hj. rewrite Hrr by assumption.
  rewrite tread_tmap, (Hrn i Hi), (Hrow i Hi). cbn [bind].
  destruct (tread tensor [i; j]); reflexivity.
Qed.

Lemma map_id_ext (l : list R) (f : R -> R) :
  (forall x, f x = x) -> map f l = l.
Proof. intros Hf. rewrite <- (map_id l) at 2. apply map_ext. exact Hf. Qed.

(** Normalising twice is normalising once. *)
Theorem unit_length_idempotent (tensor : Tensor R) (n m : nat) :
  wf tensor -> shape tensor = [n; m] ->
  (forall i, i < n -> exists x, In x (row tensor i) /\ x <> 0%R) ->
  exists r, unit_length tensor = Ok r /\ unit_length r = Ok r.
Proof.
  intros Hwf Hsh Hnz.
  destruct (unit_length_rows tensor n m Hwf Hsh) as [r [Hr [Hsr [Hwr Hrows]]]].
  destruct (unit_length_rows r n m Hwr Hsr) as [r' [Hr' [Hsr' [Hwr' Hrows']]]].
  exists r. split; [exact Hr|]. rewrite Hr'. f_equal.
  apply (rows_ext r' r n m); try assumption.
  intros i Hi. rewrite (Hrows' i Hi).
  assert (Hone : sum_sq (row r i) = 1%R).
  { rewrite (Hrows i Hi), sum_sq_scale. unfold rsqrt.
    destruct (Hnz i Hi) as [x [Hin Hx]].
    pose proof (sum_sq_pos _ _ Hin Hx) as Hpos.
    rewrite <- (sqrt_sqrt (sum_sq (row tensor i))) at 3 by lra.
    field. apply Rgt_not_eq. apply sqrt_lt_R0. exact Hpos. }
  rewrite Hone. unfold rsqrt. rewrite sqrt_1.
  apply map_id_ext. intros x. field.
Qed.

Lemma unit_length_idempotent_witness :
  exists r, unit_length (mkT [1; 2]%nat [3; 4]%R) = Ok r /\ unit_length r = Ok r.
Proof.
  apply (unit_length_idempotent (mkT [1; 2]%nat [3; 4]%R) 1 2).
  - reflexivity.
  - reflexivity.
  - intros i Hi. exists 3%R. split; [|lra].
    destruct i as [|i]; [|lia]. cbv - [IZR]. left. reflexivity.
Defined.

(** The result does not change when the input is multiplied by a positive
    number. *)
Theorem unit_length_scale (tensor : Tensor R) (n m : nat) (c : R) :
  wf tensor -> shape tensor = [n; m] ->
  (forall i, i < n -> exists x, In x (row tensor i) /\ x <> 0%R) ->
  (0 < c)%R ->
  unit_length (tmap (fun x => x * c)%R tensor) = unit_length tensor.
Proof.
  intros Hwf Hsh Hnz Hc.
  destruct (unit_length_rows tensor n m Hwf Hsh) as [r [-> [Hsr [Hwr Hrows]]]].
  destruct (unit_length_rows (tmap (fun x => x * c)%R tensor) n m)
    as [r' [-> [Hsr' [Hwr' Hrows']]]].
  { apply wf_tmap. exact Hwf. }
  { exact Hsh. }
  f_equal. apply (rows_ext r' r n m); try assumption.
  intros i Hi. rewrite (Hrows' i Hi), (Hrows i Hi).
  assert (Hrow : row (tmap (fun x => x * c)%R tensor) i
                 = map (fun x => x * c)%R (row tensor i)).
  { apply (row_eq_map _ tensor _ n m); try assumption.
    - apply wf_tmap; exact Hwf.
    - intros j Hj. apply tread_tmap. }
  rewrite Hrow, map_map, sum_sq_scale.
  destruct (Hnz i Hi) as [x [Hin Hx]].
  pose proof (sum_sq_pos _ _ Hin Hx) as Hpos.
  set (S := sum_sq (row tensor i)) in *.
  assert (Hs : sqrt (c * c * S) = (c * sqrt S)%R).
  { rewrite sqrt_mult by nra. rewrite sqrt_square by lra. reflexivity. }
  apply map_ext. intros y. unfold rsqrt. rewrite Hs.
  pose proof (sqrt_lt_R0 S Hpos). field. split; apply Rgt_not_eq; lra.
Qed.

Lemma unit_length_scale_witness :
  unit_length (tmap (fun x => x * 2)%R (mkT [1; 2]%nat [3; 4]%R))
  = unit_length (mkT [1; 2]%nat [3; 4]%R).
Proof.
  apply (unit_length_scale (mkT [1; 2]%nat [3; 4]%R) 1 2 2).
  - reflexivity.
  - reflexivity.
  - intros i Hi. exists 3%R. split; [|lra].
    destruct i as [|i]; [|lia]. cbv - [IZR]. left. reflexivity.
  - lra.
Defined.

(** A tensor of rank 0 or 1 has no dimension 1 to sum over. *)
Theorem unit_length_rank (tensor : Tensor R) :
  rank tensor <= 1 -> unit_length tensor = Err InvalidArgument.
Proof.
  intros Hr. unfold unit_length, rank in *.
  destruct (TF.binop Rmult tensor tensor) as [sq|e] eqn:Hsq.
  - cbn [bind]. unfold TF.binop in Hsq. rewrite broadcast_shape_same in Hsq.
    apply tbuild_shape in Hsq. destruct Hsq as [Hs _].
    unfold TF.reduce_sum, TF.reduce_axis. rewrite Hs.
    replace (1 <? length (shape tensor)) with false
      by (symmetry; apply Nat.ltb_ge; exact Hr).
    reflexivity.
  - apply invalid_binop in Hsq. subst e. reflexivity.
Qed.

Lemma unit_length_rank_witness :
  unit_length (vector [3; 4]%R) = Err InvalidArgument.
Proof.
  apply (unit_length_rank (vector [3; 4]%R)). unfold rank. simpl. lia.
Defined.

(** ** [segment_softmax] as a distribution over every group *)

(** Row [i] of the result: every score of the row, exponentiated, over the sum
    of the exponentials of the group of row [i]. *)
Lemma segment_softmax_rows (scores : Tensor R) (partition : Tensor Z) (n m : nat) :
  wf scores -> shape scores = [n; m] ->
  wf partition -> shape partition = [n] ->
  sorted_partition partition ->
  exists probs, segment_softmax scores partition = Ok probs
    /\ shape probs = [n; m] /\ wf probs /\
    forall i z, i < n -> tget partition [i] = Some z ->
      row probs i
      = map (fun x => exp x / sum_R (map exp (group_cells scores partition z)))%R
            (row scores i).
Proof.
  intros Hws Hss Hwp Hsp Hsorted.
  assert (Hlp : length (data partition) = n).
  { unfold wf in Hwp. rewrite Hwp, Hsp. cbn. lia. }
  unfold segment_softmax, TF.reduce_max, TF.reduce_sum, TF.segment_max, TF.segment_sum.
  destruct (reduce_rows (fun l => Ok (max_list l)) scores n m false Hws Hss)
    as [rowmax [-> [Hsrm [Hwrm Hrrm]]]].
  { intros i Hi. eexists; reflexivity. }
  cbn [bind].
  pose proof (vec_data rowmax n (fun r => max_list (row scores r)) Hwrm Hsrm Hrrm)
    as Hdrm.
  set (seg_max := fun l : list R => match l with [] => zero | _ :: _ => max_list l end).
  destruct (segment_reduce_gather seg_max rowmax partition n Hwrm Hsrm Hwp Hsp Hsorted)
    as [mpp [g [Hmpp [Hg [Hsg [Hwg Hrg]]]]]].
  rewrite Hmpp. cbn [bind]. rewrite Hg.
  cbn [bind]. rewrite (expand_dims_vector g n Hsg). cbn [bind].
  set (Mg := fun z : Z => seg_max (segment_vals (data rowmax) (data partition) z)).
  destruct (binop_col Rminus scores (mkT [n; 1] (data g)) n m Hws
              (wf_column g n Hwg Hsg) Hss eq_refl) as [sh [-> [Hssh [Hwsh Hrsh]]]].
  cbn [bind].
  assert (Hexp : forall i j z, i < n -> j < m -> tget partition [i] = Some z ->
            tread (tmap exp sh) [i; j]
            = (x <- tread scores [i; j] ;; Ok (exp (x - Mg z)))).
  { intros i j z Hi Hj Hz. rewrite tread_tmap, Hrsh by assumption.
    rewrite (tread_column g n i Hwg Hsg Hi).
    destruct (Hrg i Hi) as [z' [Hz' Hread]]. rewrite Hz in Hz'. injection Hz' as <-.
    rewrite Hread. fold (Mg z).
    destruct (tread scores [i; j]); reflexivity. }
  assert (Hrowexp : forall i z, i < n -> tget partition [i] = Some z ->
            row (tmap exp sh) i = map (fun x => exp (x - Mg z)) (row scores i)).
  { intros i z Hi Hz. apply (row_eq_map _ scores (tmap exp sh) n m); try assumption.
    - apply wf_tmap; exact Hwsh.
    - intros j Hj. apply (Hexp i j z Hi Hj Hz). }
  destruct (reduce_rows (fun l => Ok (sum_R l)) (tmap exp sh) n m false
              (wf_tmap _ _ Hwsh) Hssh) as [rowsum [-> [Hsrs [Hwrs Hrrs]]]].
  { intros i Hi. eexists; reflexivity. }
  cbn [bind].
  pose proof (vec_data rowsum n (fun r => sum_R (row (tmap exp sh) r)) Hwrs Hsrs Hrrs)
    as Hdrs.
  destruct (segment_reduce_gather sum_R rowsum partition n Hwrs Hsrs Hwp Hsp Hsorted)
    as [spp [s [Hspp [Hs [Hs_s [Hws_s Hrs_s]]]]]].
  rewrite Hspp. cbn [bind]. rewrite Hs.
  cbn [bind]. rewrite (expand_dims_vector s n Hs_s). cbn [bind].
  assert (HS : forall i z, i < n -> tget partition [i] = Some z ->
            sum_R (segment_vals (data rowsum) (data partition) z)
            = sum_R (map (fun y => exp (y - Mg z)) (group_cells scores partition z))).
  { intros i z Hi Hz. rewrite Hdrs, <- Hlp, segment_vals_map.
    fold (group_rows (data partition) z). unfold group_cells.
    rewrite (sum_R_flat_map (fun r => row (tmap exp sh) r)).
    f_equal. rewrite !flat_map_concat_map, concat_map, map_map.
    f_equal. apply map_ext_in.
    intros r Hr. apply in_group_rows in Hr.
    assert (Hrn : r < n) by (rewrite <- Hlp; apply nth_error_Some; congruence).
    apply Hrowexp; [exact Hrn|]. rewrite (tget_vec partition n) by assumption.
    exact Hr. }
  destruct (binop_col Rdiv (tmap exp sh) (mkT [n; 1] (data s)) n m
              (wf_tmap _ _ Hwsh) (wf_column s n Hws_s Hs_s) Hssh eq_refl)
    as [probs [Hprobs [Hsprobs [Hwprobs Hrprobs]]]].
  exists probs. split; [exact Hprobs|]. split; [exact Hsprobs|].
  split; [exact Hwprobs|].
  intros i z Hi Hz.
  transitivity (map (fun x => exp (x - Mg z)
                       / sum_R (map (fun y => exp (y - Mg z))
                                    (group_cells scores partition z)))%R
                    (row scores i)).
  - apply (row_eq_map _ scores probs n m); try assumption.
    intros j Hj. rewrite Hrprobs, (Hexp i j z) by assumption.
    rewrite (tread_column s n i Hws_s Hs_s Hi).
    destruct (Hrs_s i Hi) as [z' [Hz' Hread]]. rewrite Hz in Hz'. injection Hz' as <-.
    rewrite Hread, (HS i z Hi Hz).
    destruct (tread scores [i; j]); reflexivity.
  - apply map_ext_in. intros x Hx. apply softmax_shift.
    intros Hnil.
    assert (Hin : In x (group_cells scores partition z)).
    { unfold group_cells. apply in_flat_map. exists i. split; [|exact Hx].
      apply in_group_rows. rewrite <- (tget_vec partition n) by assumption. exact Hz. }
    rewrite Hnil in Hin. destruct Hin.
Qed.

Lemma map_flat_map_rows {X Y : Type} (h : X -> Y) (f : nat -> list X) (l : list nat) :
  map h (flat_map f l) = flat_map (fun r => map h (f r)) l.
Proof.
  induction l as [|r l IH]; cbn [flat_map map]; [reflexivity|].
  rewrite map_app, IH. reflexivity.
Qed.

Lemma sum_R_map_div (f : R -> R) (S : R) (l : list R) :
  sum_R (map (fun x => f x / S)%R l) = (sum_R (map f l) / S)%R.
Proof.
  unfold sum_R. induction l as [|x l IH]; cbn [map fold_right]; [lra|].
  rewrite IH. lra.
Qed.

Lemma sum_R_term (f : R -> R) (l : list R) (x : R) :
  (forall y, 0 < f y)%R -> In x l -> (f x <= sum_R (map f l))%R.
Proof.
  intros Hpos. unfold sum_R.
  assert (Hnn : forall l', (0 <= fold_right Rplus 0 (map f l'))%R).
  { induction l' as [|z l' IH]; cbn [map fold_right]; [lra|].
    pose proof (Hpos z). lra. }
  induction l as [|y l IH]; intros Hin; [destruct Hin|].
  cbn [map fold_right]. specialize (Hnn l).
  destruct Hin as [->|Hin]; [lra|].
  specialize (IH Hin). pose proof (Hpos y). lra.
Qed.

(** The cells of the rows of one group. *)
Lemma group_cells_rows (scores probs : Tensor R) (partition : Tensor Z) (n m : nat)
  (z : Z) (h : R -> R) :
  wf partition -> shape partition = [n] ->
  (forall i, i < n -> tget partition [i] = Some z ->
     row probs i = map h (row scores i)) ->
  group_cells probs partition z = map h (group_cells scores partition z).
Proof.
  intros Hwp Hsp Hrows. unfold group_cells. rewrite map_flat_map_rows.
  assert (Hlp : length (data partition) = n).
  { unfold wf in Hwp. rewrite Hwp, Hsp. cbn. lia. }
  rewrite !flat_map_concat_map. f_equal. apply map_ext_in.
  intros r Hr. apply in_group_rows in Hr.
  apply Hrows.
  - rewrite <- Hlp. apply nth_error_Some. congruence.
  - rewrite (tget_vec partition n) by assumption. exact Hr.
Qed.

(** The probabilities of every group add up to 1. *)
Theorem segment_softmax_group_sum (scores : Tensor R) (partition : Tensor Z)
  (n m : nat) :
  wf scores -> shape scores = [n; m] ->
  wf partition -> shape partition = [n] ->
  sorted_partition partition -> 1 <= m ->
  exists probs, segment_softmax scores partition = Ok probs /\
    forall g, In g (data partition) -> sum_R (group_cells probs partition g) = 1%R.
Proof.
  intros Hws Hss Hwp Hsp Hsorted Hm.
  destruct (segment_softmax_rows scores partition n m Hws Hss Hwp Hsp Hsorted)
    as [probs [Hprobs [Hsprobs [Hwprobs Hrows]]]].
  exists probs. split; [exact Hprobs|]. intros g Hg.
  rewrite (group_cells_rows scores probs partition n m g
             (fun x => exp x / sum_R (map exp (group_cells scores partition g)))%R
             Hwp Hsp)
    by (intros i Hi Hz; apply Hrows; assumption).
  rewrite (sum_R_map_div exp).
  assert (Hne : group_cells scores partition g <> []).
  { apply In_nth_error in Hg. destruct Hg as [r Hr].
    assert (Hlp : length (data partition) = n).
    { unfold wf in Hwp. rewrite Hwp, Hsp. cbn. lia. }
    assert (Hrn : r < n) by (rewrite <- Hlp; apply nth_error_Some; congruence).
    destruct (wf_tget scores [r; 0] Hws) as [x Hx].
    { rewrite Hss. apply in_indices2. exists r, 0. split; [reflexivity|lia]. }
    intros Hnil.
    assert (Hin : In x (group_cells scores partition g)).
    { unfold group_cells. apply in_flat_map. exists r.
      split; [apply in_group_rows; exact Hr|].
      rewrite <- (nth_error_row scores n m r 0 Hss Hrn Hm) in Hx.
      eapply nth_error_In; exact Hx. }
    rewrite Hnil in Hin. destruct Hin. }
  pose proof (sum_exp_pos _ Hne) as Hpos. field. lra.
Qed.

Lemma segment_softmax_group_sum_witness :
  exists probs,
    segment_softmax (mkT [3; 1]%nat [1; 2; 3]%R) (vector [0; 0; 1]%Z) = Ok probs /\
    forall g, In g (data (vector [0; 0; 1]%Z)) ->
      sum_R (group_cells probs (vector [0; 0; 1]%Z) g) = 1%R.
Proof.
  apply (segment_softmax_group_sum (mkT [3; 1]%nat [1; 2; 3]%R) (vector [0; 0; 1]%Z) 3 1).
  - reflexivity.
  - reflexivity.
  - reflexivity.
  - reflexivity.
  - apply segment_ids_ok_iff. reflexivity.
  - lia.
Defined.

(** Every probability lies in (0, 1]. *)
Theorem segment_softmax_range (scores : Tensor R) (partition : Tensor Z)
  (n m : nat) :
  wf scores -> shape scores = [n; m] ->
  wf partition -> shape partition = [n] ->
  sorted_partition partition ->
  exists probs, segment_softmax scores partition = Ok probs /\
    forall i j, i < n -> j < m ->
      exists p, tget probs [i; j] = Some p /\ (0 < p <= 1)%R.
Proof.
  intros Hws Hss Hwp Hsp Hsorted.
  destruct (segment_softmax_rows scores partition n m Hws Hss Hwp Hsp Hsorted)
    as [probs [Hprobs [Hsprobs [Hwprobs Hrows]]]].
  exists probs. split; [exact Hprobs|]. intros i j Hi Hj.
  destruct (wf_tget partition [i] Hwp) as [z Hz].
  { rewrite Hsp. apply in_indices1. exists i; auto. }
  destruct (wf_tget scores [i; j] Hws) as [x Hx].
  { rewrite Hss. apply in_indices2. exists i, j; auto. }
  set (S := sum_R (map exp (group_cells scores partition z))).
  exists (exp x / S)%R. split.
  - rewrite <- (nth_error_row probs n m i j Hsprobs Hi Hj), (Hrows i z Hi Hz).
    rewrite nth_error_map, (nth_error_row scores n m i j Hss Hi Hj), Hx. reflexivity.
  - assert (Hin : In x (group_cells scores partition z)).
    { unfold group_cells. apply in_flat_map. exists i. split.
      - apply in_group_rows. rewrite <- (tget_vec partition n) by assumption. exact Hz.
      - rewrite <- (nth_error_row scores n m i j Hss Hi Hj) in Hx.
        eapply nth_error_In; exact Hx. }
    pose proof (sum_R_term exp _ x exp_pos Hin) as Hle. fold S in Hle.
    pose proof (exp_pos x) as Hex.
    split.
    + apply Rdiv_lt_0_compat; lra.
    + assert (Hd : (exp x / S <= S / S)%R).
      { unfold Rdiv. apply Rmult_le_compat_r; [|exact Hle].
        left. apply Rinv_0_lt_compat. lra. }
      replace (S / S)%R with 1%R in Hd by (field; lra). exact Hd.
Qed.

Lemma segment_softmax_range_witness :
  exists probs,
    segment_softmax (mkT [3; 1]%nat [1; 2; 3]%R) (vector [0; 0; 1]%Z) = Ok probs /\
    forall i j, i < 3 -> j < 1 ->
      exists p, tget probs [i; j] = Some p /\ (0 < p <= 1)%R.
Proof.
  apply (segment_softmax_range (mkT [3; 1]%nat [1; 2; 3]%R) (vector [0; 0; 1]%Z) 3 1).
  - reflexivity.
  - reflexivity.
  - reflexivity.
  - reflexivity.
  - apply segment_ids_ok_iff. reflexivity.
Defined.

(** ** Partitions that the segment reductions reject *)

Lemma segment_reduce_rejects {A : Type} (f : list A -> A) (dat : Tensor A)
  (ids : Tensor Z) (n : nat) (rest : list nat) :
  shape dat = n :: rest ->
  shape ids <> [n] \/ ~ sorted_partition ids ->
  TF.segment_reduce f dat ids = Err InvalidArgument.
Proof.
  intros Hsd Hbad. unfold TF.segment_reduce. rewrite Hsd.
  destruct (shape ids) as [|n' [|n'' rest']] eqn:Es; try reflexivity.
  destruct ((n =? n') && (length (data ids) =? n')) eqn:G; [|reflexivity].
  cbn [guard bind].
  destruct (TF.segment_ids_ok (data ids)) eqn:Hok; [|reflexivity].
  exfalso. apply andb_true_iff in G. destruct G as [G _]. apply Nat.eqb_eq in G.
  subst n'. destruct Hbad as [Hs|Hs]; [apply Hs; reflexivity|].
  apply Hs. apply segment_ids_ok_iff. exact Hok.
Qed.

(** [segment_softmax] needs one id per row, none negative, in non-decreasing
    order: any other partition is rejected by [tf.segment_max]. *)
Theorem segment_softmax_rejects (scores : Tensor R) (partition : Tensor Z)
  (n m : nat) :
  wf scores -> shape scores = [n; m] ->
  shape partition <> [n] \/ ~ sorted_partition partition ->
  segment_softmax scores partition = Err InvalidArgument.
Proof.
  intros Hws Hss Hbad. unfold segment_softmax, TF.reduce_max.
  destruct (reduce_rows (fun l => Ok (max_list l)) scores n m false Hws Hss)
    as [rowmax [-> [Hsrm _]]].
  { intros i Hi. eexists; reflexivity. }
  cbn [bind]. unfold TF.segment_max.
  rewrite (segment_reduce_rejects _ rowmax partition n [] Hsrm Hbad). reflexivity.
Qed.

Lemma segment_softmax_rejects_witness :
  segment_softmax (mkT [2; 1]%nat [0; 0]%R) (vector [0; -1]%Z) = Err InvalidArgument.
Proof.
  apply (segment_softmax_rejects (mkT [2; 1]%nat [0; 0]%R) (vector [0; -1]%Z) 2 1).
  - reflexivity.
  - reflexivity.
  - right. intros Hs. apply segment_ids_ok_iff in Hs. simpl in Hs. discriminate.
Defined.

(** ** [segment_softmax] with one row per group *)

Lemma segment_vals_seq (s k i : nat) :
  segment_vals (seq s k) (map Z.of_nat (seq s k)) (Z.of_nat i)
  = if (s <=? i) && (i <? s + k) then [i] else [].
Proof.
  revert s. induction k as [|k IH]; intros s.
  - destruct ((s <=? i) && (i <? s + 0)) eqn:E; [|reflexivity].
    apply andb_true_iff in E. destruct E as [E1 E2].
    apply Nat.leb_le in E1. apply Nat.ltb_lt in E2. lia.
  - unfold segment_vals in *. cbn [seq map combine filter fst].
    destruct (Z.of_nat s =? Z.of_nat i)%Z eqn:E.
    + apply Z.eqb_eq in E. apply Nat2Z.inj in E. subst s.
      cbn [map snd]. rewrite IH.
      replace (S i <=? i) with false by (symmetry; apply Nat.leb_gt; lia).
      replace (i <=? i) with true by (symmetry; apply Nat.leb_le; lia).
      replace (i <? i + S k) with true by (symmetry; apply Nat.ltb_lt; lia).
      reflexivity.
    + apply Z.eqb_neq in E. rewrite IH.
      assert (Hne : s <> i) by (intros ->; apply E; reflexivity).
      replace (S s + k) with (s + S k) by lia.
      replace (S s <=? i) with (s <=? i); [reflexivity|].
      destruct (s <=? i) eqn:E1; symmetry.
      * apply Nat.leb_le. apply Nat.leb_le in E1. lia.
      * apply Nat.leb_gt. apply Nat.leb_gt in E1. lia.
Qed.

Lemma sorted_range (n : nat) : sorted_partition (vector (map Z.of_nat (seq 0 n))).
Proof.
  split.
  - apply Forall_forall. intros z Hz. cbn [vector data] in Hz.
    apply in_map_iff in Hz. destruct Hz as [i [<- _]]. lia.
  - intros i j x y Hij Hx Hy. cbn [vector data] in Hx, Hy.
    rewrite nth_error_map, nth_error_seq in Hx, Hy.
    destruct (i <? n); [|discriminate]. destruct (j <? n); [|discriminate].
    cbn in Hx, Hy. injection Hx as <-. injection Hy as <-. lia.
Qed.

(** When every row is a group of its own, [segment_softmax] is the softmax of
    every row. *)
Theorem segment_softmax_singletons (scores : Tensor R) (n m : nat) :
  wf scores -> shape scores = [n; m] ->
  exists probs,
    segment_softmax scores (vector (map Z.of_nat (seq 0 n))) = Ok probs
    /\ shape probs = [n; m] /\
    forall i, i < n ->
      row probs i = map (fun x => exp x / sum_R (map exp (row scores i)))%R
                        (row scores i).
Proof.
  intros Hws Hss. set (partition := vector (map Z.of_nat (seq 0 n))).
  assert (Hsp : shape partition = [n]).
  { unfold partition, vector. cbn [shape]. rewrite length_map, length_seq. reflexivity. }
  destruct (segment_softmax_rows scores partition n m Hws Hss (wf_vector _) Hsp
              (sorted_range n)) as [probs [Hprobs [Hsprobs [Hwprobs Hrows]]]].
  exists probs. split; [exact Hprobs|]. split; [exact Hsprobs|].
  intros i Hi.
  assert (Hz : tget partition [i] = Some (Z.of_nat i)).
  { apply tread_Ok. apply tread_range. exact Hi. }
  rewrite (Hrows i _ Hi Hz).
  assert (Hcells : group_cells scores partition (Z.of_nat i) = row scores i).
  { unfold group_cells, group_rows, partition. cbn [vector data].
    rewrite length_map, length_seq, segment_vals_seq.
    replace ((0 <=? i) && (i <? 0 + n)) with true
      by (symmetry; apply andb_true_iff; split;
          [apply Nat.leb_le|apply Nat.ltb_lt]; lia).
    cbn [flat_map]. apply app_nil_r. }
  rewrite Hcells. reflexivity.
Qed.

Lemma segment_softmax_singletons_witness :
  exists probs,
    segment_softmax (mkT [2; 2]%nat [1; 2; 3; 4]%R) (vector (map Z.of_nat (seq 0 2)))
    = Ok probs
    /\ shape probs = [2; 2] /\
    forall i, i < 2 ->
      row probs i
      = map (fun x => exp x
                      / sum_R (map exp (row (mkT [2; 2]%nat [1; 2; 3; 4]%R) i)))%R
            (row (mkT [2; 2]%nat [1; 2; 3; 4]%R) i).
Proof.
  apply (segment_softmax_singletons (mkT [2; 2]%nat [1; 2; 3; 4]%R) 2 2).
  - reflexivity.
  - reflexivity.
Defined.

(** ** [tf.argmax] of a row of booleans *)

Lemma argmax_from_bool (l : list bool) (b : bool) (bi i : nat) :
  let p := TF.argmax_from (bool_to_Z b) bi i (map bool_to_Z l) in
  (b = true /\ p = bi)
  \/ (b = false /\ existsb (fun x => x) l = false /\ p = bi)
  \/ (b = false /\ i <= p < i + length l /\ nth_error l (p - i) = Some true).
Proof.
  revert b bi i. induction l as [|x l IH]; intros b bi i; cbn [map TF.argmax_from].
  - destruct b; [left|right; left]; auto.
  - destruct b.
    + replace (leb (bool_to_Z x) (bool_to_Z true)) with true
        by (destruct x; reflexivity).
      destruct (IH true bi (S i)) as [[_ Hp]|[[E _]|[E _]]]; try discriminate.
      left. split; [reflexivity|exact Hp].
    + destruct x.
      * change (leb (bool_to_Z true) (bool_to_Z false)) with false. cbv iota.
        destruct (IH true i (S i)) as [[_ Hp]|[[E _]|[E _]]]; try discriminate.
        right; right. split; [reflexivity|]. cbn zeta in Hp. rewrite Hp.
        cbn [length]. split; [lia|]. rewrite Nat.sub_diag. reflexivity.
      * change (leb (bool_to_Z false) (bool_to_Z false)) with true. cbv iota.
        destruct (IH false bi (S i)) as [[E _]|[[_ [He Hp]]|[_ [Hr Hn]]]];
          try discriminate.
        -- right; left. split; [reflexivity|]. split; [exact He|exact Hp].
        -- right; right. split; [reflexivity|]. cbn zeta in Hr, Hn |- *.
           cbn [length]. split; [lia|].
           replace (TF.argmax_from (bool_to_Z false) bi (S i) (map bool_to_Z l) - i)
             with (S (TF.argmax_from (bool_to_Z false) bi (S i) (map bool_to_Z l) - S i))
             by lia.
           exact Hn.
Qed.

(** On a row with a true cell, [tf.argmax] returns the position of a true
    cell. *)
Lemma argmax_first_true (l : list bool) :
  existsb (fun x => x) l = true ->
  exists c, TF.argmax_list (map bool_to_Z l) = Ok (Z.of_nat c)
    /\ nth_error l c = Some true.
Proof.
  destruct l as [|x l]; [discriminate|]. intros He.
  cbn [map TF.argmax_list]. eexists. split; [reflexivity|].
  destruct (argmax_from_bool l x 0 1) as [[-> Hp]|[[-> [Hf Hp]]|[-> [Hr Hn]]]];
    cbn zeta in *.
  - rewrite Hp. reflexivity.
  - cbn [existsb orb] in He. congruence.
  - destruct (TF.argmax_from (bool_to_Z false) 0 1 (map bool_to_Z l)) as [|p];
      [lia|].
    cbn [nth_error]. replace (S p - 1) with p in Hn by lia. exact Hn.
Qed.

(** ** The rows that [segment_argmax] selects *)

Lemma filter_count (h : nat -> bool) (n : nat) :
  Z.of_nat (length (filter h (seq 0 n)))
  = bigsum (fun i => if h i then 1%Z else 0%Z) n.
Proof.
  induction n as [|n IH]; [reflexivity|].
  rewrite seq_S, filter_app, length_app, Nat2Z.inj_add, IH.
  cbn [bigsum Nat.add filter]. destruct (h n); cbn [length]; lia.
Qed.

Lemma row_selected_count (t : Tensor bool) (n m i : nat) :
  wf t -> shape t = [n; m] -> i < n ->
  (existsb (fun b => b) (row t i) = true <-> (1 <= row_count t m i)%Z).
Proof.
  intros Hw Hs Hi. split.
  - intros He. apply existsb_exists in He. destruct He as [b [Hin ->]].
    apply In_nth_error in Hin. destruct Hin as [j Hj].
    assert (Hjm : j < m).
    { rewrite <- (length_row t n m i Hw Hs Hi). apply nth_error_Some. congruence. }
    rewrite (nth_error_row t n m i j Hs Hi Hjm) in Hj.
    apply bcell_true in Hj. rewrite <- Hj. unfold row_count.
    apply (bigsum_term (fun j => bcell t i j)); [|exact Hjm].
    intros k _. apply bcell_range.
  - intros Hc. destruct (existsb (fun b => b) (row t i)) eqn:He; [reflexivity|].
    exfalso. unfold row_count in Hc. rewrite bigsum_zero in Hc; [lia|].
    intros j Hj. pose proof (bcell_range t i j) as Hr.
    destruct (Z.eq_dec (bcell t i j) 1) as [E|E]; [|lia].
    apply bcell_true in E. rewrite <- (nth_error_row t n m i j Hs Hi Hj) in E.
    apply nth_error_In in E.
    assert (Ht : existsb (fun b => b) (row t i) = true).
    { apply existsb_exists. exists true. auto. }
    congruence.
Qed.

(** One true cell in the whole matrix: one selected row. *)
Lemma one_candidate_one_row (t : Tensor bool) (n m : nat) :
  wf t -> shape t = [n; m] ->
  sum_Z (map bool_to_Z (data t)) = 1%Z ->
  length (filter (fun i => existsb (fun b => b) (row t i)) (seq 0 n)) = 1.
Proof.
  intros Hw Hs Hc. rewrite (count_cells t n m Hw Hs) in Hc.
  change (bigsum (fun i => row_count t m i) n = 1%Z) in Hc.
  set (h := fun i => existsb (fun b => b) (row t i)).
  pose proof (filter_count h n) as Hk.
  assert (Hle : (bigsum (fun i => if h i then 1 else 0) n
                 <= bigsum (fun i => row_count t m i) n)%Z).
  { apply bigsum_le. intros i Hi. unfold h.
    destruct (existsb (fun b => b) (row t i)) eqn:He.
    - apply (row_selected_count t n m i Hw Hs Hi). exact He.
    - apply row_count_nonneg. }
  assert (Hge : (1 <= bigsum (fun i => if h i then 1 else 0) n)%Z).
  { destruct (Z_lt_le_dec (bigsum (fun i => if h i then 1%Z else 0%Z) n) 1)
      as [Hlt|Hge]; [|exact Hge].
    exfalso.
    assert (Hz : bigsum (fun i => row_count t m i) n = 0%Z).
    { apply bigsum_zero. intros i Hi.
      pose proof (bigsum_term (fun i => if h i then 1%Z else 0%Z) n i
                    ltac:(intros k _; cbn beta; destruct (h k); lia) Hi) as Hterm.
      cbn beta in Hterm. destruct (h i) eqn:He; [lia|]. unfold h in He.
      pose proof (row_count_nonneg t m i) as Hnn.
      destruct (Z_lt_le_dec (row_count t m i) 1) as [Hl|Hg]; [lia|].
      apply (row_selected_count t n m i Hw Hs Hi) in Hg. congruence. }
    lia. }
  lia.
Qed.

Section SegmentArgmaxSuccess.
Context {A : Type} `{NumLaws A}.

(** Any other partition than one id per row, none negative, in
    non-decreasing order, is rejected by [tf.segment_max]. *)
Lemma segment_argmax_unsorted (input : Tensor A) (partition : Tensor Z) (n m : nat) :
  wf input -> shape input = [n; m] ->
  shape partition <> [n] \/ ~ sorted_partition partition ->
  segment_argmax input partition = Err InvalidArgument.
Proof.
  intros Hwi Hsi Hbad. unfold segment_argmax. rewrite binop_scalars. cbn [bind].
  unfold TF.reduce_max.
  destruct (reduce_rows (fun l => Ok (max_list l)) input n m false Hwi Hsi)
    as [rowmax [-> [Hsrm _]]].
  { intros i Hi. eexists; reflexivity. }
  cbn [bind]. unfold TF.segment_max.
  rewrite (segment_reduce_rejects _ rowmax partition n [] Hsrm Hbad). reflexivity.
Qed.

(** What a result of [segment_argmax] tells: the partition is sorted, the
    assertion has passed, the rows returned are the rows that hold a greatest
    cell of their group, there is not exactly one of them, and the column
    returned for a row is the column of such a cell. *)
Lemma segment_argmax_success (input : Tensor A) (partition : Tensor Z) (n m : nat)
  (rows cols : Tensor Z) :
  wf input -> shape input = [n; m] ->
  wf partition -> shape partition = [n] ->
  segment_argmax input partition = Ok (rows, cols) ->
  sorted_partition partition /\
  exists is_max sel,
    shape is_max = [n; m] /\ wf is_max
    /\ (forall i j, i < n -> j < m ->
          exists z x, tget partition [i] = Some z /\ tget input [i; j] = Some x
            /\ tget is_max [i; j]
               = Some (eqb x (max_list (group_cells input partition z))))
    /\ add64 (max_list (data partition)) 1 = sum_Z (map bool_to_Z (data is_max))
    /\ sel = filter (fun i => existsb (fun b => b) (row is_max i)) (seq 0 n)
    /\ length sel <> 1
    /\ rows = mkT [length sel] (map Z.of_nat sel)
    /\ shape cols = [length sel]
    /\ forall a, a < length sel ->
         nth a sel 0 < n /\
         exists c, c < m /\ tget cols [a] = Some (Z.of_nat c)
           /\ tget is_max [nth a sel 0; c] = Some true.
Proof.
  intros Hwi Hsi Hwp Hsp Hres.
  assert (Hsorted : sorted_partition partition).
  { destruct (TF.segment_ids_ok (data partition)) eqn:Hok;
      [apply segment_ids_ok_iff; exact Hok|].
    rewrite (segment_argmax_unsorted input partition n m Hwi Hsi) in Hres;
      [discriminate|].
    right. intros Hs. apply segment_ids_ok_iff in Hs. congruence. }
  split; [exact Hsorted|].
  destruct (segment_argmax_assert input partition n m Hwi Hsi Hwp Hsp Hsorted)
    as [is_max [Hsim [Hwim [Hcand Heq]]]].
  rewrite Heq in Hres. clear Heq.
  destruct (add64 (max_list (data partition)) 1
            =? sum_Z (map bool_to_Z (data is_max)))%Z eqn:Hassert;
    [|discriminate].
  apply Z.eqb_eq in Hassert. cbn [guard bind] in Hres. unfold TF.reduce_any in Hres.
  destruct (reduce_rows (fun l => Ok (existsb (fun b : bool => b) l)) is_max n m false
              Hwim Hsim) as [row_selected [Hrs [Hsrs [Hwrs Hrrs]]]].
  { intros i Hi. eexists; reflexivity. }
  rewrite Hrs in Hres. cbn [bind] in Hres.
  pose proof (vec_data row_selected n
                (fun i => existsb (fun b : bool => b) (row is_max i)) Hwrs Hsrs Hrrs)
    as Hdrs.
  rewrite (where_vector row_selected n _ Hsrs Hdrs) in Hres.
  set (sel := filter (fun i => existsb (fun b : bool => b) (row is_max i)) (seq 0 n))
    in *.
  assert (Hsel : forall a, a < length sel ->
            nth a sel 0 < n
            /\ existsb (fun b : bool => b) (row is_max (nth a sel 0)) = true).
  { intros a Ha. pose proof (nth_In sel 0 Ha) as Hin. unfold sel in Hin at 2.
    apply filter_In in Hin. destruct Hin as [Hin Hh]. apply in_seq in Hin.
    split; [lia|exact Hh]. }
  exists is_max, sel. split; [exact Hsim|]. split; [exact Hwim|].
  split; [exact Hcand|]. split; [exact Hassert|]. split; [reflexivity|].
  unfold TF.squeeze_all in Hres. cbn [shape data filter] in Hres.
  destruct (length sel =? 1) eqn:E1; cbn [negb Nat.eqb] in Hres.
  - exfalso.
    destruct (TF.gather is_max (mkT [] (map Z.of_nat sel))) as [g|e] eqn:Hg;
      [|discriminate].
    cbn [bind] in Hres. apply gather_shape in Hg. destruct Hg as [Hsg _].
    rewrite Hsim in Hsg. cbn [shape app tl] in Hsg.
    unfold TF.argmax, TF.reduce_axis in Hres. cbn [shape tmap] in Hres.
    rewrite Hsg in Hres. cbn in Hres. discriminate.
  - apply Nat.eqb_neq in E1. split; [exact E1|].
    set (row_indices := mkT [length sel] (map Z.of_nat sel)) in *.
    assert (Hri : forall a, a < length sel ->
              tread row_indices [a] = Ok (Z.of_nat (nth a sel 0))).
    { intros a Ha. unfold tread.
      rewrite (tget_at row_indices _ a) by (apply ravel1; exact Ha).
      unfold row_indices. cbn [data]. rewrite nth_error_map.
      rewrite (nth_error_nth' sel 0 Ha). reflexivity. }
    destruct (gather_reads is_max row_indices n [m] Hsim)
      as [selt [Hselt [Hsselt [Hwselt Hrselt]]]].
    { intros I HI. cbn [shape row_indices app length] in HI |- *.
      apply in_indices2 in HI. destruct HI as [a [j [-> [Ha Hj]]]].
      cbn [firstn skipn]. destruct (Hsel a Ha) as [Hi _].
      destruct (wf_tread is_max [nth a sel 0; j] Hwim) as [b Hb].
      { rewrite Hsim. apply in_indices2. eexists _, _. split; [reflexivity|]. lia. }
      exists (Z.of_nat (nth a sel 0)), b. rewrite Nat2Z.id.
      repeat split; [apply Hri; exact Ha|lia|exact Hb]. }
    rewrite Hselt in Hres. cbn [bind] in Hres.
    cbn [shape row_indices app length] in Hsselt, Hrselt.
    assert (Hrow : forall a, a < length sel -> row selt a = row is_max (nth a sel 0)).
    { intros a Ha. destruct (Hsel a Ha) as [Hi _].
      apply (row_eq selt is_max (length sel) n m); try assumption.
      intros j Hj. destruct (Hrselt [a; j]) as [z [Hz Hread]].
      { apply in_indices2. exists a, j. auto. }
      cbn [firstn skipn] in Hz, Hread. rewrite (Hri a Ha) in Hz. injection Hz as <-.
      rewrite Nat2Z.id in Hread. apply tread_inj in Hread. exact Hread. }
    assert (Hmap : forall a, a < length sel ->
              row (tmap bool_to_Z selt) a = map bool_to_Z (row is_max (nth a sel 0))).
    { intros a Ha. rewrite <- (Hrow a Ha).
      apply (row_eq_map bool_to_Z selt (tmap bool_to_Z selt) (length sel) m a);
        try assumption; try (apply wf_tmap; assumption).
      intros j Hj. apply tread_tmap. }
    unfold TF.argmax in Hres.
    destruct (reduce_rows TF.argmax_list (tmap bool_to_Z selt) (length sel) m false
                (wf_tmap _ _ Hwselt) Hsselt) as [cols0 [Hcols [Hscols [Hwcols Hrcols]]]].
    { intros a Ha. destruct (Hsel a Ha) as [_ He].
      destruct (argmax_first_true _ He) as [c [Hc _]].
      exists (Z.of_nat c). rewrite (Hmap a Ha). exact Hc. }
    rewrite Hcols in Hres. cbn [bind] in Hres. injection Hres as <- <-.
    split; [reflexivity|]. split; [exact Hscols|].
    intros a Ha. destruct (Hsel a Ha) as [Hi He]. split; [exact Hi|].
    destruct (argmax_first_true _ He) as [c [Hc Hn]].
    assert (Hcm : c < m).
    { rewrite <- (length_row is_max n m (nth a sel 0) Hwim Hsim Hi).
      apply nth_error_Some. congruence. }
    exists c. split; [exact Hcm|]. split.
    + apply tread_Ok. rewrite (Hrcols a Ha), (Hmap a Ha). exact Hc.
    + rewrite <- (nth_error_row is_max n m (nth a sel 0) c Hsim Hi Hcm). exact Hn.
Qed.

End SegmentArgmaxSuccess.

Lemma increasing_nth (l : list nat) (a b : nat) :
  StronglySorted lt l -> a < b -> b < length l -> nth a l 0 < nth b l 0.
Proof.
  intros Hs. revert a b. induction Hs as [|x l Hs IH Hx]; intros a b Hab Hb.
  - cbn in Hb. lia.
  - destruct b as [|b]; [lia|]. cbn [length] in Hb. destruct a as [|a]; cbn [nth].
    + rewrite Forall_forall in Hx. apply Hx. apply nth_In. lia.
    + apply IH; lia.
Qed.

Lemma sum_bool_nonneg (l : list bool) : (0 <= sum_Z (map bool_to_Z l))%Z.
Proof.
  unfold sum_Z. induction l as [|b l IH]; cbn [map fold_right]; [lia|].
  destruct b; cbn [bool_to_Z]; lia.
Qed.

(** [segment_argmax] needs one id per row, none negative, in non-decreasing
    order: any other partition is rejected before the assertion is
    evaluated. *)
Theorem segment_argmax_rejects {A : Type} `{NumLaws A} (input : Tensor A)
  (partition : Tensor Z) (n m : nat) :
  wf input -> shape input = [n; m] ->
  shape partition <> [n] \/ ~ sorted_partition partition ->
  segment_argmax input partition = Err InvalidArgument.
Proof.
  intros Hwi Hsi Hbad. unfold segment_argmax. rewrite binop_scalars. cbn [bind].
  unfold TF.reduce_max.
  destruct (reduce_rows (fun l => Ok (max_list l)) input n m false Hwi Hsi)
    as [rowmax [-> [Hsrm _]]].
  { intros i Hi. eexists; reflexivity. }
  cbn [bind]. unfold TF.segment_max, TF.segment_reduce. rewrite Hsrm.
  destruct (shape partition) as [|n' [|n'' rest']] eqn:Es; try reflexivity.
  destruct ((n =? n') && (length (data partition) =? n')) eqn:G; [|reflexivity].
  cbn [guard bind].
  destruct (TF.segment_ids_ok (data partition)) eqn:Hok; [|reflexivity].
  exfalso. apply andb_true_iff in G. destruct G as [G _]. apply Nat.eqb_eq in G.
  subst n'. destruct Hbad as [Hs|Hs]; [apply Hs; reflexivity|].
  apply Hs. apply segment_ids_ok_iff. exact Hok.
Qed.

Lemma segment_argmax_rejects_witness :
  segment_argmax (mkT [2; 1] [1; 2]%Z) (vector [1; 0]%Z) = Err InvalidArgument.
Proof.
  apply (segment_argmax_rejects (mkT [2; 1] [1; 2]%Z) (vector [1; 0]%Z) 2 1).
  - reflexivity.
  - reflexivity.
  - right. intros Hs. apply segment_ids_ok_iff in Hs. simpl in Hs. discriminate.
Defined.

(** Whatever [segment_argmax] returns is sound: the two results are vectors of
    one length, which is never 1; the rows are listed in increasing order, and
    every pair of a row and a column is a cell that holds the greatest value
    of the group of its row. *)
Theorem segment_argmax_sound {A : Type} `{NumLaws A} (input : Tensor A)
  (partition : Tensor Z) (n m : nat) (rows cols : Tensor Z) :
  wf input -> shape input = [n; m] ->
  wf partition -> shape partition = [n] ->
  segment_argmax input partition = Ok (rows, cols) ->
  exists k, k <> 1 /\ shape rows = [k] /\ shape cols = [k]
    /\ (forall a, a < k ->
          exists i j g, tget rows [a] = Some (Z.of_nat i)
            /\ tget cols [a] = Some (Z.of_nat j)
            /\ max_cell input partition g i j)
    /\ (forall a b x y, a < b ->
          tget rows [a] = Some x -> tget rows [b] = Some y -> (x < y)%Z).
Proof.
  intros Hwi Hsi Hwp Hsp Hres.
  destruct (segment_argmax_success input partition n m rows cols Hwi Hsi Hwp Hsp Hres)
    as [Hsorted [is_max [sel [Hsim [Hwim [Hcand [Hassert [Hsel [Hk [Hrows
         [Hscols Hcols]]]]]]]]]]].
  assert (Hrow : forall a, a < length sel ->
            tget rows [a] = Some (Z.of_nat (nth a sel 0))).
  { intros a Ha. rewrite Hrows.
    rewrite (tget_at _ _ a) by (apply ravel1; exact Ha).
    cbn [data]. rewrite nth_error_map, (nth_error_nth' sel 0 Ha). reflexivity. }
  exists (length sel). split; [exact Hk|]. split; [rewrite Hrows; reflexivity|].
  split; [exact Hscols|]. split.
  - intros a Ha. destruct (Hcols a Ha) as [Hi [c [Hc [Hcol Htrue]]]].
    destruct (wf_tget partition [nth a sel 0] Hwp) as [g Hg].
    { rewrite Hsp. apply in_indices1. eexists. split; [reflexivity|exact Hi]. }
    exists (nth a sel 0), c, g. split; [apply Hrow; exact Ha|].
    split; [exact Hcol|].
    apply (bcell_max_cell input partition n m is_max Hsi Hwp Hsp Hsim Hcand
             g (nth a sel 0) c Hg).
    apply bcell_true. exact Htrue.
  - intros a b x y Hab Hx Hy.
    assert (Hb : b < length sel).
    { rewrite Hrows in Hy. unfold tget in Hy. cbn [shape ravel] in Hy.
      destruct (b <? length sel) eqn:E; [apply Nat.ltb_lt; exact E|discriminate]. }
    rewrite Hrow in Hx, Hy by lia. injection Hx as <-. injection Hy as <-.
    assert (Hs : StronglySorted lt sel).
    { rewrite Hsel. apply increasing_filter. apply increasing_seq. }
    pose proof (increasing_nth sel a b Hs Hab Hb). lia.
Qed.

Lemma segment_argmax_sound_witness :
  exists k, k <> 1 /\ shape (mkT [2] [0; 1]%Z) = [k] /\ shape (mkT [2] [0; 1]%Z) = [k]
    /\ (forall a, a < k ->
          exists i j g, tget (mkT [2] [0; 1]%Z) [a] = Some (Z.of_nat i)
            /\ tget (mkT [2] [0; 1]%Z) [a] = Some (Z.of_nat j)
            /\ max_cell (mkT [2; 2] [1; 1; 3; 4]%Z) (vector [0; 2]%Z) g i j)
    /\ (forall a b x y, a < b ->
          tget (mkT [2] [0; 1]%Z) [a] = Some x ->
          tget (mkT [2] [0; 1]%Z) [b] = Some y -> (x < y)%Z).
Proof.
  apply (segment_argmax_sound (mkT [2; 2] [1; 1; 3; 4]%Z) (vector [0; 2]%Z) 2 2
           (mkT [2] [0; 1]%Z) (mkT [2] [0; 1]%Z)).
  - reflexivity.
  - reflexivity.
  - reflexivity.
  - reflexivity.
  - reflexivity.
Defined.

(** With a single group (every id is 0) [segment_argmax] never returns: a tie
    fails the assertion, and a single greatest cell selects one row, whose
    index [tf.squeeze] turns into a 0-dim tensor that [tf.argmax] cannot scan
    along dimension 1. *)
Theorem segment_argmax_one_group {A : Type} `{NumLaws A} (input : Tensor A)
  (partition : Tensor Z) (n m : nat) :
  wf input -> shape input = [n; m] ->
  wf partition -> shape partition = [n] ->
  (forall z, In z (data partition) -> z = 0%Z) ->
  exists e, segment_argmax input partition = Err e.
Proof.
  intros Hwi Hsi Hwp Hsp Hzero.
  destruct (segment_argmax input partition) as [[rows cols]|e] eqn:Hres;
    [exfalso|exists e; reflexivity].
  destruct (segment_argmax_success input partition n m rows cols Hwi Hsi Hwp Hsp Hres)
    as [Hsorted [is_max [sel [Hsim [Hwim [Hcand [Hassert [Hsel [Hk _]]]]]]]]].
  destruct (data partition) as [|z0 ids] eqn:Ed.
  - pose proof (sum_bool_nonneg (data is_max)) as Hnn.
    rewrite <- Hassert in Hnn. vm_compute in Hnn. apply Hnn. reflexivity.
  - assert (Hmax : max_list (z0 :: ids) = 0%Z).
    { apply max_list_greatest.
      - left. apply Hzero. left. reflexivity.
      - intros x Hx. rewrite (Hzero x Hx). reflexivity. }
    rewrite Hmax in Hassert. change (add64 0 1) with 1%Z in Hassert.
    apply Hk. rewrite Hsel. apply (one_candidate_one_row is_max n m Hwim Hsim).
    symmetry. exact Hassert.
Qed.

Lemma segment_argmax_one_group_witness :
  exists e, segment_argmax (mkT [2; 2] [1; 2; 3; 4]%Z) (vector [0; 0]%Z) = Err e.
Proof.
  apply (segment_argmax_one_group (mkT [2; 2] [1; 2; 3; 4]%Z) (vector [0; 0]%Z) 2 2).
  - reflexivity.
  - reflexivity.
  - reflexivity.
  - reflexivity.
  - intros z Hz. simpl in Hz. destruct Hz as [<-|[<-|[]]]; reflexivity.
Defined.

(** ** [gather_rowwise_2d] *)

Lemma tread_matrix {A : Type} (t : Tensor A) (n m i j : nat) :
  shape t = [n; m] -> i < n -> j < m ->
  tread t [i; j] = of_option (nth_error (data t) (i * m + j)) InvalidArgument.
Proof.
  intros Hs Hi Hj. unfold tread.
  rewrite (tget_at t _ (i * m + j)) by (rewrite Hs; apply ravel2; assumption).
  reflexivity.
Qed.

(** The coordinates built for cell [(i, j)] are [(i, indices[i, j])]. *)
Lemma gather_rowwise_indices_2d_spec (indices_ : Tensor Z) (n k : nat) :
  wf indices_ -> shape32 indices_ -> shape indices_ = [n; k] ->
  exists c, gather_rowwise_indices_2d indices_ = Ok c
    /\ shape c = [n; k; 2] /\ wf c /\
    forall i j, i < n -> j < k ->
      tread c [i; j; 0] = Ok (Z.of_nat i) /\
      tread c [i; j; 1] = tread indices_ [i; j].
Proof.
  intros Hwf H32 Hsh. destruct (shape32_2 _ _ _ Hsh H32) as [Bn Bk].
  unfold gather_rowwise_indices_2d.
  rewrite (shape_ok _ H32), Hsh. cbn [map vector data nth_error of_option bind].
  rewrite (range_ok n Bn). cbn [bind].
  set (rng := vector (map Z.of_nat (seq 0 n))).
  assert (Hrs : shape rng = [n]).
  { unfold rng, vector. cbn. rewrite length_map, length_seq. reflexivity. }
  rewrite (expand_dims_vector rng n Hrs). cbn [bind].
  (* the row numbers, repeated along the columns *)
  unfold TF.tile. cbn [shape length Nat.eqb forallb].
  replace (0 <=? Z.of_nat k)%Z with true by (symmetry; apply Z.leb_le; lia).
  cbn [Z.leb Z.compare andb guard bind combine map fst snd].
  rewrite Nat2Z.id. change (Z.to_nat 1) with 1.
  replace (n * 1) with n by lia. replace (1 * k) with k by lia.
  match goal with |- context [tbuild ?sh ?f] =>
    destruct (tbuild_reads sh f) as [tiled [-> [Hst [Hwt Hrt]]]] end.
  { intros I HI. apply in_indices2 in HI. destruct HI as [i [j [-> [Hi Hj]]]].
    cbn [combine map fst snd]. exists (Z.of_nat i).
    rewrite Nat.mod_small by exact Hi. rewrite Nat.mod_1_r.
    rewrite (tread_matrix _ n 1 i 0) by (try reflexivity; lia).
    cbn [data]. replace (i * 1 + 0) with i by lia.
    unfold rng, vector. cbn [data]. rewrite nth_error_map, nth_error_seq.
    apply Nat.ltb_lt in Hi. rewrite Hi. reflexivity. }
  cbn [bind].
  assert (Htile : forall i j, i < n -> j < k -> tread tiled [i; j] = Ok (Z.of_nat i)).
  { intros i j Hi Hj. rewrite Hrt by (apply in_indices2; exists i, j; auto).
    cbn [combine map fst snd].
    rewrite Nat.mod_small by exact Hi. rewrite Nat.mod_1_r.
    rewrite (tread_matrix _ n 1 i 0) by (try reflexivity; lia).
    cbn [data]. replace (i * 1 + 0) with i by lia.
    unfold rng, vector. cbn [data]. rewrite nth_error_map, nth_error_seq.
    apply Nat.ltb_lt in Hi. rewrite Hi. reflexivity. }
  (* stacked on the indices *)
  unfold TF.pack. cbn [forallb]. rewrite Hst, Hsh.
  destruct (list_eq_dec Nat.eq_dec [n; k] [n; k]) as [_|N]; [|contradiction].
  cbn [andb guard bind length flat_map].
  set (packed := mkT [2; n; k] _).
  assert (Hlen : length (data tiled) = n * k).
  { unfold wf in Hwt. rewrite Hwt, Hst. cbn. lia. }
  assert (Hp0 : forall i j, i < n -> j < k -> tread packed [0; i; j] = Ok (Z.of_nat i)).
  { intros i j Hi Hj. rewrite <- (Htile i j Hi Hj).
    rewrite (tread_matrix tiled n k i j) by assumption. unfold tread.
    rewrite (tget_at packed _ (0 * (n * k) + i * k + j)) by (apply ravel3; lia).
    unfold packed. cbn [data]. rewrite nth_error_app1 by (rewrite Hlen; nia).
    reflexivity. }
  assert (Hp1 : forall i j, i < n -> j < k ->
            tread packed [1; i; j] = tread indices_ [i; j]).
  { intros i j Hi Hj.
    rewrite (tread_matrix indices_ n k i j) by assumption. unfold tread.
    rewrite (tget_at packed _ (1 * (n * k) + i * k + j)) by (apply ravel3; lia).
    unfold packed. cbn [data]. rewrite nth_error_app2 by (rewrite Hlen; nia).
    rewrite Hlen, app_nil_r. do 2 f_equal. lia. }
  (* the stacking dimension moved last *)
  unfold TF.transpose. cbn.
  change (Pos.to_nat 1) with 1. change (Pos.to_nat 2) with 2. cbn.
  match goal with |- context [tbuild ?sh ?f] =>
    destruct (tbuild_reads sh f) as [c [Hc [Hsc [Hwc Hrc]]]] end.
  { intros I HI. apply in_indices3 in HI.
    destruct HI as [i [j [e [-> [Hi [Hj He]]]]]].
    cbn. destruct e as [|[|e]]; [| |lia].
    - rewrite Hp0 by assumption. eexists; reflexivity.
    - rewrite Hp1 by assumption. apply wf_tread; [exact Hwf|].
      rewrite Hsh. apply in_indices2. exists i, j; auto. }
  exists c. split; [exact Hc|]. split; [exact Hsc|]. split; [exact Hwc|].
  intros i j Hi Hj. split.
  - rewrite Hrc by (apply in_indices3; exists i, j, 0; repeat split; lia).
    cbn. apply Hp0; assumption.
  - rewrite Hrc by (apply in_indices3; exists i, j, 1; repeat split; lia).
    cbn. apply Hp1; assumption.
Qed.

(** The cell of [tf.gather_nd] for the coordinates [(i, v)]. *)
Lemma gather_nd_pair {A : Type} (input : Tensor A) (c : Tensor Z) (I : list nat)
  (i : nat) (v : Z) :
  tread c (I ++ [0]) = Ok (Z.of_nat i) -> tread c (I ++ [1]) = Ok v ->
  (coord <- mapM (fun e => tread c (I ++ [e])) (seq 0 2) ;;
   _ <- guard (forallb (fun x => (0 <=? x)%Z) coord) InvalidArgument ;;
   tread input (map Z.to_nat coord ++ []))
  = (_ <- guard (0 <=? v)%Z InvalidArgument ;; tread input [i; Z.to_nat v]).
Proof.
  intros H0 H1. cbn [seq mapM]. rewrite H0, H1. cbn [bind forallb].
  replace (0 <=? Z.of_nat i)%Z with true by (symmetry; apply Z.leb_le; lia).
  rewrite andb_true_r. cbn [andb].
  destruct (0 <=? v)%Z; cbn [guard bind]; [|reflexivity].
  cbn [map app]. rewrite Nat2Z.id. reflexivity.
Qed.

(** The cells of [gather_rowwise_2d]. *)
Lemma gather_rowwise_2d_cells {A : Type} (input : Tensor A) (indices_ : Tensor Z)
  (n m k : nat) :
  wf input -> shape input = [n; m] ->
  wf indices_ -> shape32 indices_ -> shape indices_ = [n; k] ->
  (forall i j, i < n -> j < k ->
     exists v, tget indices_ [i; j] = Some v /\ (0 <= v < Z.of_nat m)%Z) ->
  exists r, gather_rowwise_2d input indices_ = Ok r /\ shape r = [n; k] /\ wf r /\
    forall i j, i < n -> j < k ->
      exists v, tget indices_ [i; j] = Some v
        /\ tget r [i; j] = tget input [i; Z.to_nat v].
Proof.
  intros Hwf Hsh Hwfi H32 Hshi Hidx.
  destruct (gather_rowwise_indices_2d_spec indices_ n k Hwfi H32 Hshi)
    as [c [Hc [Hsc [Hwc Hrc]]]].
  unfold gather_rowwise_2d. rewrite Hc. cbn [bind].
  unfold TF.gather_nd. rewrite Hsc, Hsh. cbn [rev app length Nat.leb guard bind skipn].
  assert (Hcell : forall i j, i < n -> j < k ->
            exists v, tget indices_ [i; j] = Some v /\ (0 <= v < Z.of_nat m)%Z
              /\ (coord <- mapM (fun e => tread c (firstn 2 [i; j] ++ [e])) (seq 0 2) ;;
                  _ <- guard (forallb (fun x => (0 <=? x)%Z) coord) InvalidArgument ;;
                  tread input (map Z.to_nat coord ++ []))
                 = tread input [i; Z.to_nat v]).
  { intros i j Hi Hj. destruct (Hidx i j Hi Hj) as [v [Hv Hrange]].
    exists v. split; [exact Hv|]. split; [exact Hrange|].
    destruct (Hrc i j Hi Hj) as [H0 H1]. apply tread_Ok in Hv. rewrite Hv in H1.
    cbn [firstn skipn].
    rewrite (gather_nd_pair input c [i; j] i v H0 H1).
    replace (0 <=? v)%Z with true by (symmetry; apply Z.leb_le; lia).
    reflexivity. }
  match goal with |- context [tbuild ?sh ?f] =>
    destruct (tbuild_reads sh f) as [r [Hr [Hsr [Hwr Hrr]]]] end.
  { intros I HI. apply in_indices2 in HI. destruct HI as [i [j [-> [Hi Hj]]]].
    destruct (Hcell i j Hi Hj) as [v [Hv [Hrange ->]]].
    apply wf_tread; [exact Hwf|]. rewrite Hsh. apply in_indices2.
    eexists _, _. split; [reflexivity|]. lia. }
  exists r. split; [exact Hr|]. split; [exact Hsr|]. split; [exact Hwr|].
  intros i j Hi Hj. destruct (Hcell i j Hi Hj) as [v [Hv [Hrange Hread]]].
  exists v. split; [exact Hv|]. apply tread_inj.
  rewrite Hrr by (apply in_indices2; exists i, j; auto). exact Hread.
Qed.

(** [gather_rowwise_2d] on an [n x m] input and an [n x k] tensor of columns:
    cell [(i, j)] of the result is [input[i, indices[i, j]]]. *)
Theorem gather_rowwise_2d_spec {A : Type} (input : Tensor A) (indices_ : Tensor Z)
  (n m k : nat) :
  wf input -> shape input = [n; m] ->
  wf indices_ -> shape32 indices_ -> shape indices_ = [n; k] ->
  (forall i j, i < n -> j < k ->
     exists v, tget indices_ [i; j] = Some v /\ (0 <= v < Z.of_nat m)%Z) ->
  exists r, gather_rowwise_2d input indices_ = Ok r /\ shape r = [n; k] /\ wf r /\
    forall i j, i < n -> j < k ->
      exists v x, tget indices_ [i; j] = Some v
        /\ tget input [i; Z.to_nat v] = Some x
        /\ tget r [i; j] = Some x.
Proof.
  intros Hwf Hsh Hwfi H32 Hshi Hidx.
  destruct (gather_rowwise_2d_cells input indices_ n m k Hwf Hsh Hwfi H32 Hshi Hidx)
    as [r [Hr [Hsr [Hwr Hcells]]]].
  exists r. split; [exact Hr|]. split; [exact Hsr|]. split; [exact Hwr|].
  intros i j Hi Hj. destruct (Hcells i j Hi Hj) as [v [Hv Hcell]].
  destruct (Hidx i j Hi Hj) as [v' [Hv' Hrange]].
  assert (v' = v) by congruence. subst v'.
  destruct (wf_tget input [i; Z.to_nat v] Hwf) as [x Hx].
  { rewrite Hsh. apply in_indices2. eexists _, _. split; [reflexivity|]. lia. }
  exists v, x. split; [exact Hv|]. split; [exact Hx|]. congruence.
Qed.

Lemma gather_rowwise_2d_spec_witness :
  exists r, gather_rowwise_2d (mkT [2; 3] [1; 2; 3; 4; 5; 6]%Z)
                              (mkT [2; 2] [2; 0; 1; 1]%Z) = Ok r
    /\ shape r = [2; 2] /\ wf r /\
    forall i j, i < 2 -> j < 2 ->
      exists v x, tget (mkT [2; 2] [2; 0; 1; 1]%Z) [i; j] = Some v
        /\ tget (mkT [2; 3] [1; 2; 3; 4; 5; 6]%Z) [i; Z.to_nat v] = Some x
        /\ tget r [i; j] = Some x.
Proof.
  apply (gather_rowwise_2d_spec (mkT [2; 3] [1; 2; 3; 4; 5; 6]%Z)
           (mkT [2; 2] [2; 0; 1; 1]%Z) 2 3 2).
  - reflexivity.
  - reflexivity.
  - reflexivity.
  - repeat constructor; vm_compute; discriminate.
  - reflexivity.
  - intros [|[|i]] [|[|j]] Hi Hj; try lia;
      eexists; (split; [reflexivity|simpl; lia]).
Defined.

(** A column outside [0, m) is rejected by [tf.gather_nd]. *)
Theorem gather_rowwise_2d_out_of_range {A : Type} (input : Tensor A)
  (indices_ : Tensor Z) (n m k i0 j0 : nat) (v : Z) :
  wf input -> shape input = [n; m] ->
  wf indices_ -> shape32 indices_ -> shape indices_ = [n; k] ->
  i0 < n -> j0 < k -> tget indices_ [i0; j0] = Some v ->
  (v < 0 \/ Z.of_nat m <= v)%Z ->
  gather_rowwise_2d input indices_ = Err InvalidArgument.
Proof.
  intros Hwf Hsh Hwfi H32 Hshi Hi0 Hj0 Hv Hout.
  destruct (gather_rowwise_indices_2d_spec indices_ n k Hwfi H32 Hshi)
    as [c [Hc [Hsc [Hwc Hrc]]]].
  unfold gather_rowwise_2d. rewrite Hc. cbn [bind].
  unfold TF.gather_nd. rewrite Hsc, Hsh. cbn [rev app length Nat.leb guard bind skipn].
  match goal with |- tbuild ?sh ?f = _ =>
    apply (tbuild_fails sh f [i0; j0] InvalidArgument) end.
  - intros J _. apply invalid_bind.
    { apply invalid_mapM. intros e _. apply invalid_tread. }
    intros coord _. apply invalid_bind; [apply invalid_guard|].
    intros _ _. apply invalid_tread.
  - apply in_indices2. exists i0, j0. auto.
  - destruct (Hrc i0 j0 Hi0 Hj0) as [H0 H1]. apply tread_Ok in Hv. rewrite Hv in H1.
    cbn [firstn skipn]. rewrite (gather_nd_pair input c [i0; j0] i0 v H0 H1).
    destruct Hout as [Hneg|Hbig].
    + replace (0 <=? v)%Z with false by (symmetry; apply Z.leb_gt; exact Hneg).
      reflexivity.
    + replace (0 <=? v)%Z with true by (symmetry; apply Z.leb_le; lia).
      cbn [guard bind]. unfold tread, tget. rewrite Hsh. cbn [ravel].
      replace (i0 <? n) with true by (symmetry; apply Nat.ltb_lt; exact Hi0).
      replace (Z.to_nat v <? m) with false by (symmetry; apply Nat.ltb_ge; lia).
      reflexivity.
Qed.

Lemma gather_rowwise_2d_out_of_range_witness :
  gather_rowwise_2d (mkT [2; 3] [1; 2; 3; 4; 5; 6]%Z) (mkT [2; 2] [2; 0; 3; 1]%Z)
  = Err InvalidArgument.
Proof.
  apply (gather_rowwise_2d_out_of_range (mkT [2; 3] [1; 2; 3; 4; 5; 6]%Z)
           (mkT [2; 2] [2; 0; 3; 1]%Z) 2 3 2 1 0 3%Z).
  - reflexivity.
  - reflexivity.
  - reflexivity.
  - repeat constructor; vm_compute; discriminate.
  - reflexivity.
  - lia.
  - lia.
  - reflexivity.
  - right. simpl. lia.
Defined.

(** The cells of [gather_rowwise_1d]. *)
Lemma gather_rowwise_1d_cells {A : Type} (input : Tensor A) (indices_ : Tensor Z)
  (n m : nat) :
  wf input -> shape32 input -> shape input = [n; m] ->
  wf indices_ -> shape indices_ = [n] ->
  (forall i, i < n ->
     exists v, tget indices_ [i] = Some v /\ (0 <= v < Z.of_nat m)%Z) ->
  exists r, gather_rowwise_1d input indices_ = Ok r /\ shape r = [n] /\ wf r /\
    forall i, i < n ->
      exists v, tget indices_ [i] = Some v
        /\ tget r [i] = tget input [i; Z.to_nat v].
Proof.
  intros Hwf H32 Hsh Hwfi Hshi Hidx.
  destruct (shape32_2 _ _ _ Hsh H32) as [Bn Bm].
  assert (H32i : shape32 indices_).
  { unfold shape32. rewrite Hshi. repeat constructor. exact Bn. }
  destruct (gather_rowwise_indices_1d_spec indices_ n Hwfi H32i Hshi)
    as [c [Hc [Hsc [Hwc Hrc]]]].
  unfold gather_rowwise_1d. rewrite Hc. cbn [bind].
  unfold TF.gather_nd. cbn [shape tmap]. rewrite Hsc, Hsh. cbn.
  assert (Hcoord : forall i, i < n -> exists v, tget indices_ [i] = Some v
            /\ (0 <= v < Z.of_nat m)%Z
            /\ tread (tmap wrap32 c) [i; 0] = Ok (Z.of_nat i)
            /\ tread (tmap wrap32 c) [i; 1] = Ok v).
  { intros i Hi. destruct (Hidx i Hi) as [v [Hv Hrange]].
    exists v. split; [exact Hv|]. split; [exact Hrange|].
    destruct (Hrc i Hi) as [H0 H1].
    rewrite !tread_tmap, H0, H1. apply tread_Ok in Hv. rewrite Hv. cbn [bind].
    rewrite (wrap64_id (Z.of_nat i))
      by (unfold in_int64, int64_min, int64_max, int32_max in *; lia).
    rewrite !wrap32_id by (unfold in_int32, int32_min, int32_max in *; lia).
    split; reflexivity. }
  assert (Hcell : forall i, i < n -> exists v, tget indices_ [i] = Some v
            /\ (0 <= v < Z.of_nat m)%Z
            /\ (coord <- (y <- tread (tmap wrap32 c) [i; 0] ;;
                          ys <- (y0 <- tread (tmap wrap32 c) [i; 1] ;; Ok [y0]) ;;
                          Ok (y :: ys)) ;;
                _ <- guard (forallb (fun x => (0 <=? x)%Z) coord) InvalidArgument ;;
                tread input (map Z.to_nat coord ++ []))
               = tread input [i; Z.to_nat v]).
  { intros i Hi. destruct (Hcoord i Hi) as [v [Hv [Hrange [H0 H1]]]].
    exists v. split; [exact Hv|]. split; [exact Hrange|].
    rewrite H0, H1. cbn [bind forallb].
    replace ((0 <=? Z.of_nat i)%Z && ((0 <=? v)%Z && true)) with true
      by (symmetry; rewrite !andb_true_iff; repeat split; apply Z.leb_le; lia).
    cbn. rewrite Nat2Z.id. reflexivity. }
  match goal with |- context [tbuild ?sh ?f] =>
    destruct (tbuild_reads sh f) as [r [Hr [Hsr [Hwr Hrr]]]] end.
  { intros I HI. apply in_indices1 in HI. destruct HI as [i [-> Hi]].
    destruct (Hcell i Hi) as [v [Hv [Hrange Hread]]].
    cbn [firstn app]. rewrite Hread.
    apply wf_tread; [exact Hwf|].
    rewrite Hsh. apply in_indices2. eexists _, _. split; [reflexivity|]. lia. }
  exists r. split; [exact Hr|]. split; [exact Hsr|]. split; [exact Hwr|].
  intros i Hi. destruct (Hcell i Hi) as [v [Hv [Hrange Hread]]].
  exists v. split; [exact Hv|]. apply tread_inj.
  rewrite Hrr by (apply in_indices1; exists i; auto).
  cbn [firstn app]. exact Hread.
Qed.

(** A cast to int32 leaves the column indices of a matrix with int32
    dimensions as they are. *)
Lemma cast32_indices (indices_ : Tensor Z) (n m : nat) :
  wf indices_ -> shape indices_ = [n] -> (Z.of_nat m <= int32_max)%Z ->
  (forall i, i < n ->
     exists v, tget indices_ [i] = Some v /\ (0 <= v < Z.of_nat m)%Z) ->
  tmap wrap32 indices_ = indices_.
Proof.
  intros Hwf Hsh Bm Hidx. destruct indices_ as [sh d]. unfold tmap. cbn [shape data].
  f_equal. rewrite <- (map_id d) at 2. apply map_ext_in. intros z Hz.
  apply In_nth_error in Hz. destruct Hz as [i Hi].
  assert (Hlen : length d = n).
  { unfold wf in Hwf. cbn [shape data] in Hwf, Hsh. rewrite Hwf, Hsh. cbn. lia. }
  assert (Hin : i < n) by (rewrite <- Hlen; apply nth_error_Some; congruence).
  destruct (Hidx i Hin) as [v [Hv Hrange]].
  rewrite (tget_vec _ n i Hwf Hsh) in Hv. cbn [data] in Hv.
  assert (v = z) by congruence. subst v.
  apply wrap32_id. unfold in_int32, int32_min, int32_max in *. lia.
Qed.

(** With one column per row, [gather_rowwise_2d] is [gather_rowwise_1d] with
    a dimension added: [gather_rowwise_1d] takes int64 column indices, and
    [gather_rowwise_2d] the same indices cast to int32, the type of its row
    indices. *)
Theorem gather_rowwise_2d_one_column {A : Type} (input : Tensor A)
  (indices_ : Tensor Z) (n m : nat) :
  wf input -> shape32 input -> shape input = [n; m] ->
  wf indices_ -> shape indices_ = [n] ->
  (forall i, i < n ->
     exists v, tget indices_ [i] = Some v /\ (0 <= v < Z.of_nat m)%Z) ->
  (idx <- TF.expand_dims (tmap wrap32 indices_) 1 ;; gather_rowwise_2d input idx)
  = (r <- gather_rowwise_1d input indices_ ;; TF.expand_dims r 1).
Proof.
  intros Hwf H32 Hsh Hwfi Hshi Hidx.
  destruct (shape32_2 _ _ _ Hsh H32) as [Bn Bm].
  rewrite (cast32_indices indices_ n m Hwfi Hshi Bm Hidx).
  destruct (gather_rowwise_1d_cells input indices_ n m Hwf H32 Hsh Hwfi Hshi Hidx)
    as [r1 [-> [Hs1 [Hw1 Hr1]]]].
  rewrite (expand_dims_vector indices_ n Hshi). cbn [bind].
  rewrite (expand_dims_vector r1 n Hs1).
  destruct (gather_rowwise_2d_cells input (mkT [n; 1] (data indices_)) n m 1 Hwf Hsh)
    as [r2 [-> [Hs2 [Hw2 Hr2]]]].
  - apply (wf_column indices_ n Hwfi Hshi).
  - unfold shape32. cbn [shape]. repeat constructor; [exact Bn|].
    unfold int32_max. lia.
  - reflexivity.
  - intros i j Hi Hj. replace j with 0 by lia.
    destruct (Hidx i Hi) as [v [Hv Hrange]]. exists v. split; [|exact Hrange].
    rewrite tget_column by exact Hi. rewrite <- (tget_vec indices_ n i Hwfi Hshi).
    exact Hv.
  - f_equal. apply tensor_ext.
    + rewrite Hs2. reflexivity.
    + exact Hw2.
    + apply (wf_column r1 n Hw1 Hs1).
    + intros I HI. rewrite Hs2 in HI. apply in_indices2 in HI.
      destruct HI as [i [j [-> [Hi Hj]]]]. replace j with 0 by lia.
      destruct (Hr2 i 0 Hi ltac:(lia)) as [v [Hv Hcell]].
      destruct (Hr1 i Hi) as [v' [Hv' Hcell']].
      rewrite tget_column in Hv by exact Hi.
      rewrite <- (tget_vec indices_ n i Hwfi Hshi) in Hv.
      assert (v' = v) by congruence. subst v'.
      rewrite Hcell, tget_column by exact Hi.
      rewrite <- (tget_vec r1 n i Hw1 Hs1), Hcell'. reflexivity.
Qed.

Lemma gather_rowwise_2d_one_column_witness :
  (idx <- TF.expand_dims (tmap wrap32 (vector [2; 0]%Z)) 1 ;;
   gather_rowwise_2d (mkT [2; 3] [1; 2; 3; 4; 5; 6]%Z) idx)
  = (r <- gather_rowwise_1d (mkT [2; 3] [1; 2; 3; 4; 5; 6]%Z) (vector [2; 0]%Z) ;;
     TF.expand_dims r 1).
Proof.
  apply (gather_rowwise_2d_one_column (mkT [2; 3] [1; 2; 3; 4; 5; 6]%Z)
           (vector [2; 0]%Z) 2 3).
  - reflexivity.
  - repeat constructor; vm_compute; discriminate.
  - reflexivity.
  - reflexivity.
  - reflexivity.
  - intros [|[|i]] Hi; [exists 2%Z|exists 0%Z|lia]; (split; [reflexivity|lia]).
Defined.

(** ** [mask_for_lengths]: the batch size and the lengths *)

Lemma invalid_range (start limit : Z) : invalid_only (TF.range start limit).
Proof.
  unfold TF.range. apply invalid_bind; [apply invalid_guard|].
  intros _ _. apply invalid_Ok.
Qed.

Lemma invalid_tile {A : Type} (t : Tensor A) (multiples : list Z) :
  invalid_only (TF.tile t multiples).
Proof.
  unfold TF.tile. apply invalid_bind; [apply invalid_guard|]. intros _ _.
  apply invalid_tbuild. intros I _. apply invalid_tread.
Qed.

Lemma invalid_reshape {A : Type} (t : Tensor A) (sh : list Z) :
  invalid_only (TF.reshape t sh).
Proof.
  unfold TF.reshape. apply invalid_bind; [apply invalid_guard|]. intros _ _.
  apply invalid_bind.
  - destruct (count_occ Z.eq_dec sh (-1)%Z) as [|[|c]].
    + apply invalid_Ok.
    + apply invalid_bind; [apply invalid_guard|]. intros _ _. apply invalid_Ok.
    + apply invalid_Err.
  - intros missing _.
    apply invalid_bind; [apply invalid_guard|]. intros _ _. apply invalid_Ok.
Qed.

Lemma invalid_expand_dims {A : Type} (t : Tensor A) (axis : nat) :
  invalid_only (TF.expand_dims t axis).
Proof.
  unfold TF.expand_dims. apply invalid_bind; [apply invalid_guard|].
  intros _ _. apply invalid_Ok.
Qed.

Lemma invalid_shape {A : Type} (t : Tensor A) : invalid_only (TF.shape_ t).
Proof.
  unfold TF.shape_. apply invalid_bind; [apply invalid_guard|].
  intros _ _. apply invalid_Ok.
Qed.

Lemma invalid_mask_for_lengths (lengths : Tensor Z) (batch_size max_length : option Z)
  (mask_right : bool) (value : R) :
  invalid_only (mask_for_lengths lengths batch_size max_length mask_right value).
Proof.
  unfold mask_for_lengths.
  apply invalid_bind; [destruct max_length; apply invalid_Ok|]. intros L _.
  apply invalid_bind.
  { destruct batch_size; [apply invalid_Ok|].
    apply invalid_bind; [apply invalid_shape|]. intros sh _. apply invalid_of_option. }
  intros B _.
  apply invalid_bind; [apply invalid_range|]. intros rng _.
  apply invalid_bind; [apply invalid_tile|]. intros tiled _.
  apply invalid_bind; [apply invalid_reshape|]. intros mask _.
  apply invalid_bind; [apply invalid_expand_dims|]. intros len1 _.
  apply invalid_bind; [destruct mask_right; apply invalid_binop|]. intros m _.
  apply invalid_binop.
Qed.

(** A reshape to [batch_size] rows needs a batch size that is not negative. *)
Lemma reshape_batch_inv {A : Type} (t u : Tensor A) (b : Z) :
  TF.reshape t [b; (-1)%Z] = Ok u ->
  (0 <= b)%Z /\ exists c, shape u = [Z.to_nat b; c].
Proof.
  unfold TF.reshape. intros H.
  apply bind_Ok in H. destruct H as [u0 [Hg0 H]]. apply guard_Ok in Hg0.
  cbn [forallb] in Hg0. apply andb_true_iff in Hg0. destruct Hg0 as [Hlow _].
  apply Z.leb_le in Hlow.
  apply bind_Ok in H. destruct H as [missing [Hm H]].
  apply bind_Ok in H. destruct H as [u1 [_ H]]. injection H as <-.
  cbn [count_occ] in Hm.
  destruct (Z.eq_dec (-1) (-1)) as [_|N]; [|contradiction].
  destruct (Z.eq_dec b (-1)) as [->|Hb]; [discriminate|].
  split; [lia|].
  cbn [map shape]. replace (b =? -1)%Z with false by (symmetry; apply Z.eqb_neq; lia).
  change (-1 =? -1)%Z with true. cbv iota. eexists; reflexivity.
Qed.

Lemma broadcast_mismatch (B c n : nat) :
  B <> n -> B <> 1 -> n <> 1 -> TF.broadcast_shape [B; c] [n; 1] = None.
Proof.
  intros H1 H2 H3. unfold TF.broadcast_shape. cbn [rev app TF.bshape_rev].
  replace (B =? n) with false by (symmetry; apply Nat.eqb_neq; exact H1).
  replace (B =? 1) with false by (symmetry; apply Nat.eqb_neq; exact H2).
  replace (n =? 1) with false by (symmetry; apply Nat.eqb_neq; exact H3).
  reflexivity.
Qed.

(** A batch size that is not the number of lengths is rejected when the rows
    are compared with the lengths, unless one of the two is 1. *)
Theorem mask_for_lengths_batch_mismatch (lengths : Tensor Z) (b : Z)
  (max_length : option Z) (mask_right : bool) (value : R) (n : nat) :
  shape lengths = [n] -> n <> 1 -> b <> 1%Z -> b <> Z.of_nat n ->
  mask_for_lengths lengths (Some b) max_length mask_right value = Err InvalidArgument.
Proof.
  intros Hsh Hn1 Hb1 Hbn.
  destruct (mask_for_lengths lengths (Some b) max_length mask_right value)
    as [r|e] eqn:Hres.
  - exfalso. unfold mask_for_lengths in Hres.
    apply bind_Ok in Hres. destruct Hres as [L [_ Hres]].
    cbn [bind] in Hres.
    apply bind_Ok in Hres. destruct Hres as [rng [_ Hres]].
    apply bind_Ok in Hres. destruct Hres as [tiled [_ Hres]].
    apply bind_Ok in Hres. destruct Hres as [mask [Hmask Hres]].
    apply bind_Ok in Hres. destruct Hres as [len1 [Hlen1 Hres]].
    apply bind_Ok in Hres. destruct Hres as [m [Hm _]].
    apply reshape_batch_inv in Hmask. destruct Hmask as [Hb [c Hsm]].
    unfold TF.expand_dims in Hlen1. rewrite Hsh in Hlen1.
    cbn in Hlen1. injection Hlen1 as <-.
    assert (Hnone : TF.broadcast_shape (shape (tmap wrap64 mask))
                      (shape (mkT [n; 1] (data lengths))) = None).
    { cbn [shape tmap]. rewrite Hsm. apply broadcast_mismatch; lia. }
    destruct mask_right; unfold TF.binop in Hm; rewrite Hnone in Hm; discriminate.
  - f_equal. apply (invalid_mask_for_lengths _ _ _ _ _ _ Hres).
Qed.

Lemma mask_for_lengths_batch_mismatch_witness :
  mask_for_lengths (vector [2; 4]%Z) (Some 3%Z) (Some 4%Z) true (-1000)
  = Err InvalidArgument.
Proof.
  apply (mask_for_lengths_batch_mismatch (vector [2; 4]%Z) 3 (Some 4%Z) true (-1000) 2).
  - reflexivity.
  - lia.
  - lia.
  - lia.
Defined.

Lemma broadcast_shape_cell (B L : nat) :
  TF.broadcast_shape [B; L] [1; 1] = Some [B; L].
Proof.
  unfold TF.broadcast_shape. cbn [rev app TF.bshape_rev].
  destruct (B =? 1) eqn:EB; destruct (L =? 1) eqn:EL; cbn [Nat.eqb option_map rev app];
    try reflexivity.
Qed.

(** A column of [n] entries against a matrix of [B] rows: row by row when
    [n = B], its only entry for every row when [n = 1]. *)
Lemma binop_col_bcast {A B C : Type} (f : A -> B -> C) (a : Tensor A) (b : Tensor B)
  (rows L n : nat) :
  wf a -> wf b -> shape a = [rows; L] -> shape b = [n; 1] ->
  n = rows \/ n = 1 ->
  exists r, TF.binop f a b = Ok r /\ shape r = [rows; L] /\ wf r /\
    forall i j, i < rows -> j < L ->
      tread r [i; j] = (x <- tread a [i; j] ;;
                        y <- tread b [if n =? 1 then 0 else i; 0] ;; Ok (f x y)).
Proof.
  intros Hwa Hwb Hsa Hsb Hn.
  destruct (Nat.eq_dec n 1) as [->|Hn1].
  - destruct (binop_reads f a b [rows; L]) as [r [Hr [Hsr [Hwr Hrr]]]].
    + rewrite Hsa, Hsb. apply broadcast_shape_cell.
    + intros I HI. apply in_indices2 in HI. destruct HI as [i [j [-> [Hi Hj]]]].
      rewrite Hsa, Hsb.
      rewrite bindex_same by (repeat constructor; assumption).
      destruct (wf_tread a [i; j] Hwa) as [x Hx].
      { rewrite Hsa. apply in_indices2. exists i, j. auto. }
      destruct (wf_tread b [0; 0] Hwb) as [y Hy].
      { rewrite Hsb. apply in_indices2. exists 0, 0. repeat split; lia. }
      exists x, y. split; [exact Hx|exact Hy].
    + exists r. repeat split; try assumption.
      intros i j Hi Hj. rewrite Hrr by (apply in_indices2; exists i, j; auto).
      rewrite Hsa, Hsb.
      rewrite bindex_same by (repeat constructor; assumption).
      reflexivity.
  - assert (n = rows) by (destruct Hn; [assumption|contradiction]). subst n.
    destruct (binop_col f a b rows L Hwa Hwb Hsa Hsb) as [r [Hr [Hsr [Hwr Hrr]]]].
    exists r. repeat split; try assumption.
    intros i j Hi Hj. rewrite Hrr by assumption.
    replace (rows =? 1) with false by (symmetry; apply Nat.eqb_neq; exact Hn1).
    reflexivity.
Qed.

(** The cells of the mask, for a batch of [rows] rows and [n] lengths with
    [n = rows] or [n = 1]. *)
Lemma mask_for_lengths_cells (lengths : Tensor Z) (batch_size max_length : option Z)
  (mask_right : bool) (value : R) (n rows L : nat) :
  wf lengths -> shape lengths = [n] ->
  batch_size = Some (Z.of_nat rows) \/ (batch_size = None /\ rows = n) ->
  max_length = Some (Z.of_nat L)
  \/ (max_length = None /\ greatest_entry lengths (Z.of_nat L)) ->
  1 <= rows -> n = rows \/ n = 1 ->
  (Z.of_nat n <= int32_max)%Z -> (Z.of_nat L <= int32_max)%Z ->
  exists r, mask_for_lengths lengths batch_size max_length mask_right value = Ok r
    /\ shape r = [rows; L] /\ wf r /\
    forall b j, b < rows -> j < L ->
      tread r [b; j]
      = (len <- tread lengths [if n =? 1 then 0 else b] ;;
         Ok (if active mask_right j len then value else 0%R)).
Proof.
  intros Hwf Hsh Hb Hm Hrows Hn Bn BL.
  unfold mask_for_lengths.
  assert (Hmax : match max_length with
                 | Some m => Ok m
                 | None => Ok (wrap32 (TF.reduce_all max_list lengths))
                 end = Ok (Z.of_nat L)).
  { destruct Hm as [->|[-> [Hin Hle]]]; [reflexivity|].
    unfold TF.reduce_all. rewrite (max_list_greatest (data lengths) (Z.of_nat L)).
    - rewrite wrap32_id; [reflexivity|].
      unfold in_int32, int32_min, int32_max in *. lia.
    - exact Hin.
    - intros x Hx. apply Z.leb_le. apply Hle; exact Hx. }
  rewrite Hmax. cbn [bind].
  assert (Hbatch : match batch_size with
                   | Some b => Ok b
                   | None => sh <- TF.shape_ lengths ;;
                             of_option (nth_error (data sh) 0) InvalidArgument
                   end = Ok (Z.of_nat rows)).
  { destruct Hb as [->|[-> ->]]; [reflexivity|].
    rewrite shape_ok by (unfold shape32; rewrite Hsh; repeat constructor; exact Bn).
    rewrite Hsh. reflexivity. }
  rewrite Hbatch. cbn [bind].
  rewrite (range_ok L BL). cbn [bind].
  set (rng := vector (map Z.of_nat (seq 0 L))).
  assert (Hrs : shape rng = [L]).
  { unfold rng, vector. cbn. rewrite length_map, length_seq. reflexivity. }
  destruct (tile_vector rng L rows (wf_vector _) Hrs) as [tiled [-> [Hst [Hwt Hrt]]]].
  cbn [bind].
  rewrite (reshape_cols tiled rows L)
    by (unfold wf in Hwt; rewrite ?Hwt, ?Hst; cbn; lia).
  cbn [bind]. rewrite (expand_dims_vector lengths n Hsh). cbn [bind].
  set (mask := tmap wrap64 (mkT [rows; L] (data tiled))).
  set (len1 := mkT [n; 1] (data lengths)).
  assert (Hwm : wf mask).
  { apply wf_tmap. unfold wf in *. cbn. rewrite Hwt, Hst. cbn. lia. }
  assert (Hwl : wf len1).
  { unfold wf in *. cbn. rewrite Hwf, Hsh. cbn. lia. }
  assert (Hmask : forall b j, b < rows -> j < L -> tread mask [b; j] = Ok (Z.of_nat j)).
  { intros b j Hb' Hj. unfold mask. rewrite tread_tmap.
    assert (Ht : tread (mkT [rows; L] (data tiled)) [b; j] = tread tiled [b * L + j]).
    { unfold tread. rewrite (tget_at _ _ (b * L + j)) by (apply ravel2; lia).
      rewrite (tget_at tiled _ (b * L + j)) by (rewrite Hst; apply ravel1; nia).
      reflexivity. }
    rewrite Ht, Hrt by nia.
    replace ((b * L + j) mod L) with j
      by (rewrite Nat.add_comm, Nat.Div0.mod_add, Nat.mod_small; lia).
    unfold rng. rewrite tread_range by exact Hj. cbn [bind].
    rewrite wrap64_id; [reflexivity|].
    unfold in_int64, int64_min, int64_max, int32_max in *. lia. }
  assert (Hlen : forall b, b < n -> tread len1 [b; 0] = tread lengths [b]).
  { intros b Hb'. unfold tread, len1. rewrite tget_column by exact Hb'.
    rewrite (tget_at lengths _ b) by (rewrite Hsh; apply ravel1; exact Hb').
    reflexivity. }
  assert (Hcmp : forall cmp : Z -> Z -> bool,
            exists m, TF.binop cmp mask len1 = Ok m /\ shape m = [rows; L] /\ wf m /\
              forall b j, b < rows -> j < L ->
                tread m [b; j]
                = (len <- tread lengths [if n =? 1 then 0 else b] ;;
                   Ok (cmp (Z.of_nat j) len))).
  { intros cmp.
    destruct (binop_col_bcast cmp mask len1 rows L n Hwm Hwl eq_refl eq_refl Hn)
      as [m [Hm' [Hsm [Hwm' Hrm]]]].
    exists m. repeat split; try assumption.
    intros b j Hb' Hj. rewrite Hrm, Hmask by assumption. cbn [bind].
    rewrite Hlen; [reflexivity|].
    destruct (n =? 1) eqn:E; [apply Nat.eqb_eq in E; lia|].
    apply Nat.eqb_neq in E. destruct Hn; [lia|contradiction]. }
  assert (Hm2 : exists m,
            (if mask_right then TF.binop Z.geb mask len1 else TF.binop Z.ltb mask len1)
            = Ok m /\ shape m = [rows; L] /\ wf m /\
            forall b j, b < rows -> j < L ->
              tread m [b; j]
              = (len <- tread lengths [if n =? 1 then 0 else b] ;;
                 Ok (active mask_right j len))).
  { unfold active. destruct mask_right; apply Hcmp. }
  destruct Hm2 as [m [-> [Hsm [Hwm' Hrm]]]]. cbn [bind].
  destruct (binop_scalar Rmult (tmap bool_to_R m) value (wf_tmap _ _ Hwm'))
    as [r [Hr [Hsr [Hwr Hrr]]]].
  exists r. split; [exact Hr|]. cbn [shape tmap] in Hsr, Hrr. rewrite Hsm in Hsr, Hrr.
  split; [exact Hsr|]. split; [exact Hwr|].
  intros b j Hb' Hj.
  rewrite Hrr by (apply in_indices2; exists b, j; auto).
  rewrite tread_tmap, Hrm by assumption.
  destruct (tread lengths [if n =? 1 then 0 else b]) as [len|e]; [|reflexivity].
  cbn [bind]. f_equal.
  destruct (active mask_right j len); cbn [bool_to_R]; lra.
Qed.



(** A single length is broadcast: with [batch_size] rows, every row of the
    mask is the mask of that length. *)
Theorem mask_for_lengths_single_length (lengths : Tensor Z) (len : Z)
  (mask_right : bool) (value : R) (rows L : nat) :
  wf lengths -> shape lengths = [1] -> tget lengths [0] = Some len ->
  1 <= rows -> (Z.of_nat L <= int32_max)%Z ->
  exists r,
    mask_for_lengths lengths (Some (Z.of_nat rows)) (Some (Z.of_nat L))
                     mask_right value = Ok r
    /\ shape r = [rows; L] /\ wf r /\
    forall b j, b < rows -> j < L ->
      tget r [b; j] = Some (if active mask_right j len then value else 0%R).
Proof.
  intros Hwf Hsh Hlen Hrows BL.
  destruct (mask_for_lengths_cells lengths (Some (Z.of_nat rows)) (Some (Z.of_nat L))
              mask_right value 1 rows L Hwf Hsh (or_introl eq_refl) (or_introl eq_refl)
              Hrows (or_intror eq_refl))
    as [r [Hr [Hsr [Hwr Hrr]]]].
  { unfold int32_max. lia. }
  { exact BL. }
  exists r. split; [exact Hr|]. split; [exact Hsr|]. split; [exact Hwr|].
  intros b j Hb Hj. apply tread_Ok. rewrite (Hrr b j Hb Hj).
  cbn [Nat.eqb]. apply tread_Ok in Hlen. rewrite Hlen. reflexivity.
Qed.

Lemma mask_for_lengths_single_length_witness :
  exists r,
    mask_for_lengths (vector [2%Z]) (Some (Z.of_nat 3)) (Some (Z.of_nat 4))
                     true (-1000) = Ok r
    /\ shape r = [3; 4] /\ wf r /\
    forall b j, b < 3 -> j < 4 ->
      tget r [b; j] = Some (if active true j 2 then (-1000)%R else 0%R).
Proof.
  apply (mask_for_lengths_single_length (vector [2%Z]) 2 true (-1000) 3 4).
  - reflexivity.
  - reflexivity.
  - reflexivity.
  - lia.
  - vm_compute; discriminate.
Defined.

(** ** [get_by_index] on a tensor that is not of rank 3 *)

(** The three dimensions are taken by a Python tuple assignment, which
    raises on any other number of dimensions. *)
Theorem get_by_index_rank {A : Type} (tensor : Tensor A) (index : Tensor Z) :
  shape32 tensor -> rank tensor <> 3 ->
  get_by_index tensor index = Err PyError.
Proof.
  intros H32 Hr. unfold get_by_index, rank in *.
  rewrite (shape_ok _ H32). cbn [bind]. unfold TF.unpack, vector. cbn [shape data bind].
  destruct (shape tensor) as [|d1 [|d2 [|d3 [|d4 rest]]]]; cbn [map length] in *;
    try reflexivity.
  contradiction.
Qed.

Lemma get_by_index_rank_witness :
  get_by_index (mkT [2; 3] [1; 2; 3; 4; 5; 6]%Z) (vector [1; 1]%Z) = Err PyError.
Proof.
  apply (get_by_index_rank (mkT [2; 3] [1; 2; 3; 4; 5; 6]%Z) (vector [1; 1]%Z)).
  - repeat constructor; vm_compute; discriminate.
  - unfold rank. simpl. lia.
Defined.

(** ** [segment_softmax] and a shift of the scores *)

(** Adding one number to every score does not change the probabilities. *)
Theorem segment_softmax_shift_invariant (scores : Tensor R) (partition : Tensor Z)
  (n m : nat) (c : R) :
  wf scores -> shape scores = [n; m] ->
  wf partition -> shape partition = [n] ->
  sorted_partition partition ->
  segment_softmax (tmap (fun x => x + c)%R scores) partition
  = segment_softmax scores partition.
Proof.
  intros Hws Hss Hwp Hsp Hsorted.
  set (shifted := tmap (fun x => x + c)%R scores).
  assert (Hwsh : wf shifted) by (apply wf_tmap; exact Hws).
  assert (Hrow : forall i, i < n ->
            row shifted i = map (fun x => x + c)%R (row scores i)).
  { intros i Hi. apply (row_eq_map _ scores shifted n m); try assumption.
    intros j Hj. apply tread_tmap. }
  destruct (segment_softmax_rows scores partition n m Hws Hss Hwp Hsp Hsorted)
    as [p [-> [Hsp1 [Hwp1 Hr1]]]].
  destruct (segment_softmax_rows shifted partition n m Hwsh Hss Hwp Hsp Hsorted)
    as [p' [-> [Hsp2 [Hwp2 Hr2]]]].
  f_equal. apply (rows_ext p' p n m); try assumption.
  intros i Hi.
  destruct (wf_tget partition [i] Hwp) as [z Hz].
  { rewrite Hsp. apply in_indices1. exists i; auto. }
  rewrite (Hr1 i z Hi Hz), (Hr2 i z Hi Hz), (Hrow i Hi), map_map.
  rewrite (group_cells_rows scores shifted partition n m z (fun x => x + c)%R Hwp Hsp)
    by (intros r Hr _; apply Hrow; exact Hr).
  rewrite map_map.
  apply map_ext_in. intros x Hx.
  assert (Hne : group_cells scores partition z <> []).
  { intros Hnil.
    assert (Hin : In x (group_cells scores partition z)).
    { unfold group_cells. apply in_flat_map. exists i. split; [|exact Hx].
      apply in_group_rows. rewrite <- (tget_vec partition n) by assumption. exact Hz. }
    rewrite Hnil in Hin. destruct Hin. }
  pose proof (sum_exp_pos _ Hne) as Hpos.
  replace (map (fun y => exp (y + c)) (group_cells scores partition z))
    with (map (fun y => exp (y - (- c))) (group_cells scores partition z))
    by (apply map_ext; intros y; f_equal; lra).
  rewrite sum_exp_shift. replace (- - c)%R with c by lra.
  rewrite exp_plus. pose proof (exp_pos c). field. split; lra.
Qed.

Lemma segment_softmax_shift_invariant_witness :
  segment_softmax (tmap (fun x => x + 5)%R (mkT [3; 1]%nat [1; 2; 3]%R))
                  (vector [0; 0; 1]%Z)
  = segment_softmax (mkT [3; 1]%nat [1; 2; 3]%R) (vector [0; 0; 1]%Z).
Proof.
  apply (segment_softmax_shift_invariant (mkT [3; 1]%nat [1; 2; 3]%R)
           (vector [0; 0; 1]%Z) 3 1 5).
  - reflexivity.
  - reflexivity.
  - reflexivity.
  - reflexivity.
  - apply segment_ids_ok_iff. reflexivity.
Defined.

(** ** [segment_argmax]: no row is left out *)

(** Whenever [segment_argmax] returns, every row that holds a greatest cell of
    its group is among the rows returned. *)
Theorem segment_argmax_rows_complete {A : Type} `{NumLaws A} (input : Tensor A)
  (partition : Tensor Z) (n m : nat) (rows cols : Tensor Z) :
  wf input -> shape input = [n; m] ->
  wf partition -> shape partition = [n] ->
  segment_argmax input partition = Ok (rows, cols) ->
  forall g i j, max_cell input partition g i j ->
    exists a, tget rows [a] = Some (Z.of_nat i).
Proof.
  intros Hwi Hsi Hwp Hsp Hres g i j Hmax.
  destruct (segment_argmax_success input partition n m rows cols Hwi Hsi Hwp Hsp Hres)
    as [Hsorted [is_max [sel [Hsim [Hwim [Hcand [Hassert [Hsel [Hk [Hrows _]]]]]]]]]].
  destruct (max_cell_bounds input partition n m Hsi g i j Hmax) as [Hi Hj].
  pose proof Hmax as [Hg _].
  apply (bcell_max_cell input partition n m is_max Hsi Hwp Hsp Hsim Hcand g i j Hg)
    in Hmax.
  apply bcell_true in Hmax.
  assert (Hin : In i sel).
  { rewrite Hsel. apply filter_In. split; [apply in_seq; lia|].
    apply existsb_exists. exists true. split; [|reflexivity].
    rewrite <- (nth_error_row is_max n m i j Hsim Hi Hj) in Hmax.
    eapply nth_error_In. exact Hmax. }
  apply In_nth_error in Hin. destruct Hin as [a Ha].
  assert (Hal : a < length sel) by (apply nth_error_Some; congruence).
  exists a. rewrite Hrows. rewrite (tget_at _ _ a) by (apply ravel1; exact Hal).
  cbn [data]. rewrite nth_error_map, Ha. reflexivity.
Qed.

Lemma segment_argmax_rows_complete_witness :
  segment_argmax (mkT [3; 2] [1; 2; 5; 3; 4; 7]%Z) (vector [0; 0; 1]%Z)
  = Ok (mkT [2] [1; 2]%Z, mkT [2] [0; 1]%Z)
  /\ forall g i j,
       max_cell (mkT [3; 2] [1; 2; 5; 3; 4; 7]%Z) (vector [0; 0; 1]%Z) g i j ->
       exists a, tget (mkT [2] [1; 2]%Z) [a] = Some (Z.of_nat i).
Proof.
  split; [reflexivity|].
  apply (segment_argmax_rows_complete (mkT [3; 2] [1; 2; 5; 3; 4; 7]%Z)
           (vector [0; 0; 1]%Z) 3 2 (mkT [2] [1; 2]%Z) (mkT [2] [0; 1]%Z)).
  - reflexivity.
  - reflexivity.
  - reflexivity.
  - reflexivity.
  - reflexivity.
Defined.

(** ** [gather_rowwise_1d] outside the columns *)

(** A column outside [0, m) that fits int32 (the coordinates are cast to
    int32) is rejected by [tf.gather_nd]. *)
Theorem gather_rowwise_1d_out_of_range {A : Type} (input : Tensor A)
  (indices_ : Tensor Z) (n m i0 : nat) (v : Z) :
  wf input -> shape32 input -> shape input = [n; m] ->
  wf indices_ -> shape indices_ = [n] ->
  i0 < n -> tget indices_ [i0] = Some v -> in_int32 v ->
  (v < 0 \/ Z.of_nat m <= v)%Z ->
  gather_rowwise_1d input indices_ = Err InvalidArgument.
Proof.
  intros Hwf H32 Hsh Hwfi Hshi Hi0 Hv Bv Hout.
  destruct (shape32_2 _ _ _ Hsh H32) as [Bn Bm].
  assert (H32i : shape32 indices_).
  { unfold shape32. rewrite Hshi. repeat constructor. exact Bn. }
  destruct (gather_rowwise_indices_1d_spec indices_ n Hwfi H32i Hshi)
    as [c [Hc [Hsc [Hwc Hrc]]]].
  unfold gather_rowwise_1d. rewrite Hc. cbn [bind].
  unfold TF.gather_nd. cbn [shape tmap]. rewrite Hsc, Hsh.
  cbn [rev app length Nat.leb guard bind skipn].
  match goal with |- tbuild ?sh ?f = _ =>
    apply (tbuild_fails sh f [i0] InvalidArgument) end.
  - intros J _. apply invalid_bind.
    { apply invalid_mapM. intros e _. apply invalid_tread. }
    intros coord _. apply invalid_bind; [apply invalid_guard|].
    intros _ _. apply invalid_tread.
  - apply in_indices1. exists i0. auto.
  - destruct (Hrc i0 Hi0) as [H0 H1].
    assert (Hc0 : tread (tmap wrap32 c) [i0; 0] = Ok (Z.of_nat i0)).
    { rewrite tread_tmap, H0. cbn [bind].
      rewrite (wrap64_id (Z.of_nat i0))
        by (unfold in_int64, int64_min, int64_max, int32_max in *; lia).
      rewrite wrap32_id by (unfold in_int32, int32_min, int32_max in *; lia).
      reflexivity. }
    assert (Hc1 : tread (tmap wrap32 c) [i0; 1] = Ok v).
    { rewrite tread_tmap, H1. apply tread_Ok in Hv. rewrite Hv. cbn [bind].
      rewrite wrap32_id by exact Bv. reflexivity. }
    cbn [firstn skipn].
    rewrite (gather_nd_pair input (tmap wrap32 c) [i0] i0 v Hc0 Hc1).
    destruct Hout as [Hneg|Hbig].
    + replace (0 <=? v)%Z with false by (symmetry; apply Z.leb_gt; exact Hneg).
      reflexivity.
    + replace (0 <=? v)%Z with true by (symmetry; apply Z.leb_le; lia).
      cbn [guard bind]. unfold tread, tget. rewrite Hsh. cbn [ravel].
      replace (i0 <? n) with true by (symmetry; apply Nat.ltb_lt; exact Hi0).
      replace (Z.to_nat v <? m) with false by (symmetry; apply Nat.ltb_ge; lia).
      reflexivity.
Qed.

Lemma gather_rowwise_1d_out_of_range_witness :
  gather_rowwise_1d (mkT [2; 3] [1; 2; 3; 4; 5; 6]%Z) (vector [2; 3]%Z)
  = Err InvalidArgument.
Proof.
  apply (gather_rowwise_1d_out_of_range (mkT [2; 3] [1; 2; 3; 4; 5; 6]%Z)
           (vector [2; 3]%Z) 2 3 1 3%Z).
  - reflexivity.
  - repeat constructor; vm_compute; discriminate.
  - reflexivity.
  - reflexivity.
  - reflexivity.
  - lia.
  - reflexivity.
  - unfold in_int32, int32_min, int32_max; lia.
  - right. simpl. lia.
Defined.
